(** * folder-synchronizer: a model of [file_synchronizer.py] and [main.py]

    The program mirrors a source directory into a replica directory, one
    way, on a period.  This development embeds

    - the path arithmetic the code relies on ([os.path.join],
      [os.path.relpath]);
    - a filesystem (a finite map from absolute paths to nodes) together
      with the library calls the code makes on it ([os.path.exists],
      [os.path.isdir], [os.walk], [os.makedirs], [shutil.copy2],
      [shutil.rmtree], [os.remove], [open]/[read]);
    - [hashlib.md5] (RFC 1321);
    - the methods of [FileSynchronizer], written in an exception-and-state
      monad, in the order and with the [try]/[except] blocks of the source;
    - the scheduler loop of [run] as a transition system.                  *)

From Stdlib Require Import ZArith Lia.
From stdpp Require Import gmap strings list fin_maps.

Open Scope string_scope.
Open Scope list_scope.

(* ===================================================================== *)
(** * hashlib.md5                                                          *)
(* ===================================================================== *)

Module MD5.

Local Open Scope Z_scope.

Definition w32 (x : Z) : Z := x mod 2 ^ 32.

Definition rotl (x c : Z) : Z :=
  w32 (Z.lor (Z.shiftl x c) (Z.shiftr (w32 x) (32 - c))).

Definition not32 (x : Z) : Z := Z.lxor (w32 x) 0xffffffff.

(** Per-round shift amounts. *)
Definition S : list Z :=
  [ 7; 12; 17; 22; 7; 12; 17; 22; 7; 12; 17; 22; 7; 12; 17; 22;
    5;  9; 14; 20; 5;  9; 14; 20; 5;  9; 14; 20; 5;  9; 14; 20;
    4; 11; 16; 23; 4; 11; 16; 23; 4; 11; 16; 23; 4; 11; 16; 23;
    6; 10; 15; 21; 6; 10; 15; 21; 6; 10; 15; 21; 6; 10; 15; 21 ].

(** [K !! i = floor (2^32 * abs (sin (i + 1)))]. *)
Definition K : list Z :=
  [ 0xd76aa478; 0xe8c7b756; 0x242070db; 0xc1bdceee;
    0xf57c0faf; 0x4787c62a; 0xa8304613; 0xfd469501;
    0x698098d8; 0x8b44f7af; 0xffff5bb1; 0x895cd7be;
    0x6b901122; 0xfd987193; 0xa679438e; 0x49b40821;
    0xf61e2562; 0xc040b340; 0x265e5a51; 0xe9b6c7aa;
    0xd62f105d; 0x02441453; 0xd8a1e681; 0xe7d3fbc8;
    0x21e1cde6; 0xc33707d6; 0xf4d50d87; 0x455a14ed;
    0xa9e3e905; 0xfcefa3f8; 0x676f02d9; 0x8d2a4c8a;
    0xfffa3942; 0x8771f681; 0x6d9d6122; 0xfde5380c;
    0xa4beea44; 0x4bdecfa9; 0xf6bb4b60; 0xbebfbc70;
    0x289b7ec6; 0xeaa127fa; 0xd4ef3085; 0x04881d05;
    0xd9d4d039; 0xe6db99e5; 0x1fa27cf8; 0xc4ac5665;
    0xf4292244; 0x432aff97; 0xab9423a7; 0xfc93a039;
    0x655b59c3; 0x8f0ccc92; 0xffeff47d; 0x85845dd1;
    0x6fa87e4f; 0xfe2ce6e0; 0xa3014314; 0x4e0811a1;
    0xf7537e82; 0xbd3af235; 0x2ad7d2bb; 0xeb86d391 ].

Definition nthZ (l : list Z) (i : nat) : Z := nth i l 0.

(** Little-endian encoding of [x] on [n] bytes, and decoding. *)
Fixpoint le_bytes (n : nat) (x : Z) : list Z :=
  match n with
  | O => []
  | Datatypes.S n' => x mod 256 :: le_bytes n' (x / 256)
  end.

Fixpoint le_word (bs : list Z) : Z :=
  match bs with
  | [] => 0
  | b :: bs' => b + 256 * le_word bs'
  end.

(** Message padding: a [0x80] byte, zeros up to 56 modulo 64, then the
    bit length on 64 bits. *)
Definition pad (msg : list Z) : list Z :=
  let len := Z.of_nat (length msg) in
  let zeros := Z.to_nat ((55 - len) mod 64) in
  msg ++ 0x80 :: repeat 0 zeros ++ le_bytes 8 ((8 * len) mod 2 ^ 64).

(** Cut a list into consecutive pieces of [n] elements; [k] bounds the
    number of pieces. *)
Fixpoint pieces {A} (k n : nat) (l : list A) : list (list A) :=
  match k with
  | O => []
  | Datatypes.S k' =>
      match l with
      | [] => []
      | _ => take n l :: pieces k' n (drop n l)
      end
  end.

Definition words (block : list Z) : list Z :=
  le_word <$> pieces 16 4 block.

Record regs := Regs { rA : Z; rB : Z; rC : Z; rD : Z }.

Definition init : regs :=
  Regs 0x67452301 0xefcdab89 0x98badcfe 0x10325476.

Definition step (M : list Z) (r : regs) (i : nat) : regs :=
  let '(Regs a b c d) := r in
  let '(f, g) :=
    if (i <? 16)%nat then
      (Z.lor (Z.land b c) (Z.land (not32 b) d), i)
    else if (i <? 32)%nat then
      (Z.lor (Z.land d b) (Z.land (not32 d) c), ((5 * i + 1) mod 16)%nat)
    else if (i <? 48)%nat then
      (Z.lxor (Z.lxor b c) d, ((3 * i + 5) mod 16)%nat)
    else
      (Z.lxor c (Z.lor b (not32 d)), ((7 * i) mod 16)%nat) in
  let f' := w32 (f + a + nthZ K i + nthZ M g) in
  Regs d (w32 (b + rotl f' (nthZ S i))) b c.

Definition compress (r : regs) (block : list Z) : regs :=
  let r' := foldl (step (words block)) r (seq 0 64) in
  Regs (w32 (rA r + rA r')) (w32 (rB r + rB r'))
       (w32 (rC r + rC r')) (w32 (rD r + rD r')).

Definition digest_bytes (msg : list Z) : list Z :=
  let p := pad msg in
  let r := foldl compress init (pieces (length p) 64 p) in
  le_bytes 4 (rA r) ++ le_bytes 4 (rB r) ++
  le_bytes 4 (rC r) ++ le_bytes 4 (rD r).

Definition hex_digit (x : Z) : Ascii.ascii :=
  nth (Z.to_nat x) (String.list_ascii_of_string "0123456789abcdef")
      (Ascii.ascii_of_nat 48).

Definition hex (bs : list Z) : string :=
  String.string_of_list_ascii
    (flat_map (fun b => [hex_digit (b / 16); hex_digit (b mod 16)]) bs).

(** The hexadecimal digest of a byte string, as [hexdigest()] gives it. *)
Definition md5 (data : list Byte.byte) : string :=
  hex (digest_bytes ((fun b => Z.of_N (Byte.to_N b)) <$> data)).

(** Reading a hexadecimal dump as bytes (for test vectors). *)
Definition hex_value (c : Ascii.ascii) : N :=
  let n := Ascii.N_of_ascii c in
  if (48 <=? n)%N && (n <=? 57)%N then (n - 48)%N
  else if (97 <=? n)%N && (n <=? 102)%N then (n - 87)%N
  else 0%N.

Fixpoint unhex_list (cs : list Ascii.ascii) : list Byte.byte :=
  match cs with
  | hi :: lo :: cs' =>
      match Byte.of_N (16 * hex_value hi + hex_value lo) with
      | Some b => b :: unhex_list cs'
      | None => unhex_list cs'
      end
  | _ => []
  end.

Definition unhex (s : string) : list Byte.byte :=
  unhex_list (String.list_ascii_of_string s).

End MD5.

(* ===================================================================== *)
(** * Paths                                                                *)
(* ===================================================================== *)

(** A path is the list of its components below the filesystem root; the
    paths the program handles are absolute and normalised. *)
Abbreviation path := (list string).

(** [os.path.join a b] for a relative [b]. *)
Definition join (a b : path) : path := a ++ b.

Fixpoint commonprefix (a b : path) : path :=
  match a, b with
  | x :: a', y :: b' => if decide (x = y) then x :: commonprefix a' b' else []
  | _, _ => []
  end.

(** [os.path.relpath p start]: one [".."] for each component of [start]
    beyond the common prefix, then the rest of [p]; ["."] when nothing is
    left. *)
Definition relpath (p start : path) : path :=
  let i := length (commonprefix start p) in
  match repeat ".." (length start - i) ++ drop i p with
  | [] => ["."]
  | rel => rel
  end.

(** [os.path.split]: head and tail. *)
Definition dirname (p : path) : path := removelast p.

Definition basename (p : path) : path :=
  match last p with
  | Some name => [name]
  | None => []
  end.

(* ===================================================================== *)
(** * The filesystem                                                       *)
(* ===================================================================== *)

(** A regular file carries its bytes and its metadata (the modification
    time stands for what [shutil.copy2] copies besides the bytes). *)
Inductive node :=
  | File (data : list Byte.byte) (mtime : Z)
  | Dir.

#[global] Instance byte_eq_dec : EqDecision Byte.byte := Byte.byte_eq_dec.

#[global] Instance node_eq_dec : EqDecision node.
Proof. solve_decision. Defined.

(** The exceptions the calls below raise; all are [OSError]s in Python,
    and [except PermissionError] catches the first only. *)
Inductive exn :=
  | PermissionError
  | FileNotFoundError
  | FileExistsError
  | NotADirectoryError
  | IsADirectoryError
  | SameFileError
  | OSError (errno : Z).

#[global] Instance exn_eq_dec : EqDecision exn.
Proof. solve_decision. Defined.

(** The system calls that the environment may refuse: a permission
    denied, a full disk, a failing device. *)
Inductive syscall :=
  | Scandir (p : path)
  | OpenRead (p : path)
  | OpenWrite (p : path)
  | Copystat (p : path)
  | Mkdir (p : path)
  | Unlink (p : path)
  | Rmdir (p : path).

(** What the logger receives. *)
Inductive level := DEBUG | WARNING.

Inductive message :=
  | ReplicaDirectoryCreated (p : path)
  | DirectoryCreated (p : path)
  | CouldNotCreateDirectory (p : path) (e : exn)
  | FileCopied (dst src : path)
  | CouldNotCopyFile (p : path) (e : exn)
  | DirectoryRemoved (p : path)
  | CouldNotRemoveDirectory (p : path) (e : exn)
  | FileRemoved (p : path)
  | CouldNotRemoveFile (p : path) (e : exn).

(** The state the program runs in: the directory tree, keyed by absolute
    path (the root is [[]]); the refusals of the environment; the records
    the logger has emitted, oldest first. *)
Record world := World {
  tree : gmap path node;
  faults : syscall -> option exn;
  log : list (level * message)
}.

Definition set_tree (t : gmap path node) (w : world) : world :=
  World t (faults w) (log w).

Definition emit (r : level * message) (w : world) : world :=
  World (tree w) (faults w) (log w ++ [r]).

(** ** Computations that may raise *)

Inductive outcome (A : Type) :=
  | Return (a : A)
  | Raise (e : exn).
Arguments Return {A} a.
Arguments Raise {A} e.

Definition M (A : Type) : Type := world -> world * outcome A.

Definition ret {A} (a : A) : M A := fun w => (w, Return a).

Definition raise {A} (e : exn) : M A := fun w => (w, Raise e).

Definition bind {A B} (m : M A) (k : A -> M B) : M B := fun w =>
  match m w with
  | (w', Return a) => k a w'
  | (w', Raise e) => (w', Raise e)
  end.

Notation "x <- m ;; k" := (bind m (fun x => k))
  (at level 20, m at level 99, k at level 200, only parsing).
Notation "m ;;; k" := (bind m (fun _ => k))
  (at level 20, k at level 200, only parsing).

(** [for x in l: body x]. *)
Fixpoint for_ {A} (l : list A) (body : A -> M unit) : M unit :=
  match l with
  | [] => ret tt
  | x :: l' => body x ;;; for_ l' body
  end.

(** [try: body / except PermissionError as e: handler e]. *)
Definition try_except_PermissionError (body : M unit) (handler : exn -> M unit)
  : M unit := fun w =>
  match body w with
  | (w', Raise PermissionError) => handler PermissionError w'
  | r => r
  end.

(** [try: body / except FileExistsError: pass]. *)
Definition try_except_FileExistsError (body : M unit) : M unit := fun w =>
  match body w with
  | (w', Raise FileExistsError) => (w', Return tt)
  | r => r
  end.

(** [self.logger.debug] and [self.logger.warning]: the record goes to the
    handlers, and [log] holds the records in the order they were emitted.
    The bytes that the file handler appends to the log file are not put
    in [tree], which keeps the log file as [create_logger] found or made
    it: the statements that depend on what a pass reads in the trees
    assume a log file that lies under neither root. *)
Definition debug (m : message) : M unit := fun w => (emit (DEBUG, m) w, Return tt).
Definition warning (m : message) : M unit := fun w => (emit (WARNING, m) w, Return tt).

(** ** Library calls *)

Definition is_file (o : option node) : bool :=
  match o with Some (File _ _) => true | _ => false end.

Definition is_dir (o : option node) : bool :=
  match o with Some Dir => true | _ => false end.

(** [os.path.exists] and [os.path.isdir] never raise.  They are the
    look-up of the path in an environment that allows it: [faults] holds
    the refusals of the calls that act on a path, and an environment in
    which a path cannot even be looked up (a directory on the way cannot
    be searched) refuses those calls on it.  The statements below that
    depend on the answer of a look-up for more than the branch taken
    assume an environment that refuses nothing. *)
Definition exists_ (p : path) : M bool := fun w =>
  (w, Return (bool_decide (is_Some (tree w !! p)))).

Definition isdir (p : path) : M bool := fun w =>
  (w, Return (is_dir (tree w !! p))).

(** The error of a call on a path that is not there: [ENOTDIR] when a
    regular file stands on the way, [ENOENT] otherwise. *)
Definition missing (w : world) (p : path) : exn :=
  if existsb (fun n => is_file (tree w !! take n p)) (seq 0 (length p))
  then NotADirectoryError else FileNotFoundError.

(** The refusal of the environment, if any. *)
Definition ask (c : syscall) : M unit := fun w =>
  match faults w c with
  | Some e => (w, Raise e)
  | None => (w, Return tt)
  end.

(** The name under which [k] is an entry of directory [top]. *)
Definition child_name (top k : path) : option string :=
  if decide (take (length top) k = top) then
    match drop (length top) k with
    | [name] => Some name
    | _ => None
    end
  else None.

Definition listdir (w : world) (top : path) : list (string * node) :=
  omap (fun kn : path * node => (fun name => (name, kn.2)) <$> child_name top kn.1)
       (map_to_list (tree w)).

(** [os.scandir]: the entries of a directory, in the order the system
    gives them. *)
Definition scandir (top : path) : M (list (string * node)) := fun w =>
  match tree w !! top with
  | None => (w, Raise (missing w top))
  | Some (File _ _) => (w, Raise NotADirectoryError)
  | Some Dir =>
      match faults w (Scandir top) with
      | Some e => (w, Raise e)
      | None => (w, Return (listdir w top))
      end
  end.

(** [os.mkdir]. *)
Definition mkdir (p : path) : M unit := fun w =>
  match tree w !! p with
  | Some _ => (w, Raise FileExistsError)
  | None =>
      match tree w !! dirname p with
      | Some Dir =>
          match faults w (Mkdir p) with
          | Some e => (w, Raise e)
          | None => (set_tree (<[p := Dir]> (tree w)) w, Return tt)
          end
      | _ => (w, Raise (missing w p))
      end
  end.

(** [os.makedirs name] ([exist_ok=False]): create the head first when it
    is missing, then the leaf.  The recursion is on the reversed path. *)
Fixpoint makedirs_up (rp : list string) : M unit :=
  match rp with
  | [] => mkdir []
  | _ :: rhead =>
      (e <- exists_ (reverse rhead) ;;
       if negb e then try_except_FileExistsError (makedirs_up rhead)
       else ret tt) ;;;
      mkdir (reverse rp)
  end.

Definition makedirs (p : path) : M unit := makedirs_up (reverse p).

(** [open(p, "rb")] followed by reading: the bytes and the metadata. *)
Definition open_read (p : path) : M (list Byte.byte * Z) := fun w =>
  match tree w !! p with
  | None => (w, Raise (missing w p))
  | Some Dir => (w, Raise IsADirectoryError)
  | Some (File data mtime) =>
      match faults w (OpenRead p) with
      | Some e => (w, Raise e)
      | None => (w, Return (data, mtime))
      end
  end.

(** [open(p, "wb")]: whether the file can be created or truncated.  A
    refusal of the environment comes first: a path that cannot be reached
    is refused whatever lies there.  The bytes are put by [write_file]. *)
Definition open_write (p : path) : M unit := fun w =>
  match faults w (OpenWrite p) with
  | Some e => (w, Raise e)
  | None =>
      match tree w !! p with
      | Some Dir => (w, Raise IsADirectoryError)
      | Some (File _ _) => (w, Return tt)
      | None =>
          match tree w !! dirname p with
          | Some Dir => (w, Return tt)
          | _ => (w, Raise (missing w p))
          end
      end
  end.

(** The file at [p] holds [data], with the metadata [mtime]. *)
Definition write_file (p : path) (data : list Byte.byte) (mtime : Z) : M unit := fun w =>
  (set_tree (<[p := File data mtime]> (tree w)) w, Return tt).

(** [os.path.samefile], as [shutil.copyfile] uses it: false when the
    paths cannot be examined (no links are modelled). *)
Definition samefile (p q : path) : M bool := fun w =>
  (w, Return (bool_decide (p = q /\ is_Some (tree w !! p)))).

(** [shutil.copy2 src dst]: into [dst] when [dst] is a directory; the
    source is opened first, then the destination, and the bytes are
    written ([copyfile]); then the metadata are copied ([copystat]), and
    when that is refused the destination is left with the bytes of the
    source and the metadata of a file just written (no clock is modelled:
    the modification time 0). *)
Definition copy2 (src dst : path) : M unit :=
  d <- isdir dst ;;
  let dst := if d then join dst (basename src) else dst in
  same <- samefile src dst ;;
  if same then raise SameFileError
  else
    f <- open_read src ;;
    open_write dst ;;;
    write_file dst f.1 0 ;;;
    ask (Copystat dst) ;;;
    write_file dst f.1 f.2.

(** [os.remove]. *)
Definition remove (p : path) : M unit := fun w =>
  match tree w !! p with
  | None => (w, Raise (missing w p))
  | Some Dir => (w, Raise IsADirectoryError)
  | Some (File _ _) =>
      match faults w (Unlink p) with
      | Some e => (w, Raise e)
      | None => (set_tree (delete p (tree w)) w, Return tt)
      end
  end.

(** [os.rmdir]: the directory must be empty ([ENOTEMPTY] otherwise), and
    the root cannot be removed ([EBUSY]). *)
Definition rmdir (p : path) : M unit := fun w =>
  match tree w !! p with
  | None => (w, Raise (missing w p))
  | Some (File _ _) => (w, Raise NotADirectoryError)
  | Some Dir =>
      match p, listdir w p with
      | [], _ => (w, Raise (OSError 16))
      | _, _ :: _ => (w, Raise (OSError 39))
      | _, [] =>
          match faults w (Rmdir p) with
          | Some e => (w, Raise e)
          | None => (set_tree (delete p (tree w)) w, Return tt)
          end
      end
  end.

(** A bound on the depth of the tree: no path is longer. *)
Definition depth (w : world) : nat :=
  max_list (length <$> (map_to_list (tree w)).*1).

(** [shutil.rmtree]: entries first (directories recursively, files
    unlinked), then the directory itself; the first error is raised. *)
Fixpoint rmtree_rec (fuel : nat) (top : path) : M unit :=
  match fuel with
  | O => raise (OSError 40)
  | S n =>
      ents <- scandir top ;;
      for_ ents (fun ent : string * node =>
        match ent.2 with
        | Dir => rmtree_rec n (join top [ent.1])
        | File _ _ => remove (join top [ent.1])
        end) ;;;
      rmdir top
  end.

Definition rmtree (p : path) : M unit := fun w =>
  rmtree_rec (S (depth w)) p w.

(** [os.walk top] (top-down, [onerror=None]): a directory that cannot be
    listed is skipped silently; the triples [(root, dirs, files)] in the
    order they are yielded. *)
Fixpoint os_walk (fuel : nat) (w : world) (top : path)
  : list (path * list string * list string) :=
  match fuel with
  | O => []
  | S n =>
      match scandir top w with
      | (_, Raise _) => []
      | (_, Return ents) =>
          let dirs := (filter (fun ent : string * node => ent.2 = Dir) ents).*1 in
          let nondirs := (filter (fun ent : string * node => ent.2 <> Dir) ents).*1 in
          (top, dirs, nondirs)
            :: flat_map (fun d => os_walk n w (join top [d])) dirs
      end
  end.

(** ** [hashlib] objects and file objects *)

(** An [hashlib.md5()] object: [update] feeds it bytes, and [hexdigest]
    is the digest of everything fed so far. *)
Record md5_hash := Md5 { fed : list Byte.byte }.

Definition hashlib_md5 : md5_hash := Md5 [].

Definition update (h : md5_hash) (chunk : list Byte.byte) : md5_hash :=
  Md5 (fed h ++ chunk).

Definition hexdigest (h : md5_hash) : string := MD5.md5 (fed h).

(** [f.read(n)] on a file object, given the bytes not read yet: the chunk
    and what is left. *)
Definition read (n : nat) (f : list Byte.byte) : list Byte.byte * list Byte.byte :=
  (take n f, drop n f).

(* ===================================================================== *)
(** * FileSynchronizer                                                     *)
(* ===================================================================== *)

Record FileSynchronizer := {
  source_dir : path;
  replica_dir : path;
  logfile : path;
  period : Z
}.

(** The [while chunk:] loop of [generate_md5]. *)
Fixpoint read_chunks (fuel chunk_size : nat) (h : md5_hash)
    (chunk f : list Byte.byte) : md5_hash :=
  match fuel with
  | O => h
  | S n =>
      match chunk with
      | [] => h
      | _ =>
          let h := update h chunk in
          let cf := read chunk_size f in
          read_chunks n chunk_size h cf.1 cf.2
      end
  end.

Definition generate_md5 (p : path) (chunk_size : nat) : M string :=
  f <- open_read p ;;
  let cf := read chunk_size f.1 in
  ret (hexdigest (read_chunks (S (length f.1)) chunk_size hashlib_md5 cf.1 cf.2)).

Definition files_equal (l r : path) : M bool :=
  a <- generate_md5 l 4096 ;;
  b <- generate_md5 r 4096 ;;
  if decide (a = b) then ret true else ret false.

Definition fetch_files_and_dirs (directory : path) : M (list path) := fun w =>
  (w, Return
        (flat_map
           (fun rdf : path * list string * list string =>
              ((fun d => join rdf.1.1 [d]) <$> rdf.1.2) ++
              ((fun f => join rdf.1.1 [f]) <$> rdf.2))
           (os_walk (S (depth w)) w directory))).

(** The body of the loop of [update_replica]. *)
Definition update_entry (self : FileSynchronizer) (source_path : path) : M unit :=
  let relative_path := relpath source_path (source_dir self) in
  let replica_path := join (replica_dir self) relative_path in
  d <- isdir source_path ;;
  if d then
    e <- exists_ replica_path ;;
    if negb e then
      try_except_PermissionError
        (makedirs replica_path ;;;
         debug (DirectoryCreated replica_path))
        (fun e => warning (CouldNotCreateDirectory replica_path e))
    else ret tt
  else
    e <- exists_ replica_path ;;
    c <- (if negb e then ret true
          else eq <- files_equal source_path replica_path ;; ret (negb eq)) ;;
    if c then
      try_except_PermissionError
        (copy2 source_path replica_path ;;;
         debug (FileCopied replica_path source_path))
        (fun e => warning (CouldNotCopyFile replica_path e))
    else ret tt.

Definition update_replica (self : FileSynchronizer) (items_to_sync : list path)
  : M unit :=
  for_ items_to_sync (update_entry self).

(** The body of the loop of [cleanup_replica]. *)
Definition cleanup_entry (self : FileSynchronizer) (replica_path : path) : M unit :=
  let relative_path := relpath replica_path (replica_dir self) in
  let source_path := join (source_dir self) relative_path in
  s <- exists_ source_path ;;
  r <- exists_ replica_path ;;
  if negb s && r then
    d <- isdir replica_path ;;
    if d then
      try_except_PermissionError
        (rmtree replica_path ;;;
         debug (DirectoryRemoved replica_path))
        (fun e => warning (CouldNotRemoveDirectory replica_path e))
    else
      try_except_PermissionError
        (remove replica_path ;;;
         debug (FileRemoved replica_path))
        (fun e => warning (CouldNotRemoveFile replica_path e))
  else ret tt.

Definition cleanup_replica (self : FileSynchronizer) (items_to_verify : list path)
  : M unit :=
  for_ items_to_verify (cleanup_entry self).

Definition synchronize_directories (self : FileSynchronizer) : M unit :=
  items_to_sync <- fetch_files_and_dirs (source_dir self) ;;
  update_replica self items_to_sync ;;;
  items_to_verify <- fetch_files_and_dirs (replica_dir self) ;;
  cleanup_replica self items_to_verify.

(** [open(p, "a")], as the file handler of the logger does when it is
    built: the file is created when it is not there (no clock is
    modelled: a file created here has modification time 0). *)
Definition open_append (p : path) : M unit := fun w =>
  match tree w !! p with
  | Some Dir => (w, Raise IsADirectoryError)
  | Some (File _ _) => ask (OpenWrite p) w
  | None =>
      match tree w !! dirname p with
      | Some Dir =>
          match faults w (OpenWrite p) with
          | Some e => (w, Raise e)
          | None => (set_tree (<[p := File [] 0]> (tree w)) w, Return tt)
          end
      | _ => (w, Raise (missing w p))
      end
  end.

(** [create_logger]: the file handler opens the log file; the records
    the handlers receive afterwards are the [log] of the world (their
    bytes in the log file are not tracked in [tree]). *)
Definition create_logger (logfile : path) : M unit := open_append logfile.

Definition initialize (self : FileSynchronizer) : M unit :=
  create_logger (logfile self) ;;;
  e <- exists_ (replica_dir self) ;;
  if negb e then
    makedirs (replica_dir self) ;;;
    debug (ReplicaDirectoryCreated (replica_dir self))
  else ret tt.

(** [main]: [initialize], then [run], whose first act is to start a pass. *)
Definition main_first_pass (self : FileSynchronizer) : M unit :=
  initialize self ;;;
  synchronize_directories self.

(* ===================================================================== *)
(** * The scheduler loop of [run]                                          *)
(* ===================================================================== *)

Module Scheduler.

Local Open Scope Z_scope.

(** Times are in microseconds, the resolution of [datetime]. *)
Definition timedelta (seconds : Z) : Z := seconds * 1000000.

(** The local variables of [run] ([prev_call_time] and the handle [t]),
    the threads that are executing [synchronize_directories], and the
    history of the threads started with the time recorded for each. *)
Record state := State {
  prev_call_time : Z;
  t : nat;
  alive : gset nat;
  started : list (nat * Z)
}.

(** What happens around the loop: an iteration wakes up from
    [time.sleep(1)] and reads the clock, or a worker thread returns
    from (or dies in) [synchronize_directories]. *)
Inductive event :=
  | Tick (now : Z)
  | Exit (thread : nat).

Definition is_alive (s : state) : bool := bool_decide (t s ∈ alive s).

(** [threading.Thread(target=...)] then [start()]. *)
Definition start_thread (now : Z) (s : state) : state :=
  let t' := length (started s) in
  State now t' ({[t']} ∪ alive s) (started s ++ [(t', now)]).

(** The statements before the loop. *)
Definition startup (now : Z) : state :=
  State now O {[O]} [(O, now)].

(** One iteration of [while True], or the end of a worker. *)
Definition step (period : Z) (s : state) (ev : event) : state :=
  match ev with
  | Tick curr_call_time =>
      if (timedelta period <=? curr_call_time - prev_call_time s)
         && negb (is_alive s)
      then start_thread curr_call_time s
      else s
  | Exit i => State (prev_call_time s) (t s) (alive s ∖ {[i]}) (started s)
  end.

Definition run (period : Z) (now : Z) (evs : list event) : state :=
  foldl (step period) (startup now) evs.

(** Whether an iteration dispatches a pass. *)
Definition dispatches (period : Z) (s : state) (ev : event) : bool :=
  bool_decide (length (started (step period s ev)) = Datatypes.S (length (started s))).

(** Successive starts are at least a period apart. *)
Definition spaced (period : Z) (l : list (nat * Z)) : Prop :=
  forall i a b, l !! i = Some a -> l !! Datatypes.S i = Some b ->
                timedelta period <= b.2 - a.2.

(** What holds of every state of the loop: the only thread that may be
    alive is [t]; the last start recorded is that of [t], at
    [prev_call_time]; the starts are spaced. *)
Definition invariant (period : Z) (s : state) : Prop :=
  alive s ⊆ {[t s]} /\
  (exists l, started s = l ++ [(t s, prev_call_time s)]) /\
  spaced period (started s).

(** Scenario 5 of the specification: a period of 5 seconds, a pass of 10
    seconds; the loop wakes up every second. *)
Definition scenario_5 : list event :=
  [ Tick 1000000; Tick 2000000; Tick 3000000; Tick 4000000; Tick 5000000;
    Tick 6000000; Tick 7000000; Tick 8000000; Tick 9000000;
    Exit 0; Tick 10000000; Tick 11000000; Tick 12000000 ].

End Scheduler.

(* ===================================================================== *)
(** * Vocabulary of the statements                                         *)
(* ===================================================================== *)

#[global] Instance level_eq_dec : EqDecision level.
Proof. solve_decision. Defined.

(** A well-formed tree: the root is a directory, and whatever exists
    lies in a directory. *)
Definition wf (t : gmap path node) : Prop :=
  t !! ([] : path) = Some Dir /\
  forall (p : path) (name : string),
    is_Some (t !! (p ++ [name])) -> t !! p = Some Dir.

(** Neither root lies in (or is) the other. *)
Definition disjoint_roots (self : FileSynchronizer) : Prop :=
  ~ source_dir self `prefix_of` replica_dir self /\
  ~ replica_dir self `prefix_of` source_dir self.

(** Every directory can be listed. *)
Definition listable (w : world) : Prop :=
  forall p, faults w (Scandir p) = None.

(** Every directory from [top] down to the entry [p], [p] excluded, can
    be listed. *)
Definition listable_to (w : world) (top p : path) : Prop :=
  forall q, top `prefix_of` q -> q `prefix_of` p -> q <> p ->
            faults w (Scandir q) = None.

Inductive kind := RegularFile | Directory.

Definition kind_of (o : option node) : option kind :=
  match o with
  | Some (File _ _) => Some RegularFile
  | Some Dir => Some Directory
  | None => None
  end.

Definition digest_of (o : option node) : option string :=
  match o with
  | Some (File data _) => Some (MD5.md5 data)
  | _ => None
  end.

(** The warnings among log records. *)
Definition warnings (l : list (level * message)) : list (level * message) :=
  filter (fun r => r.1 = WARNING) l.

(** The entries below [top]: [top] itself excluded. *)
Definition below (top k : path) : Prop :=
  exists rel, rel <> [] /\ k = top ++ rel.

(** What [makedirs p] may do to the world: add directories on the way to
    [p], and nothing else. *)
Definition grows (p : path) (w w' : world) : Prop :=
  faults w' = faults w /\ log w' = log w /\
  (wf (tree w) -> wf (tree w')) /\
  forall k, tree w' !! k = tree w !! k \/
            (tree w !! k = None /\ tree w' !! k = Some Dir /\ k `prefix_of` p).


(** What [rmtree top] may do to the world: remove entries at or below
    [top], and nothing else. *)
Definition shrinks (top : path) (w w' : world) : Prop :=
  faults w' = faults w /\ log w' = log w /\
  (wf (tree w) -> wf (tree w')) /\
  forall k, tree w' !! k = tree w !! k \/
            (tree w' !! k = None /\ top `prefix_of` k).

(** The environment refuses no removal. *)
Definition deletable (w : world) : Prop :=
  forall p, faults w (Scandir p) = None /\ faults w (Unlink p) = None /\
            faults w (Rmdir p) = None.

(** The environment refuses nothing: every call on every path goes
    through as far as what is there allows.  In particular every
    directory can be listed and searched, so that what [os.walk] lists can
    be looked up, opened and removed. *)
Definition refuses_nothing (w : world) : Prop :=
  forall c, faults w c = None.

(** The log file lies under neither root (and is neither root). *)
Definition logfile_apart (self : FileSynchronizer) : Prop :=
  ~ source_dir self `prefix_of` logfile self /\
  ~ replica_dir self `prefix_of` logfile self.

(** The path in the replica that [update_replica] computes for an item,
    and the path in the source that [cleanup_replica] computes. *)
Definition replica_path_of (self : FileSynchronizer) (source_path : path) : path :=
  join (replica_dir self) (relpath source_path (source_dir self)).

Definition source_path_of (self : FileSynchronizer) (replica_path : path) : path :=
  join (source_dir self) (relpath replica_path (replica_dir self)).

(** The ways an iteration of [update_replica] can go, with the world it
    leaves and how it ends. *)
Inductive update_case (self : FileSynchronizer) (sp : path) (w : world)
  : world -> outcome unit -> Prop :=
  | upd_dir_present :
      is_dir (tree w !! sp) = true ->
      is_Some (tree w !! replica_path_of self sp) ->
      update_case self sp w w (Return tt)
  | upd_dir_created w1 :
      is_dir (tree w !! sp) = true ->
      tree w !! replica_path_of self sp = None ->
      makedirs (replica_path_of self sp) w = (w1, Return tt) ->
      update_case self sp w
        (emit (DEBUG, DirectoryCreated (replica_path_of self sp)) w1) (Return tt)
  | upd_dir_denied w1 :
      is_dir (tree w !! sp) = true ->
      tree w !! replica_path_of self sp = None ->
      makedirs (replica_path_of self sp) w = (w1, Raise PermissionError) ->
      update_case self sp w
        (emit (WARNING, CouldNotCreateDirectory (replica_path_of self sp)
                          PermissionError) w1) (Return tt)
  | upd_dir_failed w1 e :
      is_dir (tree w !! sp) = true ->
      tree w !! replica_path_of self sp = None ->
      makedirs (replica_path_of self sp) w = (w1, Raise e) ->
      e <> PermissionError ->
      update_case self sp w w1 (Raise e)
  | upd_compare_failed w1 e :
      is_dir (tree w !! sp) = false ->
      is_Some (tree w !! replica_path_of self sp) ->
      files_equal sp (replica_path_of self sp) w = (w1, Raise e) ->
      update_case self sp w w1 (Raise e)
  | upd_file_same w1 :
      is_dir (tree w !! sp) = false ->
      is_Some (tree w !! replica_path_of self sp) ->
      files_equal sp (replica_path_of self sp) w = (w1, Return true) ->
      update_case self sp w w1 (Return tt)
  | upd_file_copied w0 w1 :
      is_dir (tree w !! sp) = false ->
      (tree w !! replica_path_of self sp = None /\ w0 = w) \/
      (is_Some (tree w !! replica_path_of self sp) /\
       files_equal sp (replica_path_of self sp) w = (w0, Return false)) ->
      copy2 sp (replica_path_of self sp) w0 = (w1, Return tt) ->
      update_case self sp w
        (emit (DEBUG, FileCopied (replica_path_of self sp) sp) w1) (Return tt)
  | upd_file_denied w0 w1 :
      is_dir (tree w !! sp) = false ->
      (tree w !! replica_path_of self sp = None /\ w0 = w) \/
      (is_Some (tree w !! replica_path_of self sp) /\
       files_equal sp (replica_path_of self sp) w = (w0, Return false)) ->
      copy2 sp (replica_path_of self sp) w0 = (w1, Raise PermissionError) ->
      update_case self sp w
        (emit (WARNING, CouldNotCopyFile (replica_path_of self sp)
                          PermissionError) w1) (Return tt)
  | upd_file_failed w0 w1 e :
      is_dir (tree w !! sp) = false ->
      (tree w !! replica_path_of self sp = None /\ w0 = w) \/
      (is_Some (tree w !! replica_path_of self sp) /\
       files_equal sp (replica_path_of self sp) w = (w0, Return false)) ->
      copy2 sp (replica_path_of self sp) w0 = (w1, Raise e) ->
      e <> PermissionError ->
      update_case self sp w w1 (Raise e).

(** The ways an iteration of [cleanup_replica] can go. *)
Inductive cleanup_case (self : FileSynchronizer) (rp : path) (w : world)
  : world -> outcome unit -> Prop :=
  | cln_kept :
      is_Some (tree w !! source_path_of self rp) \/ tree w !! rp = None ->
      cleanup_case self rp w w (Return tt)
  | cln_dir_removed w1 :
      tree w !! source_path_of self rp = None ->
      is_dir (tree w !! rp) = true ->
      rmtree rp w = (w1, Return tt) ->
      cleanup_case self rp w (emit (DEBUG, DirectoryRemoved rp) w1) (Return tt)
  | cln_dir_denied w1 :
      tree w !! source_path_of self rp = None ->
      is_dir (tree w !! rp) = true ->
      rmtree rp w = (w1, Raise PermissionError) ->
      cleanup_case self rp w
        (emit (WARNING, CouldNotRemoveDirectory rp PermissionError) w1) (Return tt)
  | cln_dir_failed w1 e :
      tree w !! source_path_of self rp = None ->
      is_dir (tree w !! rp) = true ->
      rmtree rp w = (w1, Raise e) ->
      e <> PermissionError ->
      cleanup_case self rp w w1 (Raise e)
  | cln_file_removed w1 :
      tree w !! source_path_of self rp = None ->
      is_file (tree w !! rp) = true ->
      remove rp w = (w1, Return tt) ->
      cleanup_case self rp w (emit (DEBUG, FileRemoved rp) w1) (Return tt)
  | cln_file_denied w1 :
      tree w !! source_path_of self rp = None ->
      is_file (tree w !! rp) = true ->
      remove rp w = (w1, Raise PermissionError) ->
      cleanup_case self rp w
        (emit (WARNING, CouldNotRemoveFile rp PermissionError) w1) (Return tt)
  | cln_file_failed w1 e :
      tree w !! source_path_of self rp = None ->
      is_file (tree w !! rp) = true ->
      remove rp w = (w1, Raise e) ->
      e <> PermissionError ->
      cleanup_case self rp w w1 (Raise e).

(** What an iteration of [update_replica] may do to the world, for the
    source path [sp] and the replica path [rp] computed from it: it adds
    directories on the way to [rp], or writes the bytes of the source file
    at [rp] when nothing is there or the digests differ; when it ends well
    without a warning, the entry is in place. *)
Definition update_effect (sp rp : path) (w w' : world) (o : outcome unit) : Prop :=
  faults w' = faults w /\
  (wf (tree w) -> wf (tree w')) /\
  (forall k,
     tree w' !! k = tree w !! k \/
     (tree w !! k = None /\ tree w' !! k = Some Dir /\ k `prefix_of` rp) \/
     (k = rp /\ is_dir (tree w !! rp) = false /\ is_file (tree w !! sp) = true /\
      (is_file (tree w' !! rp) = true /\
       digest_of (tree w' !! rp) = digest_of (tree w !! sp)) /\
      digest_of (tree w !! rp) <> digest_of (tree w !! sp))) /\
  exists l, log w' = log w ++ l /\
    (forall dst src, (DEBUG, FileCopied dst src) ∈ l ->
       dst = rp /\ digest_of (tree w !! rp) <> digest_of (tree w !! sp)) /\
    (o = Return tt -> warnings l = [] ->
       (is_dir (tree w !! sp) = true -> is_Some (tree w' !! rp)) /\
       (is_dir (tree w !! sp) = false ->
          is_file (tree w !! sp) = true /\ is_file (tree w' !! rp) = true /\
          digest_of (tree w' !! rp) = digest_of (tree w !! sp))).

(** What an iteration of [cleanup_replica] may do to the world: remove
    entries at or below [rp], and only when [sp] is not in the source;
    when it ends well without a warning, such an [rp] is gone. *)
Definition cleanup_effect (sp rp : path) (w w' : world) (o : outcome unit) : Prop :=
  faults w' = faults w /\
  (wf (tree w) -> wf (tree w')) /\
  (forall k,
     tree w' !! k = tree w !! k \/
     (tree w' !! k = None /\ rp `prefix_of` k /\ tree w !! sp = None)) /\
  exists l, log w' = log w ++ l /\
    (o = Return tt -> warnings l = [] ->
       tree w !! sp = None -> tree w' !! rp = None).

(** The source tree of [w] is that of [w0]. *)
Definition source_kept (self : FileSynchronizer) (w0 w : world) : Prop :=
  forall k, source_dir self `prefix_of` k -> tree w !! k = tree w0 !! k.

(** The entry [rel] of the source (as it is in [w0]) has its counterpart
    in the replica of [w]: something is there for a directory, a file with
    the digest of the source file for a file. *)
Definition mirrored (self : FileSynchronizer) (w0 w : world) (rel : path) : Prop :=
  (is_dir (tree w0 !! (source_dir self ++ rel)) = true ->
   is_Some (tree w !! (replica_dir self ++ rel))) /\
  (is_file (tree w0 !! (source_dir self ++ rel)) = true ->
   is_file (tree w !! (replica_dir self ++ rel)) = true /\
   digest_of (tree w !! (replica_dir self ++ rel))
   = digest_of (tree w0 !! (source_dir self ++ rel))).

(** No directory of the source faces a regular file in the replica. *)
Definition no_file_for_directory (self : FileSynchronizer) (w0 w : world) : Prop :=
  forall rel, is_dir (tree w0 !! (source_dir self ++ rel)) = true ->
              is_file (tree w !! (replica_dir self ++ rel)) = false.

(** The log of [w'] continues that of [w], in the same environment. *)
Definition log_grows (w w' : world) : Prop :=
  faults w' = faults w /\ exists l, log w' = log w ++ l.

(* ===================================================================== *)
(** * Checking the hypotheses on a given world                             *)
(* ===================================================================== *)

(** [wf], computed. *)
Definition wf_check (t : gmap path node) : bool :=
  bool_decide (t !! ([] : path) = Some Dir) &&
  forallb (fun kn : path * node =>
             match kn.1 with
             | [] => true
             | _ => bool_decide (t !! dirname kn.1 = Some Dir)
             end)
          (map_to_list t).

(** [no_file_for_directory self w w], computed. *)
Definition no_file_for_directory_check (self : FileSynchronizer) (w : world) : bool :=
  forallb (fun kn : path * node =>
             if is_dir (Some kn.2) && bool_decide (source_dir self `prefix_of` kn.1)
             then negb (is_file (tree w !! (replica_dir self ++
                                            drop (length (source_dir self)) kn.1)))
             else true)
          (map_to_list (tree w)).

(* ===================================================================== *)
(** * Worlds used as examples                                              *)
(* ===================================================================== *)

Definition no_faults : syscall -> option exn := fun _ => None.

Definition bytes (s : string) : list Byte.byte := String.list_byte_of_string s.

Definition world_of (entries : list (path * node)) : world :=
  World (list_to_map entries) no_faults [].

(** [--source /src --replica /rep --logfile /sync.log --period 5]. *)
Definition fs_example : FileSynchronizer :=
  {| source_dir := ["src"]; replica_dir := ["rep"];
     logfile := ["sync.log"]; period := 5 |}.

(** The scenarios of the specification together: a file to copy, a
    stale copy to refresh, a nested directory to create, and a file and a
    directory to remove. *)
Definition world_scenarios : world :=
  world_of
    [ ([], Dir); (["src"], Dir); (["rep"], Dir);
      (["src"; "a.txt"], File (bytes "hello") 1);
      (["src"; "b.txt"], File (bytes "world") 2);
      (["rep"; "b.txt"], File (bytes "hello") 1);
      (["src"; "d"], Dir); (["src"; "d"; "e"], Dir);
      (["src"; "d"; "e"; "f"], File (bytes "x") 3);
      (["rep"; "extra.txt"], File (bytes "x") 4);
      (["rep"; "old"], Dir); (["rep"; "old"; "n"], File (bytes "y") 5);
      (["rep"; "old"; "m"], Dir) ].

(** An empty directory in the source, a regular file of that name in the
    replica. *)
Definition world_dir_vs_file : world :=
  world_of
    [ ([], Dir); (["src"], Dir); (["rep"], Dir);
      (["src"; "d"], Dir);
      (["rep"; "d"], File (bytes "x") 1) ].

(** The two 128-byte messages of Wang and Yu (2004), which differ in six
    bytes and have the same MD5 digest. *)
Definition collision_a : list Byte.byte :=
  MD5.unhex
    ("d131dd02c5e6eec4693d9a0698aff95c2fcab58712467eab4004583eb8fb7f89" +:+
     "55ad340609f4b30283e488832571415a085125e8f7cdc99fd91dbdf280373c5b" +:+
     "d8823e3156348f5bae6dacd436c919c6dd53e2b487da03fd02396306d248cda0" +:+
     "e99f33420f577ee8ce54b67080a80d1ec69821bcb6a8839396f9652b6ff72a70").

Definition collision_b : list Byte.byte :=
  MD5.unhex
    ("d131dd02c5e6eec4693d9a0698aff95c2fcab50712467eab4004583eb8fb7f89" +:+
     "55ad340609f4b30283e4888325f1415a085125e8f7cdc99fd91dbd7280373c5b" +:+
     "d8823e3156348f5bae6dacd436c919c6dd53e23487da03fd02396306d248cda0" +:+
     "e99f33420f577ee8ce54b67080280d1ec69821bcb6a8839396f965ab6ff72a70").

(** A source file and its replica counterpart holding the two messages. *)
Definition world_collision : world :=
  world_of
    [ ([], Dir); (["src"], Dir); (["rep"], Dir);
      (["src"; "m"], File collision_a 1);
      (["rep"; "m"], File collision_b 1) ].

(** A replica file with the bytes of the source file and another
    modification time. *)
Definition world_touched : world :=
  world_of
    [ ([], Dir); (["src"], Dir); (["rep"], Dir);
      (["src"; "a.txt"], File (bytes "hello") 1);
      (["rep"; "a.txt"], File (bytes "hello") 99) ].

(** A regular file in the source, a directory of that name in the
    replica. *)
Definition world_file_vs_dir : world :=
  world_of
    [ ([], Dir); (["src"], Dir); (["rep"], Dir);
      (["src"; "d"], File (bytes "x") 1);
      (["rep"; "d"], Dir); (["rep"; "d"; "kept"], File (bytes "y") 2) ].

(** An environment that refuses the creation of [/rep/d] and the reading
    of [/rep/locked.txt], both for want of permission. *)
Definition faults_denied (c : syscall) : option exn :=
  match c with
  | Mkdir p => if decide (p = ["rep"; "d"]) then Some PermissionError else None
  | OpenRead p =>
      if decide (p = ["rep"; "locked.txt"]) then Some PermissionError else None
  | _ => None
  end.

Definition world_denied : world :=
  World
    (list_to_map
       [ ([], Dir); (["src"], Dir); (["rep"], Dir);
         (["src"; "d"], Dir);
         (["src"; "a.txt"], File (bytes "hello") 1);
         (["src"; "locked.txt"], File (bytes "new") 2);
         (["rep"; "locked.txt"], File (bytes "old") 1) ])
    faults_denied [].

(** An environment that refuses the removal of [/rep/extra.txt], for
    want of permission. *)
Definition faults_unlink_denied (c : syscall) : option exn :=
  match c with
  | Unlink p =>
      if decide (p = ["rep"; "extra.txt"]) then Some PermissionError else None
  | _ => None
  end.

Definition world_unlink_denied : world :=
  World
    (list_to_map
       [ ([], Dir); (["src"], Dir); (["rep"], Dir);
         (["rep"; "extra.txt"], File (bytes "x") 4) ])
    faults_unlink_denied [].

(** A first start: the replica root [/backup/rep] and its parent are not
    there yet, nor is the log file. *)
Definition fs_fresh : FileSynchronizer :=
  {| source_dir := ["src"]; replica_dir := ["backup"; "rep"];
     logfile := ["sync.log"]; period := 300 |}.

Definition world_fresh : world :=
  world_of
    [ ([], Dir); (["src"], Dir);
      (["src"; "a.txt"], File (bytes "hello") 1) ].

(* ===================================================================== *)
(** * Vocabulary of the further properties                                 *)
(* ===================================================================== *)

(** The paths that [fetch_files_and_dirs] appends for one triple of
    [os.walk]: the directories of [root], then its files. *)
Definition walk_items (rdf : path * list string * list string) : list path :=
  ((fun d => join rdf.1.1 [d]) <$> rdf.1.2) ++
  ((fun f => join rdf.1.1 [f]) <$> rdf.2).

(** In [l], every entry comes after the directory that holds it, unless
    that directory is [top]. *)
Definition parents_first (top : path) (l : list path) : Prop :=
  forall l1 p l2, l = l1 ++ p :: l2 -> dirname p = top \/ dirname p ∈ l1.

(** What stays outside the replica root, for loops that act on entries
    below it. *)
Definition outside_kept (rep : path) (w1 w2 : world) : Prop :=
  wf (tree w1) -> is_Some (tree w1 !! rep) ->
  wf (tree w2) /\ forall k, ~ below rep k -> tree w2 !! k = tree w1 !! k.

(* ===================================================================== *)
(** * More worlds used as examples                                         *)
(* ===================================================================== *)

(** The source holds a file in a directory, and the environment refuses
    the creation of that directory in the replica. *)
Definition world_denied_nested : world :=
  World
    (list_to_map
       [ ([], Dir); (["src"], Dir); (["rep"], Dir);
         (["src"; "d"], Dir);
         (["src"; "d"; "f"], File (bytes "x") 1) ])
    faults_denied [].

(** The source root is gone; the replica still holds what was copied. *)
Definition world_source_gone : world :=
  world_of
    [ ([], Dir); (["rep"], Dir);
      (["rep"; "a.txt"], File (bytes "hello") 1);
      (["rep"; "d"], Dir); (["rep"; "d"; "f"], File (bytes "x") 3) ].

(** [--logfile /rep/sync.log]: the log file lies in the replica
    directory. *)
Definition fs_log_in_replica : FileSynchronizer :=
  {| source_dir := ["src"]; replica_dir := ["rep"];
     logfile := ["rep"; "sync.log"]; period := 5 |}.

(* ===================================================================== *)
(** * The command line ([main.py])                                         *)
(* ===================================================================== *)

Module Main.

(** The [argparse.Namespace] that [parse_args] returns. *)
Record Namespace := {
  source : path;
  replica : path;
  logfile : path;
  period : Z
}.

(** The lines that [validate_args] prints. *)
Inductive line :=
  | SourcePathInvalid (p : path)
  | SourceDoesNotExist (p : path)
  | ReplicaPathInvalid (p : path)
  | LogfilePathInvalid (p : path).

(** What the program does, as far as the first pass: [sys.exit()] after
    the lines printed, or [initialize] followed by [run], whose first
    act is to start a pass, with the world that leaves and the error
    raised on the way, if any. *)
Inductive ended :=
  | Exited (out : list line)
  | Ran (r : world * outcome unit).

Section pathvalidate.

(** [pathvalidate.is_valid_filepath(_, platform="auto")]: a test on
    the text of the path, which looks at no file. *)
Variable is_valid_filepath : path -> bool.

(** The lines printed and the value returned; [os.path.exists] is
    the test of [exists_]. *)
Definition validate_args (args : Namespace) (w : world) : list line * bool :=
  if negb (is_valid_filepath (source args)) then
    ([SourcePathInvalid (source args)], false)
  else if negb (bool_decide (is_Some (tree w !! source args))) then
    ([SourceDoesNotExist (source args)], false)
  else if negb (is_valid_filepath (replica args)) then
    ([ReplicaPathInvalid (replica args)], false)
  else if negb (is_valid_filepath (logfile args)) then
    ([LogfilePathInvalid (logfile args)], false)
  else ([], true).

Definition main (args : Namespace) (w : world) : ended :=
  let r := validate_args args w in
  if negb r.2 then Exited r.1
  else
    let fs := Build_FileSynchronizer (source args) (replica args)
                (logfile args) (period args) in
    Ran (main_first_pass fs w).

End pathvalidate.

End Main.

(* ===================================================================== *)
(** * Counting the events of the scheduler loop                            *)
(* ===================================================================== *)

(** The worker terminations among the events, and the iterations. *)
Definition exits (evs : list Scheduler.event) : nat :=
  length (List.filter (fun ev => match ev with
                                 | Scheduler.Exit _ => true
                                 | Scheduler.Tick _ => false
                                 end) evs).

Definition ticks (evs : list Scheduler.event) : nat :=
  length (List.filter (fun ev => match ev with
                                 | Scheduler.Tick _ => true
                                 | Scheduler.Exit _ => false
                                 end) evs).

(* ===================================================================== *)
(** * Roots that lie in one another                                        *)
(* ===================================================================== *)

(** [r] repeated [n] times. *)
Fixpoint nested (r : path) (n : nat) : path :=
  match n with
  | O => []
  | S n' => r ++ nested r n'
  end.

(** [--source /data --replica /data/backup]: the replica lies in the
    source. *)
Definition fs_replica_in_source : FileSynchronizer :=
  {| source_dir := ["data"]; replica_dir := ["data"; "backup"];
     logfile := ["sync.log"]; period := 5 |}.

Definition world_replica_in_source : world :=
  world_of
    [ ([], Dir); (["data"], Dir); (["data"; "backup"], Dir);
      (["data"; "a.txt"], File (bytes "hello") 1) ].

(** [--source /backup/data --replica /backup]: the source lies in the
    replica. *)
Definition fs_source_in_replica : FileSynchronizer :=
  {| source_dir := ["backup"; "data"]; replica_dir := ["backup"];
     logfile := ["sync.log"]; period := 5 |}.

Definition world_source_in_replica : world :=
  world_of
    [ ([], Dir); (["backup"], Dir); (["backup"; "data"], Dir);
      (["backup"; "data"; "a.txt"], File (bytes "hello") 1) ].



(* ===================================================================== *)
(** * Theorems                                                             *)
(* ===================================================================== *)

(* ===================================================================== *)
(** * Paths                                                                *)
(* ===================================================================== *)

Lemma commonprefix_app (s r : path) : commonprefix s (s ++ r) = s.
Proof.
  induction s as [|x s IH]; simpl.
  - by destruct r.
  - rewrite decide_True by done. by rewrite IH.
Qed.

(** [relpath] undoes [join] on the entries below the root. *)
Lemma relpath_join (s r : path) : r <> [] -> relpath (join s r) s = r.
Proof.
  intros Hr. unfold relpath, join. rewrite commonprefix_app.
  rewrite Nat.sub_diag. simpl. rewrite drop_app_length.
  by destruct r.
Qed.

Lemma dirname_app (p : path) (name : string) : dirname (p ++ [name]) = p.
Proof. unfold dirname. apply removelast_last. Qed.

Lemma path_snoc_cases (p : path) : p = [] \/ exists q name, p = q ++ [name].
Proof.
  destruct (decide (p = [])) as [->|Hne]; [by left|right].
  exists (removelast p), (List.last p "").
  by apply app_removelast_last.
Qed.

Lemma prefix_of_join_l (a b : path) : a `prefix_of` a ++ b.
Proof. by exists b. Qed.

Lemma prefix_snoc_inv (q p : path) (name : string) :
  q `prefix_of` p ++ [name] -> q = p ++ [name] \/ q `prefix_of` p.
Proof.
  intros [k Hk]. destruct (path_snoc_cases k) as [->|(k' & x & ->)].
  - left. by rewrite app_nil_r in Hk.
  - right. rewrite app_assoc in Hk. apply app_inj_tail in Hk as [-> _].
    by exists k'.
Qed.

(* ===================================================================== *)
(** * Computations                                                         *)
(* ===================================================================== *)

Lemma bind_inv {A B} (m : M A) (k : A -> M B) w w' o :
  bind m k w = (w', o) ->
  (exists w1 a, m w = (w1, Return a) /\ k a w1 = (w', o)) \/
  (exists e, m w = (w', Raise e) /\ o = Raise e).
Proof.
  unfold bind. destruct (m w) as [w1 [a|e]]; intros H.
  - left. eauto.
  - right. simplify_eq. eauto.
Qed.

Lemma bind_Return {A B} (m : M A) (k : A -> M B) w w1 a :
  m w = (w1, Return a) -> bind m k w = k a w1.
Proof. unfold bind. by intros ->. Qed.

Lemma bind_Raise {A B} (m : M A) (k : A -> M B) w w1 e :
  m w = (w1, Raise e) -> bind m k w = (w1, Raise e).
Proof. unfold bind. by intros ->. Qed.

Lemma for_app {A} (l1 l2 : list A) (body : A -> M unit) w :
  for_ (l1 ++ l2) body w = (for_ l1 body ;;; for_ l2 body) w.
Proof.
  revert w. induction l1 as [|x l1 IH]; intros w; simpl.
  - done.
  - unfold bind in *. destruct (body x w) as [w1 [[]|e]]; [|done].
    apply IH.
Qed.

(** A relation that every iteration respects is respected by the loop. *)
Lemma for_preserves {A} (R : world -> world -> Prop) (l : list A)
    (body : A -> M unit) :
  (forall w, R w w) ->
  (forall w1 w2 w3, R w1 w2 -> R w2 w3 -> R w1 w3) ->
  (forall x w w' o, x ∈ l -> body x w = (w', o) -> R w w') ->
  forall w w' o, for_ l body w = (w', o) -> R w w'.
Proof.
  intros Hrefl Htrans. induction l as [|x l IH]; intros Hbody w w' o H.
  - simpl in H. unfold ret in H. by simplify_eq.
  - simpl in H. apply bind_inv in H as [(w1 & [] & H1 & H2)|(e & H1 & ->)].
    + eapply Htrans.
      * eapply Hbody; [left|done].
      * eapply IH; [|done]. intros. eapply Hbody; [by right|done].
    + eapply Hbody; [left|done].
Qed.

(* ===================================================================== *)
(** * The digest of a file                                                 *)
(* ===================================================================== *)

#[global] Opaque MD5.md5.

(** The chunked loop feeds the hash object every byte of the file, in
    order, provided the chunk size is positive. *)
Lemma read_chunks_all (chunk_size : nat) :
  0 < chunk_size ->
  forall fuel h f, length f < fuel ->
    read_chunks fuel chunk_size h (take chunk_size f) (drop chunk_size f)
    = update h f.
Proof.
  intros Hpos. induction fuel as [|fuel IH]; intros h f Hlen; [lia|].
  simpl. destruct (take chunk_size f) as [|b chunk] eqn:Htake.
  - destruct f as [|b f]; [|destruct chunk_size; [lia|discriminate]].
    unfold update. rewrite app_nil_r. by destruct h.
  - rewrite <- Htake. rewrite IH.
    + unfold update. simpl. rewrite <- app_assoc. by rewrite take_drop.
    + rewrite length_drop. destruct f; [by destruct chunk_size|]. simpl in *. lia.
Qed.

Lemma generate_md5_file p chunk_size w data mtime :
  0 < chunk_size ->
  tree w !! p = Some (File data mtime) ->
  faults w (OpenRead p) = None ->
  generate_md5 p chunk_size w = (w, Return (MD5.md5 data)).
Proof.
  intros Hpos Hp Hf. unfold generate_md5, bind, open_read. rewrite Hp, Hf.
  unfold ret, read. cbn [fst snd]. by rewrite read_chunks_all by lia.
Qed.

Lemma generate_md5_inv p chunk_size w w' o :
  0 < chunk_size ->
  generate_md5 p chunk_size w = (w', o) ->
  w' = w /\
  forall s, o = Return s ->
    exists data mtime, tree w !! p = Some (File data mtime) /\
      faults w (OpenRead p) = None /\ s = MD5.md5 data.
Proof.
  intros Hpos.
  destruct (tree w !! p) as [[data mtime|]|] eqn:Hp;
    [destruct (faults w (OpenRead p)) eqn:Hf|..].
  2:{ rewrite (generate_md5_file _ _ _ _ _ Hpos Hp Hf). intros ?; simplify_eq.
      split; [done|]. intros s ?; simplify_eq. eauto. }
  all: unfold generate_md5, bind, open_read; rewrite Hp, ?Hf;
    intros H; simplify_eq; (split; [done|]); intros s Hs; simplify_eq.
Qed.

Lemma generate_md5_dir p chunk_size w :
  tree w !! p = Some Dir ->
  generate_md5 p chunk_size w = (w, Raise IsADirectoryError).
Proof. intros Hp. unfold generate_md5, bind, open_read. by rewrite Hp. Qed.

Lemma chunk_size_pos : 0 < 4096.
Proof. apply Nat.lt_0_succ. Qed.

Lemma files_equal_files l r w dl ml dr mr :
  tree w !! l = Some (File dl ml) -> tree w !! r = Some (File dr mr) ->
  faults w (OpenRead l) = None -> faults w (OpenRead r) = None ->
  files_equal l r w = (w, Return (bool_decide (MD5.md5 dl = MD5.md5 dr))).
Proof.
  intros Hl Hr Fl Fr. unfold files_equal.
  erewrite bind_Return by (eapply generate_md5_file; eauto using chunk_size_pos).
  erewrite bind_Return by (eapply generate_md5_file; eauto using chunk_size_pos).
  unfold ret. case_decide; [by rewrite bool_decide_true|by rewrite bool_decide_false].
Qed.

Lemma files_equal_inv l r w w' o :
  files_equal l r w = (w', o) ->
  w' = w /\
  forall b, o = Return b ->
    exists dl ml dr mr,
      tree w !! l = Some (File dl ml) /\ tree w !! r = Some (File dr mr) /\
      faults w (OpenRead l) = None /\ faults w (OpenRead r) = None /\
      b = bool_decide (MD5.md5 dl = MD5.md5 dr).
Proof.
  unfold files_equal. intros H.
  apply bind_inv in H as [(w1 & a & H1 & H)|(e & H1 & ->)];
    apply (generate_md5_inv _ _ _ _ _ chunk_size_pos) in H1 as [-> H1];
    [|done].
  apply bind_inv in H as [(w2 & b & H2 & H)|(e & H2 & ->)];
    apply (generate_md5_inv _ _ _ _ _ chunk_size_pos) in H2 as [-> H2];
    [|done].
  destruct (H1 _ eq_refl) as (dl & ml & Hl & Fl & ->).
  destruct (H2 _ eq_refl) as (dr & mr & Hr & Fr & ->).
  assert (w' = w /\ o = Return (bool_decide (MD5.md5 dl = MD5.md5 dr))) as [-> ->].
  { unfold ret in H. case_decide; injection H as <- <-; (split; [done|]);
      [by rewrite bool_decide_true|by rewrite bool_decide_false]. }
  split; [done|]. intros b [= <-]. by exists dl, ml, dr, mr.
Qed.

(* ===================================================================== *)
(** * Well-formed trees                                                    *)
(* ===================================================================== *)

Section tree.
Implicit Types t : gmap path node.
Implicit Types p q k : path.

Lemma wf_ancestor t p q :
  wf t -> is_Some (t !! (p ++ q)) -> q <> [] -> t !! p = Some Dir.
Proof.
  intros [_ Hwf]. revert p. induction q as [|x q IH] using rev_ind; [done|].
  intros p Hsome _. rewrite app_assoc in Hsome. apply Hwf in Hsome.
  destruct (decide (q = [])) as [->|Hq].
  - by rewrite app_nil_r in Hsome.
  - apply IH; [by rewrite Hsome|done].
Qed.

Lemma wf_prefix t p k :
  wf t -> is_Some (t !! k) -> p `prefix_of` k -> p <> k -> t !! p = Some Dir.
Proof.
  intros Hwf Hk [q ->] Hne. eapply wf_ancestor; eauto.
  intros ->. by rewrite app_nil_r in Hne.
Qed.

Lemma wf_exists_prefix t p k :
  wf t -> is_Some (t !! k) -> p `prefix_of` k -> is_Some (t !! p).
Proof.
  intros Hwf Hk Hp. destruct (decide (p = k)) as [->|Hne]; [done|].
  erewrite wf_prefix; eauto.
Qed.

Lemma wf_file_leaf t p data mtime q :
  wf t -> t !! p = Some (File data mtime) -> q <> [] -> t !! (p ++ q) = None.
Proof.
  intros Hwf Hp Hq. destruct (t !! (p ++ q)) eqn:Hpq; [|done].
  assert (t !! p = Some Dir) by (eapply wf_ancestor; eauto).
  congruence.
Qed.

Lemma wf_insert_dir t p :
  wf t -> t !! dirname p = Some Dir -> t !! p = None -> wf (<[p := Dir]> t).
Proof.
  intros [Hroot Hwf] Hparent Hp. split.
  - rewrite lookup_insert_ne; [done|]. intros ->. congruence.
  - intros k name. destruct (decide (p = k ++ [name])) as [->|Hne].
    + intros _. rewrite dirname_app in Hparent.
      rewrite lookup_insert_ne; [done|]. intros Heq.
      apply (f_equal length) in Heq. rewrite length_app in Heq. simpl in Heq. lia.
    + rewrite lookup_insert_ne by done. intros Hk. apply Hwf in Hk.
      destruct (decide (p = k)) as [->|]; [congruence|].
      by rewrite lookup_insert_ne.
Qed.

Lemma wf_insert_file t p data mtime :
  wf t ->
  (t !! dirname p = Some Dir /\ t !! p = None) \/ is_file (t !! p) = true ->
  wf (<[p := File data mtime]> t).
Proof.
  intros [Hroot Hwf] Hp.
  assert (p <> []) as Hne.
  { intros ->. destruct Hp as [[_ Hp]|Hp]; [congruence|]. by rewrite Hroot in Hp. }
  assert (forall name, t !! (p ++ [name]) = None) as Hleaf.
  { intros name. destruct (t !! (p ++ [name])) eqn:Hc; [|done].
    assert (t !! p = Some Dir) as Hd by (apply (Hwf p name); by rewrite Hc).
    destruct Hp as [[_ Hp]|Hp]; [congruence|]. by rewrite Hd in Hp. }
  assert (t !! dirname p = Some Dir) as Hparent.
  { destruct Hp as [[Hp _]|Hp]; [done|].
    destruct (path_snoc_cases p) as [->|(k & name & ->)]; [done|].
    rewrite dirname_app. apply (Hwf k name).
    destruct (t !! (k ++ [name])); [done|discriminate]. }
  split.
  - by rewrite lookup_insert_ne.
  - intros k name. destruct (decide (p = k ++ [name])) as [->|Hne'].
    + intros _. rewrite dirname_app in Hparent.
      rewrite lookup_insert_ne; [done|]. intros Heq.
      apply (f_equal length) in Heq. rewrite length_app in Heq. simpl in Heq. lia.
    + rewrite lookup_insert_ne by done. intros Hk.
      destruct (decide (p = k)) as [->|]; [by rewrite Hleaf in Hk; destruct Hk|].
      rewrite lookup_insert_ne by done. by apply (Hwf k name).
Qed.

Lemma wf_delete_leaf t p :
  wf t -> p <> [] -> (forall name, t !! (p ++ [name]) = None) ->
  wf (delete p t).
Proof.
  intros [Hroot Hwf] Hne Hleaf. split.
  - by rewrite lookup_delete_ne.
  - intros k name [nd Hk].
    destruct (decide (p = k ++ [name])) as [->|Hne1];
      [by rewrite lookup_delete_eq in Hk|].
    rewrite lookup_delete_ne in Hk by done.
    destruct (decide (p = k)) as [->|Hne2]; [by rewrite Hleaf in Hk|].
    rewrite lookup_delete_ne by done. apply (Hwf k name). by rewrite Hk.
Qed.

End tree.

(* ===================================================================== *)
(** * Listing a directory                                                  *)
(* ===================================================================== *)

Lemma child_name_Some (top k : path) (name : string) :
  child_name top k = Some name <-> k = top ++ [name].
Proof.
  unfold child_name. split.
  - case_decide as Htake; [|done].
    destruct (drop (length top) k) as [|x [|??]] eqn:Hdrop; intros [= ->].
    by rewrite <- (take_drop (length top) k), Htake, Hdrop.
  - intros ->. rewrite take_app_length, decide_True by done.
    by rewrite drop_app_length.
Qed.

Lemma elem_of_listdir w top name nd :
  (name, nd) ∈ listdir w top <-> tree w !! (top ++ [name]) = Some nd.
Proof.
  unfold listdir. rewrite list_elem_of_omap. split.
  - intros ([k nd'] & Hin & Hf). apply elem_of_map_to_list in Hin.
    simpl in Hf. destruct (child_name top k) as [name'|] eqn:Hc; [|done].
    simpl in Hf. injection Hf as -> ->. apply child_name_Some in Hc as ->. done.
  - intros Hk. exists (top ++ [name], nd). split.
    + by apply elem_of_map_to_list.
    + simpl. by rewrite (proj2 (child_name_Some _ _ _) eq_refl).
Qed.

Lemma NoDup_listdir w top : NoDup (listdir w top).*1.
Proof.
  unfold listdir.
  pose proof (NoDup_fst_map_to_list (tree w)) as Hnd.
  induction (map_to_list (tree w)) as [|[k nd] l IH]; simpl; [constructor|].
  apply NoDup_cons in Hnd as [Hk Hnd]. specialize (IH Hnd).
  destruct (child_name top k) as [name|] eqn:Hc; simpl; [|done].
  apply NoDup_cons. split; [|done].
  intros Hin. apply Hk. apply list_elem_of_fmap in Hin as ([name' nd'] & Heq & Hin).
  simpl in Heq. subst name'.
  apply list_elem_of_omap in Hin as ([k' nd''] & Hin & Hf). simpl in Hf.
  destruct (child_name top k') as [name'|] eqn:Hc'; [|done].
  simpl in Hf. injection Hf as -> ->.
  apply child_name_Some in Hc as ->. apply child_name_Some in Hc' as ->.
  apply list_elem_of_fmap. by exists (top ++ [name], nd').
Qed.

Lemma listdir_nil w top :
  listdir w top = [] <-> forall name, tree w !! (top ++ [name]) = None.
Proof.
  split.
  - intros Hnil name. destruct (tree w !! (top ++ [name])) as [nd|] eqn:Hk; [|done].
    apply elem_of_listdir in Hk. rewrite Hnil in Hk. by apply elem_of_nil in Hk.
  - intros Hnone. destruct (listdir w top) as [|[name nd] l] eqn:Hl; [done|].
    assert ((name, nd) ∈ listdir w top) as Hin by (rewrite Hl; left).
    apply elem_of_listdir in Hin. by rewrite Hnone in Hin.
Qed.

Lemma depth_bound w k : is_Some (tree w !! k) -> length k <= depth w.
Proof.
  intros [nd Hk]. unfold depth. apply max_list_elem_of_le.
  apply list_elem_of_fmap. exists k. split; [done|].
  apply list_elem_of_fmap. exists (k, nd). split; [done|].
  by apply elem_of_map_to_list.
Qed.

(* ===================================================================== *)
(** * Enumeration                                                          *)
(* ===================================================================== *)

Lemma scandir_inv top w w' o :
  scandir top w = (w', o) ->
  w' = w /\
  forall ents, o = Return ents ->
    tree w !! top = Some Dir /\ faults w (Scandir top) = None /\
    ents = listdir w top.
Proof.
  unfold scandir. intros H. repeat case_match; simplify_eq; split; try done.
  by intros ents [= <-].
Qed.

Lemma scandir_dir top w :
  tree w !! top = Some Dir -> faults w (Scandir top) = None ->
  scandir top w = (w, Return (listdir w top)).
Proof. intros Ht Hf. unfold scandir. by rewrite Ht, Hf. Qed.

(** Whatever [os.walk] yields is there, below directories that could
    be listed. *)
Lemma os_walk_sound fuel w top root dirs files :
  (root, dirs, files) ∈ os_walk fuel w top ->
  top `prefix_of` root /\
  (forall q, top `prefix_of` q -> q `prefix_of` root ->
             faults w (Scandir q) = None) /\
  forall name, name ∈ dirs ++ files -> is_Some (tree w !! (root ++ [name])).
Proof.
  revert top. induction fuel as [|fuel IH]; intros top; simpl.
  - by intros ?%elem_of_nil.
  - destruct (scandir top w) as [w1 [ents|e]] eqn:Hscan; [|by intros ?%elem_of_nil].
    apply scandir_inv in Hscan as [-> Hscan].
    destruct (Hscan _ eq_refl) as (Htop & Hftop & ->).
    intros [Heq|Hin]%elem_of_cons.
    + injection Heq as -> -> ->. split_and!; [done| |].
      * intros q Hq1 Hq2. by rewrite (anti_symm prefix _ _ Hq2 Hq1).
      * intros name [Hin|Hin]%elem_of_app;
          apply list_elem_of_fmap in Hin as ([name' nd] & -> & Hin);
          apply list_elem_of_filter in Hin as [_ Hin];
          apply elem_of_listdir in Hin; simpl; by rewrite Hin.
    + apply list_elem_of_In, in_flat_map in Hin as (d & _ & Hin).
      apply list_elem_of_In, IH in Hin as (Hpre & Hchain & Hin). split_and!; [|  |done].
      * etrans; [|done]. apply prefix_of_join_l.
      * intros q Hq1 Hq2.
        destruct (prefix_weak_total _ _ _ Hq2 Hpre) as [Hq3|Hq3]; [|by apply Hchain].
        apply prefix_snoc_inv in Hq3 as [->|Hq3]; [by apply Hchain|].
        by rewrite (anti_symm prefix _ _ Hq3 Hq1).
Qed.

(** In a well-formed tree, [os.walk] yields every directory below the
    top that has an entry and can be reached through directories that can
    be listed, and that entry is among its names. *)
Lemma os_walk_complete w :
  wf (tree w) ->
  forall rel fuel top name,
    length rel < fuel ->
    (forall q, top `prefix_of` q -> q `prefix_of` top ++ rel ->
               faults w (Scandir q) = None) ->
    is_Some (tree w !! (top ++ rel ++ [name])) ->
    exists dirs files,
      (top ++ rel, dirs, files) ∈ os_walk fuel w top /\ name ∈ dirs ++ files.
Proof.
  intros Hwf. induction rel as [|x rel IH]; intros fuel top name Hfuel Hlist Hsome;
    (destruct fuel as [|fuel]; [simpl in Hfuel; lia|]); simpl.
  - rewrite app_nil_r.
    assert (tree w !! top = Some Dir) as Htop by (by eapply wf_ancestor).
    rewrite (scandir_dir _ _ Htop) by (apply Hlist; [done|apply prefix_of_join_l]).
    eexists _, _. split; [left|].
    destruct Hsome as [nd Hsome]. apply elem_of_listdir in Hsome.
    apply elem_of_app. destruct (decide (nd = Dir)) as [Hnd|Hnd]; [left|right];
      apply list_elem_of_fmap; exists (name, nd); (split; [done|]);
      by apply list_elem_of_filter.
  - assert (tree w !! top = Some Dir) as Htop by (by eapply wf_ancestor).
    rewrite (scandir_dir _ _ Htop) by (apply Hlist; [done|apply prefix_of_join_l]).
    assert (tree w !! (top ++ [x]) = Some Dir) as Hx.
    { apply (wf_ancestor _ _ (rel ++ [name])); [done| |by destruct rel].
      by rewrite <- app_assoc. }
    destruct (IH fuel (top ++ [x]) name) as (dirs & files & Hin & Hname).
    { simpl in Hfuel. lia. }
    { intros q Hq1 Hq2. apply Hlist.
      - etrans; [|done]. apply prefix_of_join_l.
      - by rewrite <- app_assoc in Hq2. }
    { by rewrite <- app_assoc. }
    exists dirs, files. split; [|done]. right.
    apply list_elem_of_In, in_flat_map. exists x. split.
    + apply list_elem_of_In, list_elem_of_fmap. exists (x, Dir). split; [done|].
      apply list_elem_of_filter. split; [done|]. by apply elem_of_listdir.
    + apply list_elem_of_In. unfold join. by rewrite <- app_assoc in Hin.
Qed.

Lemma listable_listable_to w top p : listable w -> listable_to w top p.
Proof. intros Hlist q _ _ _. apply Hlist. Qed.

Lemma listable_to_faults w w' top p :
  faults w' = faults w -> listable_to w top p -> listable_to w' top p.
Proof. intros Hf Hl q ???. rewrite Hf. by apply Hl. Qed.

(** [fetch_files_and_dirs] changes nothing and, in a well-formed tree,
    returns exactly the entries that exist below the directory and can be
    reached through directories that can be listed. *)
Lemma fetch_files_and_dirs_inv directory w w' o :
  fetch_files_and_dirs directory w = (w', o) ->
  w' = w /\
  exists items, o = Return items /\
    (forall p, p ∈ items ->
       below directory p /\ is_Some (tree w !! p) /\ listable_to w directory p) /\
    (wf (tree w) ->
     forall p, below directory p -> is_Some (tree w !! p) ->
               listable_to w directory p -> p ∈ items).
Proof.
  unfold fetch_files_and_dirs. intros H. apply pair_equal_spec in H as [<- <-].
  split; [done|].
  eexists. split; [done|]. split.
  - intros p Hin. apply list_elem_of_In, in_flat_map in Hin as ([[root dirs] files] & Hw & Hin).
    apply list_elem_of_In, os_walk_sound in Hw as ([rel ->] & Hchain & Hw). simpl in Hin.
    assert (exists name, name ∈ dirs ++ files /\ p = (directory ++ rel) ++ [name])
      as (name & Hname & ->).
    { apply list_elem_of_In, elem_of_app in Hin as [Hin|Hin];
        apply list_elem_of_fmap in Hin as (name & -> & Hin);
        exists name; (split; [|done]); apply elem_of_app; eauto. }
    split_and!; [|by apply Hw|].
    + exists (rel ++ [name]). split; [by destruct rel|]. by rewrite app_assoc.
    + intros q Hq1 Hq2 Hq3. apply Hchain; [done|].
      by apply prefix_snoc_inv in Hq2 as [?|?].
  - intros Hwf p (rel & Hrel & ->) Hsome Hlist.
    destruct (path_snoc_cases rel) as [->|(rel' & name & ->)]; [done|].
    destruct (os_walk_complete w Hwf rel' (S (depth w)) directory name)
      as (dirs & files & Hin & Hname); [| |done|].
    { apply depth_bound in Hsome. rewrite !length_app in Hsome. simpl in Hsome. lia. }
    { intros q Hq1 Hq2. apply Hlist; [done| |].
      - rewrite app_assoc. by apply prefix_app_r.
      - intros ->. rewrite app_assoc in Hq2. by apply prefix_snoc_not in Hq2. }
    apply list_elem_of_In, in_flat_map. eexists. split; [by apply list_elem_of_In|].
    simpl. apply list_elem_of_In. unfold join. rewrite (app_assoc directory).
    apply elem_of_app in Hname as [Hname|Hname]; apply elem_of_app; [left|right];
      apply list_elem_of_fmap; eauto.
Qed.

(* ===================================================================== *)
(** * Creating directories                                                 *)
(* ===================================================================== *)

Lemma mkdir_inv p w w' o :
  mkdir p w = (w', o) ->
  (w' = w /\ exists e, o = Raise e) \/
  (o = Return tt /\ tree w !! p = None /\ tree w !! dirname p = Some Dir /\
   faults w (Mkdir p) = None /\ w' = set_tree (<[p := Dir]> (tree w)) w).
Proof.
  unfold mkdir. intros H. repeat case_match; simplify_eq; eauto 10.
Qed.

Lemma grows_refl p w : grows p w w.
Proof. split_and!; auto. Qed.

Lemma grows_trans p w1 w2 w3 : grows p w1 w2 -> grows p w2 w3 -> grows p w1 w3.
Proof.
  intros (Hf1 & Hl1 & Hwf1 & H1) (Hf2 & Hl2 & Hwf2 & H2).
  split_and!; [congruence|congruence|auto|].
  intros k. destruct (H1 k) as [E1|(N1 & D1 & P1)], (H2 k) as [E2|(N2 & D2 & P2)].
  - left. congruence.
  - right. split_and!; congruence.
  - right. split_and!; congruence.
  - congruence.
Qed.

Lemma grows_mono p q w w' : p `prefix_of` q -> grows p w w' -> grows q w w'.
Proof.
  intros Hpq (Hf & Hl & Hwf & H). split_and!; auto.
  intros k. destruct (H k) as [?|(? & ? & ?)]; [by left|right].
  split_and!; [done..|]. by etrans.
Qed.

Lemma mkdir_grows p w w' o : mkdir p w = (w', o) -> grows p w w'.
Proof.
  intros [[-> _]|(_ & Hp & Hd & _ & ->)]%mkdir_inv; [apply grows_refl|].
  split_and!; simpl; [done|done| |].
  - intros Hwf. by apply wf_insert_dir.
  - intros k. destruct (decide (p = k)) as [->|Hne].
    + right. by rewrite lookup_insert_eq.
    + left. by rewrite lookup_insert_ne.
Qed.

Lemma makedirs_up_grows rp w w' o :
  makedirs_up rp w = (w', o) -> grows (reverse rp) w w'.
Proof.
  revert w w' o. induction rp as [|x rp IH]; intros w w' o; simpl.
  - apply mkdir_grows.
  - intros H.
    apply bind_inv in H as [(w1 & [] & H1 & H2)|(e & H1 & ->)].
    + apply mkdir_grows in H2.
      eapply grows_trans; [|done].
      apply bind_inv in H1 as [(w0 & b & H0 & H1)|(e & H0 & ?)]; [|done].
      unfold exists_ in H0. injection H0 as <- <-.
      destruct (negb _); [|unfold ret in H1; injection H1 as <-; apply grows_refl].
      unfold try_except_FileExistsError in H1.
      destruct (makedirs_up rp w) as [w2 o2] eqn:Hrec.
      apply IH in Hrec.
      assert (w1 = w2) as -> by (repeat case_match; by simplify_eq).
      eapply grows_mono; [|done]. rewrite reverse_cons. apply prefix_of_join_l.
    + apply bind_inv in H1 as [(w0 & b & H0 & H1)|(e' & H0 & ?)]; [|done].
      unfold exists_ in H0. injection H0 as <- <-.
      destruct (negb _); [|done].
      unfold try_except_FileExistsError in H1.
      destruct (makedirs_up rp w) as [w2 o2] eqn:Hrec.
      apply IH in Hrec.
      assert (w' = w2) as -> by (repeat case_match; by simplify_eq).
      eapply grows_mono; [|done]. rewrite reverse_cons. apply prefix_of_join_l.
Qed.

Lemma makedirs_grows p w w' o : makedirs p w = (w', o) -> grows p w w'.
Proof.
  intros H%makedirs_up_grows. by rewrite reverse_involutive in H.
Qed.

(** When [makedirs p] returns, [p] is a directory. *)
Lemma makedirs_Return p w w' :
  makedirs p w = (w', Return tt) -> tree w' !! p = Some Dir.
Proof.
  unfold makedirs. rewrite <- (reverse_involutive p) at 2.
  destruct (reverse p) as [|x rp]; simpl.
  - intros [[_ [e ?]]|(_ & _ & _ & _ & ->)]%mkdir_inv; [done|].
    simpl. by rewrite lookup_insert_eq.
  - intros H. apply bind_inv in H as [(w1 & [] & _ & H)|(e & _ & ?)]; [|done].
    apply mkdir_inv in H as [[_ [e ?]]|(_ & _ & _ & _ & ->)]; [done|].
    simpl. by rewrite lookup_insert_eq.
Qed.

(* ===================================================================== *)
(** * Copying a file                                                       *)
(* ===================================================================== *)

Lemma open_read_inv p w w' o :
  open_read p w = (w', o) ->
  w' = w /\
  forall f, o = Return f ->
    tree w !! p = Some (File f.1 f.2) /\ faults w (OpenRead p) = None.
Proof.
  unfold open_read. intros H. repeat case_match; simplify_eq; split; try done.
  by intros f [= <-].
Qed.

Lemma open_write_inv p w w' o :
  open_write p w = (w', o) ->
  w' = w /\
  (o = Return tt ->
   faults w (OpenWrite p) = None /\
   (is_file (tree w !! p) = true \/
    (tree w !! p = None /\ tree w !! dirname p = Some Dir))).
Proof.
  unfold open_write. intros H.
  repeat case_match; simplify_eq; split; try done; intros _; split; auto.
Qed.

(** [copy2] onto a path that is not a directory: it fails and leaves the
    world as it is; or it writes the bytes and the metadata of the source
    at that path; or it writes the bytes and fails on the metadata. *)
Lemma copy2_inv src dst w w' o :
  is_dir (tree w !! dst) = false ->
  copy2 src dst w = (w', o) ->
  (w' = w /\ exists e, o = Raise e) \/
  (o = Return tt /\ src <> dst /\
   exists data mtime,
     tree w !! src = Some (File data mtime) /\
     faults w (OpenRead src) = None /\ faults w (OpenWrite dst) = None /\
     (is_file (tree w !! dst) = true \/
      (tree w !! dst = None /\ tree w !! dirname dst = Some Dir)) /\
     w' = set_tree (<[dst := File data mtime]> (tree w)) w) \/
  (exists e, o = Raise e /\ src <> dst /\
   exists data mtime,
     tree w !! src = Some (File data mtime) /\
     faults w (OpenRead src) = None /\ faults w (OpenWrite dst) = None /\
     faults w (Copystat dst) = Some e /\
     (is_file (tree w !! dst) = true \/
      (tree w !! dst = None /\ tree w !! dirname dst = Some Dir)) /\
     w' = set_tree (<[dst := File data 0]> (tree w)) w).
Proof.
  intros Hdst. unfold copy2, bind at 1, isdir. rewrite Hdst.
  unfold bind at 1, samefile.
  case_bool_decide as Hsame; [intros [= <- <-]; eauto|].
  intros H.
  apply bind_inv in H as [(w1 & f & H1 & H)|(e & H1 & ->)];
    apply open_read_inv in H1 as [-> H1]; [|eauto].
  destruct (H1 _ eq_refl) as [Hsrc Hr].
  apply bind_inv in H as [(w2 & [] & H2 & H)|(e & H2 & ->)];
    apply open_write_inv in H2 as [-> H2]; [|eauto].
  destruct (H2 eq_refl) as [Hw Hcases].
  assert (src <> dst) as Hne.
  { intros ->. apply Hsame. split; [done|]. by rewrite Hsrc. }
  unfold bind at 1, write_file at 1 in H. unfold bind at 1, ask in H. simpl in H.
  destruct (faults w (Copystat dst)) as [e|] eqn:Hc.
  - injection H as <- <-. right. right. exists e. split_and!; [done..|]. eauto 10.
  - unfold write_file in H. simpl in H. injection H as <- <-. right. left.
    split_and!; [done..|]. destruct f as [data mtime]. exists data, mtime.
    split_and!; [done..|]. unfold set_tree. simpl. by rewrite insert_insert_eq.
Qed.

(* ===================================================================== *)
(** * Removing                                                             *)
(* ===================================================================== *)

Lemma remove_inv p w w' o :
  remove p w = (w', o) ->
  (w' = w /\ exists e, o = Raise e) \/
  (o = Return tt /\ is_file (tree w !! p) = true /\
   faults w (Unlink p) = None /\ w' = set_tree (delete p (tree w)) w).
Proof.
  unfold remove. intros H. repeat case_match; simplify_eq; eauto 10.
Qed.

Lemma rmdir_inv p w w' o :
  rmdir p w = (w', o) ->
  (w' = w /\ exists e, o = Raise e) \/
  (o = Return tt /\ tree w !! p = Some Dir /\ p <> [] /\ listdir w p = [] /\
   faults w (Rmdir p) = None /\ w' = set_tree (delete p (tree w)) w).
Proof.
  unfold rmdir. intros H. repeat case_match; simplify_eq; eauto 10.
Qed.

Lemma shrinks_refl top w : shrinks top w w.
Proof. split_and!; auto. Qed.

Lemma shrinks_trans top w1 w2 w3 :
  shrinks top w1 w2 -> shrinks top w2 w3 -> shrinks top w1 w3.
Proof.
  intros (Hf1 & Hl1 & Hwf1 & H1) (Hf2 & Hl2 & Hwf2 & H2).
  split_and!; [congruence|congruence|auto|].
  intros k. destruct (H2 k) as [E2|[N2 P2]]; [|by right].
  destruct (H1 k) as [E1|[N1 P1]]; [left|right]; split_and?; congruence.
Qed.

Lemma shrinks_mono top top' w w' :
  top `prefix_of` top' -> shrinks top' w w' -> shrinks top w w'.
Proof.
  intros Hpre (Hf & Hl & Hwf & H). split_and!; auto.
  intros k. destruct (H k) as [?|[? ?]]; [by left|right].
  split; [done|]. by etrans.
Qed.

Lemma shrinks_delete_leaf p w :
  p <> [] -> (forall name, tree w !! (p ++ [name]) = None) ->
  shrinks p w (set_tree (delete p (tree w)) w).
Proof.
  intros Hne Hleaf. split_and!; simpl; [done|done| |].
  - intros Hwf. by apply wf_delete_leaf.
  - intros k. destruct (decide (p = k)) as [->|Hk].
    + right. by rewrite lookup_delete_eq.
    + left. by rewrite lookup_delete_ne.
Qed.

Lemma remove_shrinks p w w' o :
  wf (tree w) -> remove p w = (w', o) -> shrinks p w w'.
Proof.
  intros Hwf [[-> _]|(_ & Hfile & _ & ->)]%remove_inv; [apply shrinks_refl|].
  destruct (tree w !! p) as [[data mtime|]|] eqn:Hp; try done.
  apply shrinks_delete_leaf.
  - intros ->. destruct Hwf as [Hroot _]. congruence.
  - intros name. by eapply wf_file_leaf.
Qed.

Lemma rmdir_shrinks p w w' o : rmdir p w = (w', o) -> shrinks p w w'.
Proof.
  intros [[-> _]|(_ & _ & Hne & Hnil & _ & ->)]%rmdir_inv; [apply shrinks_refl|].
  apply shrinks_delete_leaf; [done|]. by apply listdir_nil.
Qed.

Lemma for_shrinks {A} top (l : list A) (body : A -> M unit) :
  (forall x w w' o, x ∈ l -> wf (tree w) -> body x w = (w', o) -> shrinks top w w') ->
  forall w w' o, wf (tree w) -> for_ l body w = (w', o) -> shrinks top w w'.
Proof.
  induction l as [|x l IH]; intros Hbody w w' o Hwf H.
  - simpl in H. unfold ret in H. injection H as <- <-. apply shrinks_refl.
  - simpl in H. apply bind_inv in H as [(w1 & [] & H1 & H2)|(e & H1 & ->)].
    + assert (shrinks top w w1) as Hs by (eapply Hbody; [left|done..]).
      eapply shrinks_trans; [done|].
      eapply IH; [|by apply Hs|done]. intros. eapply Hbody; [by right|done..].
    + eapply Hbody; [left|done..].
Qed.

Lemma rmtree_rec_shrinks fuel top w w' o :
  wf (tree w) -> rmtree_rec fuel top w = (w', o) -> shrinks top w w'.
Proof.
  revert top w w' o. induction fuel as [|fuel IH]; intros top w w' o Hwf; simpl.
  - intros [= <- <-]. apply shrinks_refl.
  - intros H.
    apply bind_inv in H as [(w1 & ents & H1 & H)|(e & H1 & ->)];
      apply scandir_inv in H1 as [-> _]; [|apply shrinks_refl].
    assert (forall w2 o2,
      for_ ents (fun ent : string * node =>
        match ent.2 with
        | Dir => rmtree_rec fuel (join top [ent.1])
        | File _ _ => remove (join top [ent.1])
        end) w = (w2, o2) -> shrinks top w w2) as Hloop.
    { intros w2 o2. apply for_shrinks; [|done].
      intros [name nd] w3 w4 o4 _ Hwf3 Hbody. simpl in Hbody.
      apply (shrinks_mono _ (join top [name])); [apply prefix_of_join_l|].
      destruct nd; [by eapply remove_shrinks|by eapply IH]. }
    apply bind_inv in H as [(w2 & [] & H2 & H)|(e & H2 & ->)]; [|by eapply Hloop].
    eapply shrinks_trans; [by eapply Hloop|by eapply rmdir_shrinks].
Qed.

Lemma rmtree_shrinks top w w' o :
  wf (tree w) -> rmtree top w = (w', o) -> shrinks top w w'.
Proof. intros Hwf. unfold rmtree. by apply rmtree_rec_shrinks. Qed.

(** When [rmtree top] returns, [top] is gone. *)
Lemma rmtree_Return top w w' :
  rmtree top w = (w', Return tt) -> tree w' !! top = None.
Proof.
  unfold rmtree. simpl. intros H.
  apply bind_inv in H as [(w1 & ents & _ & H)|(e & _ & ?)]; [|done].
  apply bind_inv in H as [(w2 & [] & _ & H)|(e & _ & ?)]; [|done].
  apply rmdir_inv in H as [[_ [e ?]]|(_ & _ & _ & _ & _ & ->)]; [done|].
  simpl. by rewrite lookup_delete_eq.
Qed.

(* ===================================================================== *)
(** * Removing a whole directory                                           *)
(* ===================================================================== *)

Lemma prefix_snoc_length (top k : path) (name : string) :
  top ++ [name] `prefix_of` k -> top `prefix_of` k /\ top <> k.
Proof.
  intros [q ->]. split.
  - exists ([name] ++ q). by rewrite app_assoc.
  - intros Heq. apply (f_equal length) in Heq. rewrite !length_app in Heq.
    simpl in Heq. lia.
Qed.

Lemma below_child (top k : path) :
  top `prefix_of` k -> top <> k -> exists name, top ++ [name] `prefix_of` k.
Proof.
  intros [[|x q] ->] Hne; [by rewrite app_nil_r in Hne|].
  exists x, q. by rewrite <- app_assoc.
Qed.

Lemma remove_unlinks p w data mtime :
  wf (tree w) -> tree w !! p = Some (File data mtime) ->
  faults w (Unlink p) = None ->
  exists w', remove p w = (w', Return tt) /\
    faults w' = faults w /\ log w' = log w /\
    forall k, tree w' !! k = if decide (p `prefix_of` k) then None else tree w !! k.
Proof.
  intros Hwf Hp Hf. eexists. unfold remove. rewrite Hp, Hf.
  split_and!; [done..|]. intros k. simpl. case_decide as Hpre.
  - destruct Hpre as [q ->]. destruct (decide (q = [])) as [->|Hq].
    + rewrite app_nil_r. by rewrite lookup_delete_eq.
    + rewrite lookup_delete_ne.
      * by eapply wf_file_leaf.
      * intros Heq. apply Hq. apply (f_equal length) in Heq.
        rewrite length_app in Heq. destruct q; [done|simpl in Heq; lia].
  - rewrite lookup_delete_ne; [done|]. by intros ->.
Qed.

Lemma rmdir_empty p w :
  tree w !! p = Some Dir -> p <> [] -> listdir w p = [] ->
  faults w (Rmdir p) = None ->
  rmdir p w = (set_tree (delete p (tree w)) w, Return tt).
Proof.
  intros Hp Hne Hnil Hf. unfold rmdir. rewrite Hp.
  destruct p as [|x p]; [done|]. by rewrite Hnil, Hf.
Qed.

Section rmtree.
Variable fuel : nat.
Variable top : path.

Local Abbreviation body :=
  (fun ent : string * node =>
     match ent.2 with
     | Dir => rmtree_rec fuel (join top [ent.1])
     | File _ _ => remove (join top [ent.1])
     end).

(** What [rmtree_rec fuel] is assumed to do on the directories below. *)
Hypothesis IH : forall sub w,
  wf (tree w) -> tree w !! sub = Some Dir -> sub <> [] -> deletable w ->
  (forall k, is_Some (tree w !! k) -> sub `prefix_of` k ->
             length k < length sub + fuel) ->
  exists w', rmtree_rec fuel sub w = (w', Return tt) /\
    faults w' = faults w /\ log w' = log w /\
    forall k, tree w' !! k =
              if decide (sub `prefix_of` k) then None else tree w !! k.

Lemma rmtree_loop (l : list (string * node)) w :
  wf (tree w) -> deletable w -> NoDup l.*1 ->
  (forall name nd, (name, nd) ∈ l -> tree w !! (top ++ [name]) = Some nd) ->
  (forall k, is_Some (tree w !! k) -> top `prefix_of` k ->
             length k < length top + S fuel) ->
  exists w', for_ l body w = (w', Return tt) /\
    faults w' = faults w /\ log w' = log w /\ wf (tree w') /\
    forall k, tree w' !! k =
      if decide (Exists (fun ent => top ++ [ent.1] `prefix_of` k) l)
      then None else tree w !! k.
Proof.
  revert w. induction l as [|[name nd] l IHl]; intros w Hwf Hdel Hnd Hl Hdepth.
  - exists w. by split_and!.
  - simpl in Hnd. apply NoDup_cons in Hnd as [Hname Hnd].
    assert (tree w !! (top ++ [name]) = Some nd) as Hchild by (apply Hl; left).
    assert (exists w1, body (name, nd) w = (w1, Return tt) /\
      faults w1 = faults w /\ log w1 = log w /\
      forall k, tree w1 !! k =
        if decide (top ++ [name] `prefix_of` k) then None else tree w !! k)
      as (w1 & Hbody & Hf1 & Hl1 & Ht1).
    { simpl. destruct nd as [data mtime|].
      - apply (remove_unlinks _ _ data mtime); [done..|]. apply Hdel.
      - apply IH; try done.
        + by destruct top.
        + intros k Hk Hpre. rewrite length_app. simpl.
          apply prefix_snoc_length in Hpre as [Hpre _].
          specialize (Hdepth k Hk Hpre). lia. }
    assert (wf (tree w1)) as Hwf1.
    { simpl in Hbody. destruct nd.
      - by eapply remove_shrinks.
      - apply rmtree_rec_shrinks in Hbody as (_ & _ & Hw & _); auto. }
    destruct (IHl w1) as (w2 & Hloop & Hf2 & Hl2 & Hwf2 & Ht2); try done.
    { intros p. rewrite Hf1. apply Hdel. }
    { intros name' nd' Hin. rewrite Ht1. rewrite decide_False.
      - apply Hl. by right.
      - intros Hpre. apply prefix_length_eq in Hpre;
          [|by rewrite !length_app].
        apply app_inj_tail in Hpre as [_ ->]. apply Hname.
        apply list_elem_of_fmap. by exists (name', nd'). }
    { intros k Hk Hpre. apply Hdepth; [|done]. rewrite Ht1 in Hk.
      case_decide; [by destruct Hk|done]. }
    exists w2. split_and!; [|congruence|congruence|done|].
    + simpl. by erewrite bind_Return by done.
    + intros k. rewrite Ht2, Ht1. simpl.
      destruct (decide (top ++ [name] `prefix_of` k)) as [Hpre|Hpre].
      * rewrite (decide_True (P := Exists _ (_ :: _)));
          [by case_decide|by left].
      * destruct (decide (Exists _ l)) as [Hex|Hex].
        -- rewrite decide_True; [done|by right].
        -- rewrite decide_False; [done|].
           by intros [?|?]%Exists_cons.
Qed.

Lemma rmtree_rec_step w :
  wf (tree w) -> tree w !! top = Some Dir -> top <> [] -> deletable w ->
  (forall k, is_Some (tree w !! k) -> top `prefix_of` k ->
             length k < length top + S fuel) ->
  exists w', rmtree_rec (S fuel) top w = (w', Return tt) /\
    faults w' = faults w /\ log w' = log w /\
    forall k, tree w' !! k =
              if decide (top `prefix_of` k) then None else tree w !! k.
Proof.
  intros Hwf Htop Hne Hdel Hdepth. simpl.
  rewrite (bind_Return _ _ _ _ _ (scandir_dir _ _ Htop (proj1 (Hdel top)))).
  destruct (rmtree_loop (listdir w top) w) as (w2 & Hloop & Hf2 & Hl2 & Hwf2 & Ht2);
    try done.
  { apply NoDup_listdir. }
  { intros name nd. apply elem_of_listdir. }
  rewrite (bind_Return _ _ _ _ _ Hloop).
  assert (tree w2 !! top = Some Dir) as Htop2.
  { rewrite Ht2, decide_False; [done|].
    intros Hex. apply Exists_exists in Hex as (ent & _ & Hpre).
    apply prefix_length in Hpre. rewrite length_app in Hpre. simpl in Hpre. lia. }
  assert (forall k, top `prefix_of` k -> top <> k -> tree w2 !! k = None) as Hgone.
  { intros k Hpre Hk. rewrite Ht2. case_decide as Hex; [done|].
    destruct (tree w !! k) as [nd|] eqn:Hlook; [|done]. exfalso. apply Hex.
    destruct (below_child _ _ Hpre Hk) as (name & Hchild).
    assert (is_Some (tree w !! (top ++ [name]))) as [nd' Hnd'].
    { eapply wf_exists_prefix; [done| |done]. by rewrite Hlook. }
    apply Exists_exists. exists (name, nd'). split; [|done].
    by apply elem_of_listdir. }
  assert (listdir w2 top = []) as Hnil.
  { apply listdir_nil. intros name. apply Hgone; [apply prefix_of_join_l|].
    intros Heq. apply (f_equal length) in Heq. rewrite length_app in Heq.
    simpl in Heq. lia. }
  eexists. rewrite rmdir_empty; try done.
  2:{ rewrite Hf2. apply Hdel. }
  split_and!; [done..|]. intros k. simpl.
  destruct (decide (top = k)) as [<-|Hk].
  - rewrite lookup_delete_eq. by rewrite decide_True.
  - rewrite lookup_delete_ne by done. case_decide as Hpre.
    + by apply Hgone.
    + rewrite Ht2, decide_False; [done|].
      intros Hex. apply Exists_exists in Hex as (ent & _ & Hchild).
      apply Hpre. by apply prefix_snoc_length in Hchild as [? _].
Qed.

End rmtree.

(** In a well-formed tree, and when the environment refuses no removal,
    [rmtree_rec] with enough fuel removes the directory with everything
    below it, and nothing else. *)
Lemma rmtree_rec_removes fuel : forall top w,
  wf (tree w) -> tree w !! top = Some Dir -> top <> [] -> deletable w ->
  (forall k, is_Some (tree w !! k) -> top `prefix_of` k ->
             length k < length top + fuel) ->
  exists w', rmtree_rec fuel top w = (w', Return tt) /\
    faults w' = faults w /\ log w' = log w /\
    forall k, tree w' !! k =
              if decide (top `prefix_of` k) then None else tree w !! k.
Proof.
  induction fuel as [|fuel IH]; intros top w Hwf Htop Hne Hdel Hdepth.
  - exfalso. specialize (Hdepth top). rewrite Htop in Hdepth.
    specialize (Hdepth (mk_is_Some _ _ eq_refl) (reflexivity _)). lia.
  - by apply rmtree_rec_step.
Qed.

Lemma rmtree_removes top w :
  wf (tree w) -> tree w !! top = Some Dir -> top <> [] -> deletable w ->
  exists w', rmtree top w = (w', Return tt) /\
    faults w' = faults w /\ log w' = log w /\
    forall k, tree w' !! k =
              if decide (top `prefix_of` k) then None else tree w !! k.
Proof.
  intros Hwf Htop Hne Hdel. unfold rmtree. apply rmtree_rec_removes; try done.
  intros k Hk _. apply depth_bound in Hk. lia.
Qed.

(* ===================================================================== *)
(** * One iteration of the loops                                           *)
(* ===================================================================== *)

Lemma update_entry_unfold self sp :
  update_entry self sp =
  (d <- isdir sp ;;
   if d then
     e <- exists_ (replica_path_of self sp) ;;
     if negb e then
       try_except_PermissionError
         (makedirs (replica_path_of self sp) ;;;
          debug (DirectoryCreated (replica_path_of self sp)))
         (fun e => warning (CouldNotCreateDirectory (replica_path_of self sp) e))
     else ret tt
   else
     e <- exists_ (replica_path_of self sp) ;;
     c <- (if negb e then ret true
           else eq <- files_equal sp (replica_path_of self sp) ;; ret (negb eq)) ;;
     if c then
       try_except_PermissionError
         (copy2 sp (replica_path_of self sp) ;;;
          debug (FileCopied (replica_path_of self sp) sp))
         (fun e => warning (CouldNotCopyFile (replica_path_of self sp) e))
     else ret tt).
Proof. reflexivity. Qed.

Lemma cleanup_entry_unfold self rp :
  cleanup_entry self rp =
  (s <- exists_ (source_path_of self rp) ;;
   r <- exists_ rp ;;
   if negb s && r then
     d <- isdir rp ;;
     if d then
       try_except_PermissionError
         (rmtree rp ;;; debug (DirectoryRemoved rp))
         (fun e => warning (CouldNotRemoveDirectory rp e))
     else
       try_except_PermissionError
         (remove rp ;;; debug (FileRemoved rp))
         (fun e => warning (CouldNotRemoveFile rp e))
   else ret tt).
Proof. reflexivity. Qed.

(** A guarded mutation followed by its log record. *)
Lemma guarded_inv (op : M unit) (ok : message) (ko : exn -> message) w w' o :
  try_except_PermissionError (op ;;; debug ok) (fun e => warning (ko e)) w = (w', o) ->
  (exists w1, op w = (w1, Return tt) /\ w' = emit (DEBUG, ok) w1 /\ o = Return tt) \/
  (exists w1, op w = (w1, Raise PermissionError) /\
              w' = emit (WARNING, ko PermissionError) w1 /\ o = Return tt) \/
  (exists e, op w = (w', Raise e) /\ e <> PermissionError /\ o = Raise e).
Proof.
  unfold try_except_PermissionError, bind, debug, warning.
  destruct (op w) as [w1 [[]|e]]; intros H.
  - left. injection H as <- <-. eauto.
  - destruct (decide (e = PermissionError)) as [->|Hne].
    + right; left. injection H as <- <-. eauto.
    + right; right. exists e. destruct e; try done; injection H as <- <-; eauto.
Qed.

Lemma guarded_Return (op : M unit) ok ko w w1 :
  op w = (w1, Return tt) ->
  try_except_PermissionError (op ;;; debug ok) (fun e => warning (ko e)) w
  = (emit (DEBUG, ok) w1, Return tt).
Proof. intros H. unfold try_except_PermissionError, bind, debug. by rewrite H. Qed.

Lemma guarded_denied (op : M unit) ok ko w w1 :
  op w = (w1, Raise PermissionError) ->
  try_except_PermissionError (op ;;; debug ok) (fun e => warning (ko e)) w
  = (emit (WARNING, ko PermissionError) w1, Return tt).
Proof. intros H. unfold try_except_PermissionError, bind, warning. by rewrite H. Qed.

Lemma guarded_failed (op : M unit) ok ko w w1 e :
  op w = (w1, Raise e) -> e <> PermissionError ->
  try_except_PermissionError (op ;;; debug ok) (fun e => warning (ko e)) w
  = (w1, Raise e).
Proof.
  intros H Hne. unfold try_except_PermissionError, bind. rewrite H. by destruct e.
Qed.

Lemma exists_true {A} p w (k : bool -> M A) :
  is_Some (tree w !! p) ->
  (e <- exists_ p ;; k e) w = k true w.
Proof. intros H. unfold bind, exists_. by rewrite bool_decide_true. Qed.

Lemma exists_false {A} p w (k : bool -> M A) :
  tree w !! p = None ->
  (e <- exists_ p ;; k e) w = k false w.
Proof.
  intros H. unfold bind, exists_. rewrite bool_decide_false; [done|].
  rewrite H. by intros [? ?].
Qed.

Lemma isdir_bind {A} p w (k : bool -> M A) :
  (d <- isdir p ;; k d) w = k (is_dir (tree w !! p)) w.
Proof. done. Qed.

(** An iteration of [update_replica] goes one of the nine ways. *)
Lemma update_entry_case self sp w w' o :
  update_entry self sp w = (w', o) -> update_case self sp w w' o.
Proof.
  rewrite update_entry_unfold, isdir_bind.
  destruct (is_dir (tree w !! sp)) eqn:Hd;
    destruct (tree w !! replica_path_of self sp) as [nd|] eqn:Hrp.
  - rewrite exists_true by (by rewrite Hrp). simpl.
    intros [= <- <-]. apply upd_dir_present; [done|by rewrite Hrp].
  - rewrite exists_false by done. simpl.
    intros [(w1 & H1 & -> & ->)|[(w1 & H1 & -> & ->)|(e & H1 & Hne & ->)]]%guarded_inv.
    + by apply upd_dir_created.
    + by apply upd_dir_denied.
    + by apply upd_dir_failed.
  - rewrite exists_true by (by rewrite Hrp). simpl.
    assert (is_Some (tree w !! replica_path_of self sp)) as Hsome by (by rewrite Hrp).
    destruct (files_equal sp (replica_path_of self sp) w) as [w0 [[]|e]] eqn:Heq.
    + erewrite bind_Return by (by erewrite bind_Return by done).
      simpl. intros [= <- <-]. by eapply upd_file_same.
    + erewrite bind_Return by (by erewrite bind_Return by done). simpl.
      intros [(w1 & H1 & -> & ->)|[(w1 & H1 & -> & ->)|(e & H1 & Hne & ->)]]%guarded_inv.
      * eapply upd_file_copied; eauto.
      * eapply upd_file_denied; eauto.
      * eapply upd_file_failed; eauto.
    + erewrite bind_Raise by (by erewrite bind_Raise by done).
      intros [= <- <-]. by eapply upd_compare_failed.
  - rewrite exists_false by done. simpl.
    rewrite (bind_Return _ _ w w true) by done.
    intros [(w1 & H1 & -> & ->)|[(w1 & H1 & -> & ->)|(e & H1 & Hne & ->)]]%guarded_inv.
    + eapply upd_file_copied; eauto.
    + eapply upd_file_denied; eauto.
    + eapply upd_file_failed; eauto.
Qed.

(** Each of the nine ways is an iteration. *)
Lemma update_case_entry self sp w w' o :
  update_case self sp w w' o -> update_entry self sp w = (w', o).
Proof.
  intros H. rewrite update_entry_unfold, isdir_bind.
  destruct H as [Hd Hrp|w1 Hd Hrp Hop|w1 Hd Hrp Hop|w1 e Hd Hrp Hop Hne
                |w1 e Hd Hrp Heq|w1 Hd Hrp Heq
                |w0 w1 Hd Hrp Hop|w0 w1 Hd Hrp Hop|w0 w1 e Hd Hrp Hop Hne];
    rewrite Hd.
  - by rewrite exists_true.
  - rewrite exists_false by done. by apply guarded_Return.
  - rewrite exists_false by done. by apply guarded_denied.
  - rewrite exists_false by done. by apply guarded_failed.
  - rewrite exists_true by done. simpl.
    by erewrite bind_Raise by (by erewrite bind_Raise by done).
  - rewrite exists_true by done. simpl.
    by erewrite bind_Return by (by erewrite bind_Return by done).
  - destruct Hrp as [[Hrp ->]|[Hrp Heq]].
    + rewrite exists_false by done. simpl.
      rewrite (bind_Return _ _ w w true) by done. by apply guarded_Return.
    + rewrite exists_true by done. simpl.
      erewrite bind_Return by (by erewrite bind_Return by done).
      by apply guarded_Return.
  - destruct Hrp as [[Hrp ->]|[Hrp Heq]].
    + rewrite exists_false by done. simpl.
      rewrite (bind_Return _ _ w w true) by done. by apply guarded_denied.
    + rewrite exists_true by done. simpl.
      erewrite bind_Return by (by erewrite bind_Return by done).
      by apply guarded_denied.
  - destruct Hrp as [[Hrp ->]|[Hrp Heq]].
    + rewrite exists_false by done. simpl.
      rewrite (bind_Return _ _ w w true) by done. by apply guarded_failed.
    + rewrite exists_true by done. simpl.
      erewrite bind_Return by (by erewrite bind_Return by done).
      by apply guarded_failed.
Qed.

(** An iteration of [cleanup_replica] goes one of the seven ways. *)
Lemma cleanup_entry_case self rp w w' o :
  cleanup_entry self rp w = (w', o) -> cleanup_case self rp w w' o.
Proof.
  rewrite cleanup_entry_unfold.
  destruct (tree w !! source_path_of self rp) as [nd|] eqn:Hsp.
  { rewrite exists_true by (by rewrite Hsp).
    unfold bind, exists_, ret. simpl. intros [= <- <-].
    apply cln_kept. left. by rewrite Hsp. }
  rewrite exists_false by done.
  destruct (tree w !! rp) as [nd|] eqn:Hrp.
  2:{ rewrite exists_false by done. simpl. intros [= <- <-].
      apply cln_kept. by right. }
  rewrite exists_true by (by rewrite Hrp). simpl.
  rewrite isdir_bind, Hrp. destruct nd as [data mtime|]; simpl.
  - intros [(w1 & H1 & -> & ->)|[(w1 & H1 & -> & ->)|(e & H1 & Hne & ->)]]%guarded_inv.
    + apply cln_file_removed; [done|by rewrite Hrp|done].
    + apply cln_file_denied; [done|by rewrite Hrp|done].
    + apply cln_file_failed; [done|by rewrite Hrp|done..].
  - intros [(w1 & H1 & -> & ->)|[(w1 & H1 & -> & ->)|(e & H1 & Hne & ->)]]%guarded_inv.
    + apply cln_dir_removed; [done|by rewrite Hrp|done].
    + apply cln_dir_denied; [done|by rewrite Hrp|done].
    + apply cln_dir_failed; [done|by rewrite Hrp|done..].
Qed.

(** Each of the seven ways is an iteration. *)
Lemma cleanup_case_entry self rp w w' o :
  cleanup_case self rp w w' o -> cleanup_entry self rp w = (w', o).
Proof.
  intros H. rewrite cleanup_entry_unfold.
  destruct H as [Hkeep|w1 Hsp Hd Hop|w1 Hsp Hd Hop|w1 e Hsp Hd Hop Hne
                |w1 Hsp Hf Hop|w1 Hsp Hf Hop|w1 e Hsp Hf Hop Hne].
  - destruct (tree w !! source_path_of self rp) as [nd|] eqn:Hsp.
    + rewrite exists_true by (by rewrite Hsp). by unfold bind, exists_, ret.
    + rewrite exists_false by done.
      destruct Hkeep as [[? ?]|Hrp]; [done|]. by rewrite exists_false.
  - destruct (tree w !! rp) as [[]|] eqn:Hrp; try done.
    rewrite exists_false by done. rewrite exists_true by (by rewrite Hrp). simpl.
    rewrite isdir_bind, Hrp. simpl. by apply guarded_Return.
  - destruct (tree w !! rp) as [[]|] eqn:Hrp; try done.
    rewrite exists_false by done. rewrite exists_true by (by rewrite Hrp). simpl.
    rewrite isdir_bind, Hrp. simpl. by apply guarded_denied.
  - destruct (tree w !! rp) as [[]|] eqn:Hrp; try done.
    rewrite exists_false by done. rewrite exists_true by (by rewrite Hrp). simpl.
    rewrite isdir_bind, Hrp. simpl. by apply guarded_failed.
  - destruct (tree w !! rp) as [[]|] eqn:Hrp; try done.
    rewrite exists_false by done. rewrite exists_true by (by rewrite Hrp). simpl.
    rewrite isdir_bind, Hrp. simpl. by apply guarded_Return.
  - destruct (tree w !! rp) as [[]|] eqn:Hrp; try done.
    rewrite exists_false by done. rewrite exists_true by (by rewrite Hrp). simpl.
    rewrite isdir_bind, Hrp. simpl. by apply guarded_denied.
  - destruct (tree w !! rp) as [[]|] eqn:Hrp; try done.
    rewrite exists_false by done. rewrite exists_true by (by rewrite Hrp). simpl.
    rewrite isdir_bind, Hrp. simpl. by apply guarded_failed.
Qed.

(* ===================================================================== *)
(** * The effect of one iteration                                          *)
(* ===================================================================== *)

Lemma log_emit r w : log (emit r w) = log w ++ [r].
Proof. done. Qed.

Lemma warnings_app l1 l2 : warnings (l1 ++ l2) = warnings l1 ++ warnings l2.
Proof. unfold warnings. apply filter_app. Qed.

Lemma update_entry_effect self sp w w' o :
  update_entry self sp w = (w', o) ->
  update_effect sp (replica_path_of self sp) w w' o.
Proof.
  intros H%update_entry_case.
  assert (forall w0,
    (tree w !! replica_path_of self sp = None /\ w0 = w) \/
    (is_Some (tree w !! replica_path_of self sp) /\
     files_equal sp (replica_path_of self sp) w = (w0, Return false)) ->
    w0 = w /\ is_dir (tree w !! replica_path_of self sp) = false /\
    forall data mtime, tree w !! sp = Some (File data mtime) ->
      digest_of (tree w !! replica_path_of self sp) <> Some (MD5.md5 data)) as Hpre.
  { intros w0 [[Hrp ->]|[Hrp Heq]]; [by rewrite Hrp|].
    apply files_equal_inv in Heq as [-> Heq].
    destruct (Heq _ eq_refl) as (dl & ml & dr & mr & Hl & Hr & _ & _ & Hb).
    symmetry in Hb. apply bool_decide_eq_false in Hb.
    rewrite Hr. split_and!; [done..|]. intros data mtime. rewrite Hl.
    intros [= <- <-]. simpl. congruence. }
  assert (forall data mtime mtime',
    is_dir (tree w !! replica_path_of self sp) = false ->
    tree w !! sp = Some (File data mtime) ->
    digest_of (tree w !! replica_path_of self sp) <> Some (MD5.md5 data) ->
    forall k,
      <[replica_path_of self sp := File data mtime']> (tree w) !! k = tree w !! k \/
      (tree w !! k = None /\
       <[replica_path_of self sp := File data mtime']> (tree w) !! k = Some Dir /\
       k `prefix_of` replica_path_of self sp) \/
      (k = replica_path_of self sp /\
       is_dir (tree w !! replica_path_of self sp) = false /\
       is_file (tree w !! sp) = true /\
       (is_file (<[replica_path_of self sp := File data mtime']> (tree w)
                   !! replica_path_of self sp) = true /\
        digest_of (<[replica_path_of self sp := File data mtime']> (tree w)
                     !! replica_path_of self sp) = digest_of (tree w !! sp)) /\
       digest_of (tree w !! replica_path_of self sp) <> digest_of (tree w !! sp)))
    as Hwritten0.
  { intros data mtime mtime' Hnd Hsp Hdiff k.
    destruct (decide (replica_path_of self sp = k)) as [<-|Hk].
    - right; right. rewrite lookup_insert_eq, Hsp. by split_and!.
    - left. by rewrite lookup_insert_ne. }
  destruct H as [Hd Hrp|w1 Hd Hrp Hop|w1 Hd Hrp Hop|w1 e Hd Hrp Hop Hne
                |w1 e Hd Hrp Heq|w1 Hd Hrp Heq
                |w0 w1 Hd Hrp Hop|w0 w1 Hd Hrp Hop|w0 w1 e Hd Hrp Hop Hne].
  - (* the directory is there *)
    split_and!; [done|done|by left|]. exists []. rewrite app_nil_r.
    split_and!; [done|by intros ?? ?%elem_of_nil|]. intros _ _. split; [done|congruence].
  - (* the directory is created *)
    pose proof (makedirs_Return _ _ _ Hop) as Hnew.
    apply makedirs_grows in Hop as (Hf & Hl & Hwf & Ht).
    split_and!; [done|done| |].
    + intros k. destruct (Ht k) as [?|?]; auto.
    + exists [(DEBUG, DirectoryCreated (replica_path_of self sp))]. rewrite log_emit, Hl.
      split_and!; [done| |].
      * intros ?? [=]%list_elem_of_singleton.
      * intros _ _. split; [|congruence]. intros _. simpl. by rewrite Hnew.
  - (* the directory is refused *)
    apply makedirs_grows in Hop as (Hf & Hl & Hwf & Ht).
    split_and!; [done|done| |].
    + intros k. destruct (Ht k) as [?|?]; auto.
    + exists [(WARNING, CouldNotCreateDirectory (replica_path_of self sp) PermissionError)].
      rewrite log_emit, Hl. split_and!; [done| |done].
      intros ?? [=]%list_elem_of_singleton.
  - (* the creation fails *)
    apply makedirs_grows in Hop as (Hf & Hl & Hwf & Ht).
    split_and!; [done|done| |].
    + intros k. destruct (Ht k) as [?|?]; auto.
    + exists []. rewrite app_nil_r. split_and!; [done|by intros ?? ?%elem_of_nil|done].
  - (* the comparison fails *)
    apply files_equal_inv in Heq as [-> _].
    split_and!; [done|done|by left|]. exists []. rewrite app_nil_r.
    split_and!; [done|by intros ?? ?%elem_of_nil|done].
  - (* the files have one digest *)
    apply files_equal_inv in Heq as [-> Heq].
    destruct (Heq _ eq_refl) as (dl & ml & dr & mr & Hl & Hr & _ & _ & Hb).
    symmetry in Hb. apply bool_decide_eq_true in Hb.
    split_and!; [done|done|by left|]. exists []. rewrite app_nil_r.
    split_and!; [done|by intros ?? ?%elem_of_nil|]. intros _ _.
    split; [congruence|]. intros _. rewrite Hl, Hr. simpl. by rewrite Hb.
  - (* the file is copied *)
    destruct (Hpre _ Hrp) as (-> & Hnd & Hdiff).
    apply copy2_inv in Hop; [|done].
    destruct Hop as [[_ [e ?]]
                    |[(_ & Hne & data & mtime & Hsp & _ & _ & Hcases & ->)
                     |(e & ? & _)]]; [done| |done].
    split_and!; [done| | |].
    + intros Hwf. simpl. apply wf_insert_file; [done|].
      destruct Hcases as [?|[? ?]]; auto.
    + intros k. simpl. destruct (decide ((replica_path_of self sp) = k)) as [<-|Hk].
      * right; right. rewrite lookup_insert_eq, Hsp. split_and!; try done.
        simpl. by apply (Hdiff data mtime).
      * left. by rewrite lookup_insert_ne.
    + exists [(DEBUG, FileCopied (replica_path_of self sp) sp)]. split_and!; [done| |].
      * intros ?? [= -> ->]%list_elem_of_singleton. split; [done|].
        rewrite Hsp. simpl. by apply (Hdiff data mtime).
      * intros _ _. split; [congruence|]. intros _. simpl.
        by rewrite lookup_insert_eq, Hsp.
  - (* the copy is refused *)
    destruct (Hpre _ Hrp) as (-> & Hnd & Hdiff).
    apply copy2_inv in Hop; [|done].
    destruct Hop as [[-> _]
                    |[(? & _)
                     |(e & _ & Hne & data & mtime & Hsp & _ & _ & _ & Hcases & ->)]];
      [|done|].
    + split_and!; [done|done|by left|].
      exists [(WARNING, CouldNotCopyFile (replica_path_of self sp) PermissionError)].
      split_and!; [done| |done]. intros ?? [=]%list_elem_of_singleton.
    + split_and!; [done| | |].
      * intros Hwf. simpl. apply wf_insert_file; [done|].
        destruct Hcases as [?|[? ?]]; auto.
      * intros k. simpl. apply (Hwritten0 data mtime 0%Z); [done..|].
        by apply (Hdiff data mtime).
      * exists [(WARNING, CouldNotCopyFile (replica_path_of self sp) PermissionError)].
        split_and!; [done| |done]. intros ?? [=]%list_elem_of_singleton.
  - (* the copy fails *)
    destruct (Hpre _ Hrp) as (-> & Hnd & Hdiff).
    apply copy2_inv in Hop; [|done].
    destruct Hop as [[-> _]
                    |[(? & _)
                     |(e' & _ & Hne' & data & mtime & Hsp & _ & _ & _ & Hcases & ->)]];
      [|done|].
    + split_and!; [done|done|by left|]. exists []. rewrite app_nil_r.
      split_and!; [done|by intros ?? ?%elem_of_nil|done].
    + split_and!; [done| | |].
      * intros Hwf. simpl. apply wf_insert_file; [done|].
        destruct Hcases as [?|[? ?]]; auto.
      * intros k. simpl. apply (Hwritten0 data mtime 0%Z); [done..|].
        by apply (Hdiff data mtime).
      * exists []. rewrite app_nil_r.
        split_and!; [done|by intros ?? ?%elem_of_nil|done].
Qed.

Lemma cleanup_entry_effect self rp w w' o :
  wf (tree w) ->
  cleanup_entry self rp w = (w', o) ->
  cleanup_effect (source_path_of self rp) rp w w' o.
Proof.
  intros Hwf H%cleanup_entry_case.
  destruct H as [Hkeep|w1 Hsp Hd Hop|w1 Hsp Hd Hop|w1 e Hsp Hd Hop Hne
                |w1 Hsp Hf Hop|w1 Hsp Hf Hop|w1 e Hsp Hf Hop Hne].
  - split_and!; [done|done|by left|]. exists []. rewrite app_nil_r.
    split; [done|]. intros _ _ Hsp. destruct Hkeep as [[? ?]|?]; [congruence|done].
  - pose proof (rmtree_Return _ _ _ Hop) as Hgone.
    apply rmtree_shrinks in Hop as (Hfa & Hl & Hwf' & Ht); [|done].
    split_and!; [done|auto| |].
    + intros k. destruct (Ht k) as [?|[? ?]]; auto.
    + exists [(DEBUG, DirectoryRemoved rp)]. rewrite log_emit, Hl. by split.
  - apply rmtree_shrinks in Hop as (Hfa & Hl & Hwf' & Ht); [|done].
    split_and!; [done|auto| |].
    + intros k. destruct (Ht k) as [?|[? ?]]; auto.
    + exists [(WARNING, CouldNotRemoveDirectory rp PermissionError)].
      rewrite log_emit, Hl. by split.
  - apply rmtree_shrinks in Hop as (Hfa & Hl & Hwf' & Ht); [|done].
    split_and!; [done|auto| |].
    + intros k. destruct (Ht k) as [?|[? ?]]; auto.
    + exists []. rewrite app_nil_r. by split.
  - pose proof Hop as Hop'.
    apply remove_shrinks in Hop as (Hfa & Hl & Hwf' & Ht); [|done].
    split_and!; [done|auto| |].
    + intros k. destruct (Ht k) as [?|[? ?]]; auto.
    + exists [(DEBUG, FileRemoved rp)]. rewrite log_emit, Hl. split; [done|].
      intros _ _ _. apply remove_inv in Hop' as [[_ [e ?]]|(_ & _ & _ & ->)]; [done|].
      simpl. by rewrite lookup_delete_eq.
  - apply remove_shrinks in Hop as (Hfa & Hl & Hwf' & Ht); [|done].
    split_and!; [done|auto| |].
    + intros k. destruct (Ht k) as [?|[? ?]]; auto.
    + exists [(WARNING, CouldNotRemoveFile rp PermissionError)].
      rewrite log_emit, Hl. by split.
  - apply remove_shrinks in Hop as (Hfa & Hl & Hwf' & Ht); [|done].
    split_and!; [done|auto| |].
    + intros k. destruct (Ht k) as [?|[? ?]]; auto.
    + exists []. rewrite app_nil_r. by split.
Qed.

(* ===================================================================== *)
(** * The two roots                                                        *)
(* ===================================================================== *)

Lemma replica_path_of_join self (rel : path) :
  rel <> [] -> replica_path_of self (source_dir self ++ rel) = replica_dir self ++ rel.
Proof. intros Hrel. unfold replica_path_of. by rewrite (relpath_join _ _ Hrel). Qed.

Lemma source_path_of_join self (rel : path) :
  rel <> [] -> source_path_of self (replica_dir self ++ rel) = source_dir self ++ rel.
Proof. intros Hrel. unfold source_path_of. by rewrite (relpath_join _ _ Hrel). Qed.

Lemma disjoint_roots_both self (k : path) :
  disjoint_roots self ->
  source_dir self `prefix_of` k -> replica_dir self `prefix_of` k -> False.
Proof.
  intros [H1 H2] Hs Hr. destruct (prefix_weak_total _ _ _ Hs Hr); auto.
Qed.

Lemma disjoint_roots_way self (k rel : path) :
  disjoint_roots self ->
  source_dir self `prefix_of` k -> k `prefix_of` replica_dir self ++ rel -> False.
Proof.
  intros Hdisj Hs Hk.
  destruct (prefix_weak_total k (replica_dir self) (replica_dir self ++ rel))
    as [Hkr|Hrk]; [done|apply prefix_of_join_l|..].
  - destruct Hdisj as [H1 _]. apply H1. by etrans.
  - by eapply disjoint_roots_both.
Qed.

(* ===================================================================== *)
(** * Logs                                                                 *)
(* ===================================================================== *)

Lemma log_grows_refl w : log_grows w w.
Proof. split; [done|]. exists []. by rewrite app_nil_r. Qed.

Lemma log_grows_trans w1 w2 w3 :
  log_grows w1 w2 -> log_grows w2 w3 -> log_grows w1 w3.
Proof.
  intros [Hf1 [l1 H1]] [Hf2 [l2 H2]]. split; [congruence|].
  exists (l1 ++ l2). by rewrite H2, H1, app_assoc.
Qed.

Lemma update_replica_log self items w w' o :
  update_replica self items w = (w', o) -> log_grows w w'.
Proof.
  apply (for_preserves log_grows); [apply log_grows_refl|apply log_grows_trans|].
  intros sp w1 w2 o2 _ (Hf & _ & _ & l & Hl & _)%update_entry_effect.
  split; eauto.
Qed.

Lemma warnings_split (l1 la lb : list (level * message)) :
  warnings (l1 ++ la ++ lb) = warnings l1 -> warnings la = [] /\ warnings lb = [].
Proof.
  rewrite !warnings_app. intros H.
  rewrite <- (app_nil_r (warnings l1)) in H at 2.
  apply app_inv_head in H. by apply app_eq_nil in H.
Qed.

Lemma cleanup_replica_log self items w w' o :
  wf (tree w) ->
  cleanup_replica self items w = (w', o) -> wf (tree w') /\ log_grows w w'.
Proof.
  intros Hwf H. revert Hwf.
  apply (for_preserves (fun w w' => wf (tree w) -> wf (tree w') /\ log_grows w w'))
    with (l := items) (body := cleanup_entry self) (o := o); [| | |done].
  - intros w1 ?. split; [done|apply log_grows_refl].
  - intros w1 w2 w3 H12 H23 Hwf1. destruct (H12 Hwf1) as [Hwf2 Hl12].
    destruct (H23 Hwf2) as [Hwf3 Hl23]. split; [done|]. by eapply log_grows_trans.
  - intros rp w1 w2 o2 _ Hbody Hwf1.
    apply cleanup_entry_effect in Hbody as (Hf & Hwf2 & _ & l & Hl & _); [|done].
    split; [auto|]. split; eauto.
Qed.

(* ===================================================================== *)
(** * What an iteration of [update_replica] keeps                          *)
(* ===================================================================== *)

Lemma is_file_Some o : is_file o = true -> is_Some o.
Proof. by destruct o as [[]|]. Qed.

Section update_step.
Variable self : FileSynchronizer.
Variable w0 : world.
Hypothesis Hdisj : disjoint_roots self.
Variables (rel : path) (w1 w2 : world) (o : outcome unit).
Hypothesis Hkept : source_kept self w0 w1.
Hypothesis Heff :
  update_effect (source_dir self ++ rel) (replica_dir self ++ rel) w1 w2 o.

Lemma update_effect_source_kept : source_kept self w0 w2.
Proof.
  destruct Heff as (_ & _ & Ht & _). intros k Hk. rewrite <- (Hkept k Hk).
  destruct (Ht k) as [?|[(_ & _ & Hway)|(-> & _)]]; [done|..]; exfalso.
  - by eapply disjoint_roots_way.
  - eapply disjoint_roots_both; [done..|apply prefix_of_join_l].
Qed.

Lemma update_effect_mirrored rel' :
  mirrored self w0 w1 rel' -> mirrored self w0 w2 rel'.
Proof.
  destruct Heff as (_ & _ & Ht & _). intros [Hdir Hfile].
  assert (tree w1 !! (source_dir self ++ rel) = tree w0 !! (source_dir self ++ rel))
    as Hsrc by (apply Hkept, prefix_of_join_l).
  destruct (Ht (replica_dir self ++ rel'))
    as [Heq|[(Hnone & Hnew & _)|(Hrel & _ & Hf & Hnew & _)]].
  - split; rewrite Heq; auto.
  - split.
    + intros _. by rewrite Hnew.
    + intros Hf. destruct (Hfile Hf) as [Hf1 _]. by rewrite Hnone in Hf1.
  - apply app_inv_head in Hrel as ->. rewrite Hsrc in *.
    destruct Hnew as [Hnew1 Hnew2]. split.
    + intros _. by apply is_file_Some.
    + done.
Qed.

Lemma update_effect_no_file_for_directory :
  no_file_for_directory self w0 w1 -> no_file_for_directory self w0 w2.
Proof.
  destruct Heff as (_ & _ & Ht & _). intros Hno rel' Hd.
  assert (tree w1 !! (source_dir self ++ rel) = tree w0 !! (source_dir self ++ rel))
    as Hsrc by (apply Hkept, prefix_of_join_l).
  destruct (Ht (replica_dir self ++ rel'))
    as [Heq|[(Hnone & Hnew & _)|(Hrel & _ & Hf & Hnew & _)]].
  - rewrite Heq. by apply Hno.
  - by rewrite Hnew.
  - apply app_inv_head in Hrel as ->. rewrite Hsrc in Hf.
    by destruct (tree w0 !! (source_dir self ++ rel)) as [[]|].
Qed.

Lemma update_effect_establish l :
  o = Return tt -> log w2 = log w1 ++ l -> warnings l = [] ->
  mirrored self w0 w2 rel.
Proof.
  destruct Heff as (_ & _ & _ & l' & Hl' & _ & Hpost). intros Ho Hl Hw.
  assert (l' = l) as -> by (rewrite Hl in Hl'; by apply app_inv_head in Hl').
  destruct (Hpost Ho Hw) as [Hdir Hfile].
  assert (tree w1 !! (source_dir self ++ rel) = tree w0 !! (source_dir self ++ rel))
    as Hsrc by (apply Hkept, prefix_of_join_l).
  rewrite Hsrc in *. split; [done|]. intros Hf. apply Hfile.
  by destruct (tree w0 !! (source_dir self ++ rel)) as [[]|].
Qed.

End update_step.

(** The loop of [update_replica], when it ends well and logs no warning:
    the source is as it was, and every item has its counterpart. *)
Lemma update_replica_loop self w0 :
  disjoint_roots self ->
  forall items w1 w2,
    Forall (below (source_dir self)) items ->
    source_kept self w0 w1 -> wf (tree w1) ->
    update_replica self items w1 = (w2, Return tt) ->
    warnings (log w2) = warnings (log w1) ->
    source_kept self w0 w2 /\ wf (tree w2) /\
    (forall rel, mirrored self w0 w1 rel -> mirrored self w0 w2 rel) /\
    (no_file_for_directory self w0 w1 -> no_file_for_directory self w0 w2) /\
    (forall rel, rel <> [] -> source_dir self ++ rel ∈ items ->
                 mirrored self w0 w2 rel).
Proof.
  intros Hdisj. induction items as [|sp items IH]; intros w1 w2 Hbelow Hkept Hwf H Hwarn.
  - injection H as <-. split_and!; try done. by intros ?? ?%elem_of_nil.
  - apply Forall_cons in Hbelow as [(rel & Hrel & ->) Hbelow].
    unfold update_replica in H. simpl in H.
    apply bind_inv in H as [(wa & [] & Ha & Hb)|(e & _ & ?)]; [|done].
    pose proof Ha as Heff. apply update_entry_effect in Heff.
    rewrite (replica_path_of_join _ _ Hrel) in Heff.
    pose proof Heff as (Hfa & Hwfa & _ & la & Hla & _).
    pose proof (update_replica_log _ _ _ _ _ Hb) as [_ [lb Hlb]].
    assert (warnings la = [] /\ warnings lb = []) as [Hwa Hwb].
    { apply (warnings_split (log w1)). rewrite app_assoc, <- Hla, <- Hlb. done. }
    destruct (IH wa w2) as (Hk2 & Hwf2 & Hm2 & Hn2 & He2); try done.
    { exact (update_effect_source_kept self w0 Hdisj rel w1 wa _ Hkept Heff). }
    { by apply Hwfa. }
    { rewrite Hlb, warnings_app, Hwb. by rewrite app_nil_r. }
    split_and!; try done.
    + intros rel' Hm. apply Hm2.
      exact (update_effect_mirrored self w0 rel w1 wa _ Hkept Heff rel' Hm).
    + intros Hno. apply Hn2.
      exact (update_effect_no_file_for_directory self w0 rel w1 wa _ Hkept Heff Hno).
    + intros rel' Hrel' [Heq|Hin]%elem_of_cons.
      * apply app_inv_head in Heq as ->. apply Hm2.
        exact (update_effect_establish self w0 rel w1 wa _ Hkept Heff la eq_refl Hla Hwa).
      * by apply He2.
Qed.

(* ===================================================================== *)
(** * What an iteration of [cleanup_replica] keeps                         *)
(* ===================================================================== *)

Lemma cleanup_effect_source_kept self w0 rel w1 w2 o :
  disjoint_roots self ->
  source_kept self w0 w1 ->
  cleanup_effect (source_dir self ++ rel) (replica_dir self ++ rel) w1 w2 o ->
  source_kept self w0 w2.
Proof.
  intros Hdisj Hkept (_ & _ & Ht & _) k Hk. rewrite <- (Hkept k Hk).
  destruct (Ht k) as [?|(_ & Hpre & _)]; [done|]. exfalso.
  eapply disjoint_roots_both; [done..|].
  etrans; [|done]. apply prefix_of_join_l.
Qed.

(** The loop of [cleanup_replica], when it ends well and logs no warning:
    the source is as it was, nothing is added, what is removed lies at or
    below an item that is not in the source, and every such item is gone. *)
Lemma cleanup_replica_loop self w0 :
  disjoint_roots self ->
  forall items w1 w2,
    Forall (below (replica_dir self)) items ->
    source_kept self w0 w1 -> wf (tree w1) ->
    cleanup_replica self items w1 = (w2, Return tt) ->
    warnings (log w2) = warnings (log w1) ->
    source_kept self w0 w2 /\ wf (tree w2) /\
    (forall k, tree w2 !! k = tree w1 !! k \/
       (tree w2 !! k = None /\
        exists rel, rel <> [] /\ replica_dir self ++ rel `prefix_of` k /\
                    tree w0 !! (source_dir self ++ rel) = None)) /\
    (forall rel, rel <> [] -> replica_dir self ++ rel ∈ items ->
       tree w0 !! (source_dir self ++ rel) = None ->
       tree w2 !! (replica_dir self ++ rel) = None).
Proof.
  intros Hdisj. induction items as [|rp items IH]; intros w1 w2 Hbelow Hkept Hwf H Hwarn.
  - injection H as <-. split_and!; try done; [by left|by intros ?? ?%elem_of_nil].
  - apply Forall_cons in Hbelow as [(rel & Hrel & ->) Hbelow].
    unfold cleanup_replica in H. simpl in H.
    apply bind_inv in H as [(wa & [] & Ha & Hb)|(e & _ & ?)]; [|done].
    pose proof Ha as Heff. apply cleanup_entry_effect in Heff; [|done].
    rewrite (source_path_of_join _ _ Hrel) in Heff.
    pose proof Heff as (Hfa & Hwfa & Hta & la & Hla & Hpost).
    specialize (Hwfa Hwf).
    pose proof (cleanup_replica_log _ _ _ _ _ Hwfa Hb) as [_ [_ [lb Hlb]]].
    assert (warnings la = [] /\ warnings lb = []) as [Hwa Hwb].
    { apply (warnings_split (log w1)). rewrite app_assoc, <- Hla, <- Hlb. done. }
    assert (tree w1 !! (source_dir self ++ rel) = tree w0 !! (source_dir self ++ rel))
      as Hsrc by (apply Hkept, prefix_of_join_l).
    destruct (IH wa w2) as (Hk2 & Hwf2 & Ht2 & Hg2); try done.
    { by eapply cleanup_effect_source_kept. }
    { rewrite Hlb, warnings_app, Hwb. by rewrite app_nil_r. }
    split_and!; try done.
    + intros k. destruct (Ht2 k) as [Heq|?]; [|by right]. rewrite Heq.
      destruct (Hta k) as [?|(Hnone & Hpre & Hsp)]; [by left|right].
      split; [congruence|]. exists rel. split_and!; [done..|congruence].
    + intros rel' Hrel' [Heq|Hin]%elem_of_cons Hsp; [|by apply Hg2].
      apply app_inv_head in Heq as ->.
      destruct (Ht2 (replica_dir self ++ rel)) as [Heq|[? _]]; [|done].
      rewrite Heq. apply Hpost; [done..|congruence].
Qed.

(* ===================================================================== *)
(** * One pass                                                             *)
(* ===================================================================== *)

Lemma fetch_files_and_dirs_Return directory w :
  exists items, fetch_files_and_dirs directory w = (w, Return items).
Proof. by eexists. Qed.

Lemma update_replica_wf self items w w' o :
  update_replica self items w = (w', o) -> wf (tree w) -> wf (tree w').
Proof.
  apply (for_preserves (fun w w' => wf (tree w) -> wf (tree w'))); [auto|auto|].
  by intros sp w1 w2 o2 _ (_ & Hwf & _)%update_entry_effect.
Qed.

Lemma synchronize_directories_inv self w w' o :
  synchronize_directories self w = (w', o) ->
  exists items_to_sync w1 o1,
    fetch_files_and_dirs (source_dir self) w = (w, Return items_to_sync) /\
    update_replica self items_to_sync w = (w1, o1) /\
    ((exists e, o1 = Raise e /\ w' = w1 /\ o = o1) \/
     (o1 = Return tt /\
      exists items_to_verify,
        fetch_files_and_dirs (replica_dir self) w1 = (w1, Return items_to_verify) /\
        cleanup_replica self items_to_verify w1 = (w', o))).
Proof.
  unfold synchronize_directories.
  destruct (fetch_files_and_dirs_Return (source_dir self) w) as [items Hf].
  rewrite (bind_Return _ _ _ _ _ Hf). intros H. exists items.
  destruct (update_replica self items w) as [w1 [[]|e]] eqn:Hu.
  - rewrite (bind_Return _ _ _ _ _ Hu) in H.
    destruct (fetch_files_and_dirs_Return (replica_dir self) w1) as [items' Hf'].
    rewrite (bind_Return _ _ _ _ _ Hf') in H.
    exists w1, (Return tt). split_and!; [done..|]. right. eauto.
  - rewrite (bind_Raise _ _ _ _ _ Hu) in H. apply pair_equal_spec in H as [<- <-].
    exists w1, (Raise e). split_and!; [done..|]. left. eauto.
Qed.

(** What a pass that ends well and logs no warning leaves; the entries
    it deals with are those its enumerations reach. *)
Lemma pass_summary self w w' :
  wf (tree w) -> disjoint_roots self ->
  synchronize_directories self w = (w', Return tt) ->
  warnings (log w') = warnings (log w) ->
  source_kept self w w' /\ wf (tree w') /\ faults w' = faults w /\
  (forall rel, rel <> [] -> is_Some (tree w !! (source_dir self ++ rel)) ->
               listable_to w (source_dir self) (source_dir self ++ rel) ->
               mirrored self w w' rel) /\
  (forall rel, rel <> [] -> tree w !! (source_dir self ++ rel) = None ->
               listable_to w (replica_dir self) (replica_dir self ++ rel) ->
               tree w' !! (replica_dir self ++ rel) = None) /\
  (no_file_for_directory self w w -> no_file_for_directory self w w').
Proof.
  intros Hwf Hdisj H Hwarn.
  apply synchronize_directories_inv in H
    as (items_s & w1 & o1 & Hfs & Hu & [(e & -> & _ & ?)|(-> & items_r & Hfr & Hc)]);
    [done|].
  apply fetch_files_and_dirs_inv in Hfs as (_ & its & Heq & Hsound_s & Hcomplete_s).
  injection Heq as <-.
  apply fetch_files_and_dirs_inv in Hfr as (_ & its & Heq & Hsound_r & Hcomplete_r).
  injection Heq as <-.
  pose proof (update_replica_log _ _ _ _ _ Hu) as [Hf1 [la Hla]].
  assert (source_kept self w w) as Hkept0 by (by intros ??).
  pose proof (update_replica_wf _ _ _ _ _ Hu Hwf) as Hwf1'.
  assert (warnings la = [] /\
          warnings (log w') = warnings (log w1)) as [Hwa Hwb].
  { destruct (cleanup_replica_log self items_r w1 w' (Return tt)) as [_ [_ [lb Hlb]]];
      [done..|].
    destruct (warnings_split (log w) la lb) as [? Hlb'].
    { by rewrite app_assoc, <- Hla, <- Hlb. }
    split; [done|]. by rewrite Hlb, warnings_app, Hlb', app_nil_r. }
  destruct (update_replica_loop self w Hdisj items_s w w1)
    as (Hk1 & Hwf1 & _ & Hno1 & Hm1); try done.
  { apply Forall_forall. intros p Hp. by destruct (Hsound_s p Hp) as (? & ? & _). }
  { by rewrite Hla, warnings_app, Hwa, app_nil_r. }
  destruct (cleanup_replica_loop self w Hdisj items_r w1 w')
    as (Hk2 & Hwf2 & Ht2 & Hg2); try done.
  { apply Forall_forall. intros p Hp. by destruct (Hsound_r p Hp) as (? & ? & _). }
  assert (faults w' = faults w) as Hf2.
  { destruct (cleanup_replica_log _ _ _ _ _ Hwf1 Hc) as [_ [? _]]. congruence. }
  assert (forall rel, is_Some (tree w !! (source_dir self ++ rel)) ->
            tree w' !! (replica_dir self ++ rel) = tree w1 !! (replica_dir self ++ rel))
    as Hstay.
  { intros rel Hsome.
    destruct (Ht2 (replica_dir self ++ rel)) as [?|(_ & rel' & _ & Hpre & Hnone)]; [done|].
    exfalso. apply prefix_app_inv in Hpre.
    assert (is_Some (tree w !! (source_dir self ++ rel'))) as [? ?]; [|congruence].
    eapply wf_exists_prefix; [done..|]. by apply prefix_app. }
  split_and!; try done.
  - intros rel Hrel Hsome Hlist.
    destruct (Hm1 rel Hrel) as [Hd Hf].
    { apply Hcomplete_s; try done. by exists rel. }
    unfold mirrored. by rewrite (Hstay rel Hsome).
  - intros rel Hrel Hnone Hlist.
    destruct (tree w1 !! (replica_dir self ++ rel)) as [nd|] eqn:Hrp.
    + apply Hg2; [done| |done].
      apply Hcomplete_r;
        [done|by exists rel|by rewrite Hrp|by apply (listable_to_faults w)].
    + destruct (Ht2 (replica_dir self ++ rel)) as [?|[? _]]; congruence.
  - intros Hno rel Hd. specialize (Hno1 Hno rel Hd).
    destruct (Ht2 (replica_dir self ++ rel)) as [Heq|[Heq _]]; by rewrite Heq.
Qed.

(* ===================================================================== *)
(** * Hypotheses that can be computed                                      *)
(* ===================================================================== *)

Lemma wf_check_sound (t : gmap path node) : wf_check t = true -> wf t.
Proof.
  unfold wf_check. intros [Hroot Hall]%andb_prop.
  apply bool_decide_eq_true in Hroot. split; [done|].
  intros p name [nd Hk]. rewrite forallb_forall in Hall.
  specialize (Hall (p ++ [name], nd)). simpl in Hall.
  rewrite dirname_app in Hall.
  destruct (p ++ [name]) eqn:Hpn; [by destruct p|].
  eapply bool_decide_eq_true_1, Hall.
  apply list_elem_of_In. by apply elem_of_map_to_list.
Qed.

Lemma no_file_for_directory_check_sound self w :
  no_file_for_directory_check self w = true -> no_file_for_directory self w w.
Proof.
  unfold no_file_for_directory_check. rewrite forallb_forall.
  intros Hall rel Hd.
  destruct (tree w !! (source_dir self ++ rel)) as [[]|] eqn:Hsp; try done.
  specialize (Hall (source_dir self ++ rel, Dir)). simpl in Hall.
  rewrite bool_decide_true in Hall by apply prefix_of_join_l.
  rewrite drop_app_length in Hall. apply negb_true_iff. apply Hall.
  apply list_elem_of_In. by apply elem_of_map_to_list.
Qed.

Lemma listable_no_faults t l : listable (World t no_faults l).
Proof. by intros p. Qed.

Lemma fs_example_disjoint : disjoint_roots fs_example.
Proof. split; intros [k Hk]; discriminate. Qed.

Lemma fs_example_logfile_apart : logfile_apart fs_example.
Proof. split; intros [k Hk]; discriminate. Qed.

Lemma refuses_nothing_no_faults t l : refuses_nothing (World t no_faults l).
Proof. by intros c. Qed.

Lemma refuses_nothing_listable w : refuses_nothing w -> listable w.
Proof. intros H p. apply H. Qed.

Lemma refuses_nothing_deletable w : refuses_nothing w -> deletable w.
Proof. intros H p. split_and!; apply H. Qed.

Lemma refuses_nothing_faults w w' :
  faults w' = faults w -> refuses_nothing w -> refuses_nothing w'.
Proof. intros Hf H c. rewrite Hf. apply H. Qed.

(* ===================================================================== *)
(** * Convergence                                                          *)
(* ===================================================================== *)

(** C1 (as amended).  Take a well-formed tree, roots that do not contain
    one another, a log file that lies under neither root, an environment
    that refuses nothing, and no directory of the source whose replica
    counterpart is a regular file.  After a pass of
    [synchronize_directories] that raises nothing and logs no warning,
    every relative path has the same kind (file, directory, or absent)
    under the replica as under the source, and every replica file has the
    MD5 digest of the source file at that relative path. *)
Theorem convergence self w w' :
  wf (tree w) -> disjoint_roots self -> logfile_apart self ->
  refuses_nothing w ->
  no_file_for_directory self w w ->
  synchronize_directories self w = (w', Return tt) ->
  warnings (log w') = warnings (log w) ->
  forall rel, rel <> [] ->
    kind_of (tree w' !! (replica_dir self ++ rel))
    = kind_of (tree w' !! (source_dir self ++ rel)) /\
    digest_of (tree w' !! (replica_dir self ++ rel))
    = digest_of (tree w' !! (source_dir self ++ rel)).
Proof.
  intros Hwf Hdisj _ Hlist%refuses_nothing_listable Hno Hpass Hwarn rel Hrel.
  destruct (pass_summary self w w') as (Hkept & Hwf' & _ & Hm & Hgone & Hno');
    try done.
  rewrite (Hkept (source_dir self ++ rel)) by apply prefix_of_join_l.
  specialize (Hno' Hno).
  destruct (tree w !! (source_dir self ++ rel)) as [[data mtime|]|] eqn:Hsp.
  - destruct (Hm rel Hrel) as [_ Hf];
      [by rewrite Hsp|by apply listable_listable_to|].
    rewrite Hsp in Hf. destruct (Hf eq_refl) as [Hfile Hdig].
    split; [|done].
    by destruct (tree w' !! (replica_dir self ++ rel)) as [[]|].
  - destruct (Hm rel Hrel) as [Hd _];
      [by rewrite Hsp|by apply listable_listable_to|].
    rewrite Hsp in Hd. specialize (Hd eq_refl).
    specialize (Hno' rel). rewrite Hsp in Hno'. specialize (Hno' eq_refl).
    destruct (tree w' !! (replica_dir self ++ rel)) as [[]|]; try done;
      by destruct Hd.
  - rewrite (Hgone rel Hrel Hsp); [done|by apply listable_listable_to].
Qed.

(** Convergence at work on the scenarios of the specification. *)
Lemma convergence_witness :
  kind_of (tree (synchronize_directories fs_example world_scenarios).1
             !! (replica_dir fs_example ++ ["b.txt"]))
  = kind_of (tree (synchronize_directories fs_example world_scenarios).1
               !! (source_dir fs_example ++ ["b.txt"])) /\
  digest_of (tree (synchronize_directories fs_example world_scenarios).1
               !! (replica_dir fs_example ++ ["b.txt"]))
  = digest_of (tree (synchronize_directories fs_example world_scenarios).1
                 !! (source_dir fs_example ++ ["b.txt"])).
Proof.
  apply (convergence fs_example world_scenarios).
  - apply wf_check_sound. vm_compute. reflexivity.
  - apply fs_example_disjoint.
  - apply fs_example_logfile_apart.
  - apply refuses_nothing_no_faults.
  - apply no_file_for_directory_check_sound. vm_compute. reflexivity.
  - vm_compute. reflexivity.
  - vm_compute. reflexivity.
  - discriminate.
Defined.

(** C1 fails as stated: an empty directory [d] of the source and a
    regular file [d] of the replica.  The pass raises nothing, logs
    nothing and changes nothing, and [d] is still a file in the replica. *)
Lemma convergence_counterexample :
  wf (tree world_dir_vs_file) /\ disjoint_roots fs_example /\
  logfile_apart fs_example /\ refuses_nothing world_dir_vs_file /\
  listable world_dir_vs_file /\
  synchronize_directories fs_example world_dir_vs_file
  = (world_dir_vs_file, Return tt) /\
  kind_of (tree world_dir_vs_file !! (source_dir fs_example ++ ["d"]))
  = Some Directory /\
  kind_of (tree world_dir_vs_file !! (replica_dir fs_example ++ ["d"]))
  = Some RegularFile.
Proof.
  split_and!.
  - apply wf_check_sound. vm_compute. reflexivity.
  - apply fs_example_disjoint.
  - apply fs_example_logfile_apart.
  - apply refuses_nothing_no_faults.
  - apply listable_no_faults.
  - vm_compute. reflexivity.
  - vm_compute. reflexivity.
  - vm_compute. reflexivity.
Qed.

(* ===================================================================== *)
(** * Idempotence                                                          *)
(* ===================================================================== *)

(** A loop whose iterations all leave the world as it is. *)
Lemma for_fixed {A} (l : list A) (body : A -> M unit) w (calm : Prop) :
  (forall x, x ∈ l -> exists o, body x w = (w, o) /\ (calm -> o = Return tt)) ->
  exists o, for_ l body w = (w, o) /\ (calm -> o = Return tt).
Proof.
  induction l as [|x l IH]; intros Hbody.
  - by exists (Return tt).
  - destruct (Hbody x) as (o & Hx & Hq); [left|].
    destruct IH as (o' & Hl & Hq'). { intros y Hy. apply Hbody. by right. }
    simpl. destruct o as [[]|e].
    + exists o'. by rewrite (bind_Return _ _ _ _ _ Hx).
    + exists (Raise e). by rewrite (bind_Raise _ _ _ _ _ Hx).
Qed.

(** Two files with one digest compare equal, unless reading fails. *)
Lemma files_equal_same_digest l r w :
  is_file (tree w !! l) = true -> is_file (tree w !! r) = true ->
  digest_of (tree w !! r) = digest_of (tree w !! l) ->
  exists o, files_equal l r w = (w, o) /\
    (o = Return true \/ exists e, o = Raise e) /\
    ((forall p, faults w (OpenRead p) = None) -> o = Return true).
Proof.
  intros Hl Hr Hdig.
  destruct (tree w !! l) as [[dl ml|]|] eqn:El; try done.
  destruct (tree w !! r) as [[dr mr|]|] eqn:Er; try done.
  assert (MD5.md5 dl = MD5.md5 dr) as Hdig' by (simpl in Hdig; congruence).
  clear Hdig.
  destruct (faults w (OpenRead l)) as [e|] eqn:Fl.
  { exists (Raise e). split_and!; [|eauto|intros Hq; by rewrite Hq in Fl].
    unfold files_equal, bind, generate_md5, bind, open_read. by rewrite El, Fl. }
  destruct (faults w (OpenRead r)) as [e|] eqn:Fr.
  { exists (Raise e). split_and!; [|eauto|intros Hq; by rewrite Hq in Fr].
    unfold files_equal.
    erewrite bind_Return by (eapply generate_md5_file; eauto using chunk_size_pos).
    unfold bind, generate_md5, bind, open_read. by rewrite Er, Fr. }
  exists (Return true). split_and!; [|auto..].
  rewrite (files_equal_files _ _ _ _ _ _ _ El Er Fl Fr).
  by rewrite (bool_decide_true _ Hdig').
Qed.

(** After a pass that raised nothing and logged no warning, a second pass
    finds every entry in place: it leaves the world as it is, and ends
    well when no file is refused for reading. *)
Lemma second_pass_idle self w w' :
  wf (tree w) -> disjoint_roots self ->
  synchronize_directories self w = (w', Return tt) ->
  warnings (log w') = warnings (log w) ->
  exists o, synchronize_directories self w' = (w', o) /\
            ((forall p, faults w (OpenRead p) = None) -> o = Return tt).
Proof.
  intros Hwf Hdisj Hpass Hwarn.
  destruct (pass_summary self w w') as (Hkept & Hwf' & Hf' & Hm & Hgone & _);
    try done.
  unfold synchronize_directories.
  destruct (fetch_files_and_dirs_Return (source_dir self) w') as [items_s Hfs].
  rewrite (bind_Return _ _ _ _ _ Hfs).
  apply fetch_files_and_dirs_inv in Hfs as (_ & its & Heq & Hsound_s & _).
  injection Heq as <-.
  destruct (for_fixed items_s (update_entry self) w'
              (forall p, faults w (OpenRead p) = None)) as (o1 & Hu & Hq1).
  { intros sp Hsp. destruct (Hsound_s sp Hsp) as ((rel & Hrel & ->) & Hsome & Hlist).
    apply (listable_to_faults w' w) in Hlist; [|done].
    assert (tree w' !! (source_dir self ++ rel) = tree w !! (source_dir self ++ rel))
      as Hsrc by (apply Hkept, prefix_of_join_l).
    rewrite Hsrc in Hsome. destruct (Hm rel Hrel Hsome Hlist) as [Hd Hfile].
    destruct (tree w !! (source_dir self ++ rel)) as [[data mtime|]|] eqn:Hsp0.
    - destruct (Hfile eq_refl) as [Hrf Hdig].
      destruct (files_equal_same_digest (source_dir self ++ rel)
                  (replica_dir self ++ rel) w') as (o & Heq & Ho & Hq).
      { by rewrite Hsrc. } { done. } { by rewrite Hsrc. }
      rewrite <- (replica_path_of_join _ _ Hrel) in Heq, Hrf.
      destruct Ho as [->|[e ->]].
      + exists (Return tt). split; [|done]. apply update_case_entry.
        eapply upd_file_same; [by rewrite Hsrc|by apply is_file_Some|done].
      + exists (Raise e). split.
        * apply update_case_entry.
          eapply upd_compare_failed; [by rewrite Hsrc|by apply is_file_Some|done].
        * intros Hq'. rewrite <- Hf' in Hq'. by specialize (Hq Hq').
    - exists (Return tt). split; [|done]. apply update_case_entry.
      apply upd_dir_present; [by rewrite Hsrc|].
      rewrite (replica_path_of_join _ _ Hrel). by apply Hd.
    - by destruct Hsome. }
  fold (update_replica self items_s) in Hu.
  destruct o1 as [[]|e].
  2:{ exists (Raise e). by rewrite (bind_Raise _ _ _ _ _ Hu). }
  rewrite (bind_Return _ _ _ _ _ Hu).
  destruct (fetch_files_and_dirs_Return (replica_dir self) w') as [items_r Hfr].
  rewrite (bind_Return _ _ _ _ _ Hfr).
  apply fetch_files_and_dirs_inv in Hfr as (_ & its & Heq & Hsound_r & _).
  injection Heq as <-.
  destruct (for_fixed items_r (cleanup_entry self) w' True) as (o2 & Hc & Hq2).
  { intros rp Hrp. destruct (Hsound_r rp Hrp) as ((rel & Hrel & ->) & Hsome & Hlist).
    apply (listable_to_faults w' w) in Hlist; [|done].
    exists (Return tt). split; [|done]. apply cleanup_case_entry, cln_kept. left.
    rewrite (source_path_of_join _ _ Hrel).
    rewrite (Hkept (source_dir self ++ rel)) by apply prefix_of_join_l.
    destruct (tree w !! (source_dir self ++ rel)) eqn:Hsp; [done|].
    rewrite (Hgone rel Hrel Hsp Hlist) in Hsome. by destruct Hsome. }
  fold (cleanup_replica self items_r) in Hc.
  exists o2. split; auto.
Qed.

(** C6 (as amended).  Take a well-formed tree, roots that do not contain
    one another, a log file that lies under neither root, and an
    environment that refuses nothing.  After a pass that raised nothing
    and logged no warning, a second pass ends well and leaves the world
    exactly as the first left it: the same tree (no directory created, no
    file copied, nothing removed) and the same log (no record of a
    mutation). *)
Theorem idempotence self w w' :
  wf (tree w) -> disjoint_roots self -> logfile_apart self ->
  refuses_nothing w ->
  synchronize_directories self w = (w', Return tt) ->
  warnings (log w') = warnings (log w) ->
  synchronize_directories self w' = (w', Return tt).
Proof.
  intros Hwf Hdisj _ Hcalm Hpass Hwarn.
  destruct (second_pass_idle self w w') as (o & Hsecond & Ho); [done..|].
  rewrite Hsecond, Ho; [done|]. intros p. apply Hcalm.
Qed.

(** The second pass over the scenarios of the specification. *)
Lemma idempotence_witness :
  synchronize_directories fs_example
    (synchronize_directories fs_example world_scenarios).1
  = ((synchronize_directories fs_example world_scenarios).1, Return tt).
Proof.
  apply (idempotence fs_example world_scenarios).
  - apply wf_check_sound. vm_compute. reflexivity.
  - apply fs_example_disjoint.
  - apply fs_example_logfile_apart.
  - apply refuses_nothing_no_faults.
  - vm_compute. reflexivity.
  - vm_compute. reflexivity.
Defined.

(** C6 fails as stated: with the replica root [/data/backup] in the
    source [/data], the first pass ends well and logs no warning, and the
    second pass, with nothing changed in between, creates a directory and
    copies a file again. *)
Lemma idempotence_counterexample :
  wf (tree world_replica_in_source) /\
  refuses_nothing world_replica_in_source /\
  logfile_apart fs_replica_in_source /\
  (synchronize_directories fs_replica_in_source world_replica_in_source).2
  = Return tt /\
  warnings (log (synchronize_directories fs_replica_in_source
                   world_replica_in_source).1) = [] /\
  (synchronize_directories fs_replica_in_source
     (synchronize_directories fs_replica_in_source world_replica_in_source).1).2
  = Return tt /\
  tree (synchronize_directories fs_replica_in_source world_replica_in_source).1
    !! ["data"; "backup"; "backup"; "a.txt"] = None /\
  tree (synchronize_directories fs_replica_in_source
          (synchronize_directories fs_replica_in_source
             world_replica_in_source).1).1
    !! ["data"; "backup"; "backup"; "a.txt"]
  = Some (File (bytes "hello") 1).
Proof.
  split_and!.
  - apply wf_check_sound. vm_compute. reflexivity.
  - apply refuses_nothing_no_faults.
  - split; intros [k Hk]; discriminate.
  - vm_compute. reflexivity.
  - vm_compute. reflexivity.
  - vm_compute. reflexivity.
  - vm_compute. reflexivity.
  - vm_compute. reflexivity.
Qed.

(* ===================================================================== *)
(** * The equality test                                                    *)
(* ===================================================================== *)

(** C2 (as amended).  On two existing regular files that can be read,
    [files_equal] changes nothing and returns whether the MD5 digests of
    their contents are equal: it returns true when the contents are
    byte-identical, and the contents differ when it returns false. *)
Theorem files_equal_digest l r w dl ml dr mr :
  tree w !! l = Some (File dl ml) -> tree w !! r = Some (File dr mr) ->
  faults w (OpenRead l) = None -> faults w (OpenRead r) = None ->
  files_equal l r w = (w, Return (bool_decide (MD5.md5 dl = MD5.md5 dr))) /\
  (dl = dr -> files_equal l r w = (w, Return true)) /\
  (files_equal l r w = (w, Return false) -> dl <> dr).
Proof.
  intros Hl Hr Fl Fr.
  pose proof (files_equal_files _ _ _ _ _ _ _ Hl Hr Fl Fr) as Heq.
  split_and!; [done| |].
  - intros ->. by rewrite Heq, bool_decide_true.
  - rewrite Heq. intros H Hd. subst dr. by rewrite bool_decide_true in H.
Qed.

(** The stale copy of the scenarios is found different. *)
Lemma files_equal_digest_witness :
  files_equal ["src"; "b.txt"] ["rep"; "b.txt"] world_scenarios
  = (world_scenarios, Return false) /\ bytes "world" <> bytes "hello".
Proof.
  destruct (files_equal_digest ["src"; "b.txt"] ["rep"; "b.txt"] world_scenarios
              (bytes "world") 2 (bytes "hello") 1) as (Heq & _ & Hne).
  - vm_compute. reflexivity.
  - vm_compute. reflexivity.
  - reflexivity.
  - reflexivity.
  - assert (files_equal ["src"; "b.txt"] ["rep"; "b.txt"] world_scenarios
            = (world_scenarios, Return false)) as H by (vm_compute; reflexivity).
    split; [exact H|exact (Hne H)].
Defined.

(** C2 fails as stated: the two messages of Wang and Yu are different
    and [files_equal] returns true on files that hold them. *)
Lemma files_equal_counterexample :
  tree world_collision !! ["src"; "m"] = Some (File collision_a 1) /\
  tree world_collision !! ["rep"; "m"] = Some (File collision_b 1) /\
  collision_a <> collision_b /\
  files_equal ["src"; "m"] ["rep"; "m"] world_collision
  = (world_collision, Return true).
Proof.
  split_and!.
  - vm_compute. reflexivity.
  - vm_compute. reflexivity.
  - intros H. vm_compute in H. discriminate H.
  - vm_compute. reflexivity.
Qed.

(* ===================================================================== *)
(** * Content-only equality                                                *)
(* ===================================================================== *)

(** C7.  A replica file that has the bytes of its source counterpart,
    whatever its modification time, is left as it is by [update_replica]
    over any list of source entries, however the loop ends: the node at
    its path is the same afterwards, and the log has no new record of a
    copy onto it. *)
Theorem content_only_equality self items w w' o rel data mtime mtime' :
  disjoint_roots self -> rel <> [] ->
  Forall (below (source_dir self)) items ->
  tree w !! (source_dir self ++ rel) = Some (File data mtime) ->
  tree w !! (replica_dir self ++ rel) = Some (File data mtime') ->
  update_replica self items w = (w', o) ->
  tree w' !! (replica_dir self ++ rel) = Some (File data mtime') /\
  exists l, log w' = log w ++ l /\
    forall src, (DEBUG, FileCopied (replica_dir self ++ rel) src) ∉ l.
Proof.
  intros Hdisj Hrel Hbelow Hsp Hrp Hu.
  pose (I := fun w : world =>
    tree w !! (source_dir self ++ rel) = Some (File data mtime) /\
    tree w !! (replica_dir self ++ rel) = Some (File data mtime')).
  pose (R := fun w1 w2 : world =>
    I w1 -> I w2 /\ exists l, log w2 = log w1 ++ l /\
      forall src, (DEBUG, FileCopied (replica_dir self ++ rel) src) ∉ l).
  assert (R w w') as HR.
  { revert Hu. apply (for_preserves R).
    - intros w1 HI. split; [done|]. exists []. rewrite app_nil_r.
      split; [done|]. intros src. apply not_elem_of_nil.
    - intros w1 w2 w3 H12 H23 HI1.
      destruct (H12 HI1) as (HI2 & l1 & Hl1 & Hn1).
      destruct (H23 HI2) as (HI3 & l2 & Hl2 & Hn2).
      split; [done|]. exists (l1 ++ l2). rewrite Hl2, Hl1, app_assoc.
      split; [done|]. intros src [?|?]%elem_of_app; [by eapply Hn1|by eapply Hn2].
    - intros sp w1 w2 o2 Hin Hbody [Hs1 Hr1].
      rewrite Forall_forall in Hbelow.
      destruct (Hbelow sp Hin) as (rel' & Hrel' & ->).
      apply update_entry_effect in Hbody.
      rewrite (replica_path_of_join _ _ Hrel') in Hbody.
      destruct Hbody as (_ & _ & Ht & l & Hl & Hcopy & _).
      assert (rel' = rel ->
              digest_of (tree w1 !! (replica_dir self ++ rel'))
              <> digest_of (tree w1 !! (source_dir self ++ rel')) -> False)
        as Hsame.
      { intros ->. rewrite Hs1, Hr1. by intros []. }
      split; [split|].
      + destruct (Ht (source_dir self ++ rel))
          as [Heq|[(Hnone & _)|(Heq & _)]]; [congruence|congruence|].
        exfalso. eapply disjoint_roots_both; [done|apply prefix_of_join_l|].
        rewrite Heq. apply prefix_of_join_l.
      + destruct (Ht (replica_dir self ++ rel))
          as [Heq|[(Hnone & _)|(Heq & _ & _ & _ & Hdiff)]]; [congruence|congruence|].
        apply app_inv_head in Heq. exfalso. by apply Hsame.
      + exists l. split; [done|]. intros src Hsrc.
        destruct (Hcopy _ _ Hsrc) as [Heq Hdiff].
        apply app_inv_head in Heq. by apply Hsame. }
  destruct HR as ([_ Hr'] & l & Hl & Hn); [done|]. eauto.
Qed.

(** A replica file with the same bytes and another modification time. *)
Lemma content_only_equality_witness :
  tree (update_replica fs_example [["src"; "a.txt"]] world_touched).1
    !! (replica_dir fs_example ++ ["a.txt"])
  = Some (File (bytes "hello") 99).
Proof.
  destruct (content_only_equality fs_example [["src"; "a.txt"]] world_touched
              (update_replica fs_example [["src"; "a.txt"]] world_touched).1
              (update_replica fs_example [["src"; "a.txt"]] world_touched).2
              ["a.txt"] (bytes "hello") 1 99) as [H _].
  - apply fs_example_disjoint.
  - discriminate.
  - apply List.Forall_cons; [|apply List.Forall_nil].
    exists ["a.txt"]. split; [discriminate|reflexivity].
  - vm_compute. reflexivity.
  - vm_compute. reflexivity.
  - by destruct (update_replica fs_example [["src"; "a.txt"]] world_touched).
  - exact H.
Defined.

(* ===================================================================== *)
(** * A file facing a directory                                            *)
(* ===================================================================== *)

(** C9.  When [update_replica] comes to a source entry that is a regular
    file (which can be read) while its replica counterpart is a directory,
    [files_equal] raises [IsADirectoryError] on opening the directory; the
    error is not a [PermissionError], is not caught, and ends the pass
    before [cleanup_replica]; the replica directory is still there. *)
Theorem kind_mismatch self pre sp rest w0 w data mtime :
  fetch_files_and_dirs (source_dir self) w0 = (w0, Return (pre ++ sp :: rest)) ->
  update_replica self pre w0 = (w, Return tt) ->
  tree w !! sp = Some (File data mtime) ->
  tree w !! replica_path_of self sp = Some Dir ->
  faults w (OpenRead sp) = None ->
  files_equal sp (replica_path_of self sp) w = (w, Raise IsADirectoryError) /\
  update_replica self (pre ++ sp :: rest) w0 = (w, Raise IsADirectoryError) /\
  synchronize_directories self w0 = (w, Raise IsADirectoryError) /\
  IsADirectoryError <> PermissionError /\
  tree w !! replica_path_of self sp = Some Dir.
Proof.
  intros Hfetch Hpre Hsp Hrp Hread.
  assert (files_equal sp (replica_path_of self sp) w = (w, Raise IsADirectoryError))
    as Heq.
  { unfold files_equal.
    erewrite bind_Return by (eapply generate_md5_file; eauto using chunk_size_pos).
    by erewrite bind_Raise by (by eapply generate_md5_dir). }
  assert (update_replica self (pre ++ sp :: rest) w0 = (w, Raise IsADirectoryError))
    as Hu.
  { unfold update_replica. rewrite for_app.
    fold (update_replica self pre). rewrite (bind_Return _ _ _ _ _ Hpre).
    simpl. apply bind_Raise. apply update_case_entry.
    eapply upd_compare_failed; [by rewrite Hsp|by rewrite Hrp|done]. }
  split_and!; try done.
  unfold synchronize_directories. rewrite (bind_Return _ _ _ _ _ Hfetch).
  by apply bind_Raise.
Qed.

(** The pass over a source file [d] whose replica counterpart is a
    directory. *)
Lemma kind_mismatch_witness :
  synchronize_directories fs_example world_file_vs_dir
  = (world_file_vs_dir, Raise IsADirectoryError).
Proof.
  destruct (kind_mismatch fs_example [] ["src"; "d"] [] world_file_vs_dir
              world_file_vs_dir (bytes "x") 1) as (_ & _ & H & _).
  - vm_compute. reflexivity.
  - reflexivity.
  - vm_compute. reflexivity.
  - vm_compute. reflexivity.
  - reflexivity.
  - exact H.
Defined.

(* ===================================================================== *)
(** * Errors                                                               *)
(* ===================================================================== *)

Lemma update_replica_cons self sp rest w w1 :
  update_entry self sp w = (w1, Return tt) ->
  update_replica self (sp :: rest) w = update_replica self rest w1.
Proof. intros H. unfold update_replica. simpl. by rewrite (bind_Return _ _ _ _ _ H). Qed.

Lemma update_replica_cons_Raise self sp rest w w1 e :
  update_entry self sp w = (w1, Raise e) ->
  update_replica self (sp :: rest) w = (w1, Raise e).
Proof. intros H. unfold update_replica. simpl. by rewrite (bind_Raise _ _ _ _ _ H). Qed.

Lemma cleanup_replica_cons self rp rest w w1 :
  cleanup_entry self rp w = (w1, Return tt) ->
  cleanup_replica self (rp :: rest) w = cleanup_replica self rest w1.
Proof. intros H. unfold cleanup_replica. simpl. by rewrite (bind_Return _ _ _ _ _ H). Qed.

Lemma cleanup_replica_cons_Raise self rp rest w w1 e :
  cleanup_entry self rp w = (w1, Raise e) ->
  cleanup_replica self (rp :: rest) w = (w1, Raise e).
Proof. intros H. unfold cleanup_replica. simpl. by rewrite (bind_Raise _ _ _ _ _ H). Qed.

(** C5 (as amended).  In [update_replica] and [cleanup_replica], when the
    call that mutates the filesystem for an entry raises ([os.makedirs],
    [shutil.copy2], [shutil.rmtree], [os.remove]): a [PermissionError] is
    caught, a warning is logged, and the loop goes on with the remaining
    entries from the world the failed call left (nothing is undone,
    nothing is tried again); any other error leaves the loop at once.  An
    error raised by the comparison [files_equal], a [PermissionError]
    included, is not caught and leaves the loop at once. *)
Theorem error_handling self item rest w :
  (forall w1 e,
     is_dir (tree w !! item) = true ->
     tree w !! replica_path_of self item = None ->
     makedirs (replica_path_of self item) w = (w1, Raise e) ->
     update_replica self (item :: rest) w =
     if decide (e = PermissionError)
     then update_replica self rest
            (emit (WARNING, CouldNotCreateDirectory (replica_path_of self item) e) w1)
     else (w1, Raise e)) /\
  (forall w1 e,
     is_dir (tree w !! item) = false ->
     tree w !! replica_path_of self item = None \/
     files_equal item (replica_path_of self item) w = (w, Return false) ->
     copy2 item (replica_path_of self item) w = (w1, Raise e) ->
     update_replica self (item :: rest) w =
     if decide (e = PermissionError)
     then update_replica self rest
            (emit (WARNING, CouldNotCopyFile (replica_path_of self item) e) w1)
     else (w1, Raise e)) /\
  (forall w1 e,
     is_dir (tree w !! item) = false ->
     is_Some (tree w !! replica_path_of self item) ->
     files_equal item (replica_path_of self item) w = (w1, Raise e) ->
     update_replica self (item :: rest) w = (w1, Raise e)) /\
  (forall w1 e,
     tree w !! source_path_of self item = None ->
     is_dir (tree w !! item) = true ->
     rmtree item w = (w1, Raise e) ->
     cleanup_replica self (item :: rest) w =
     if decide (e = PermissionError)
     then cleanup_replica self rest
            (emit (WARNING, CouldNotRemoveDirectory item e) w1)
     else (w1, Raise e)) /\
  (forall w1 e,
     tree w !! source_path_of self item = None ->
     is_file (tree w !! item) = true ->
     remove item w = (w1, Raise e) ->
     cleanup_replica self (item :: rest) w =
     if decide (e = PermissionError)
     then cleanup_replica self rest
            (emit (WARNING, CouldNotRemoveFile item e) w1)
     else (w1, Raise e)).
Proof.
  split_and!; intros w1 e.
  - intros Hd Hrp Hop. case_decide as He.
    + subst e. apply update_replica_cons, update_case_entry.
      by apply upd_dir_denied.
    + apply update_replica_cons_Raise, update_case_entry.
      by apply upd_dir_failed.
  - intros Hd Hrp Hop.
    assert ((tree w !! replica_path_of self item = None /\ w = w) \/
            (is_Some (tree w !! replica_path_of self item) /\
             files_equal item (replica_path_of self item) w = (w, Return false)))
      as Hrp'.
    { destruct Hrp as [?|Heq]; [by left|right]. split; [|done].
      apply files_equal_inv in Heq as [_ Heq].
      destruct (Heq _ eq_refl) as (? & ? & ? & ? & _ & -> & _). done. }
    case_decide as He.
    + subst e. apply update_replica_cons, update_case_entry.
      by eapply upd_file_denied.
    + apply update_replica_cons_Raise, update_case_entry.
      by eapply upd_file_failed.
  - intros Hd Hrp Heq.
    apply update_replica_cons_Raise, update_case_entry.
    by eapply upd_compare_failed.
  - intros Hsp Hd Hop. case_decide as He.
    + subst e. apply cleanup_replica_cons, cleanup_case_entry.
      by apply cln_dir_denied.
    + apply cleanup_replica_cons_Raise, cleanup_case_entry.
      by apply cln_dir_failed.
  - intros Hsp Hd Hop. case_decide as He.
    + subst e. apply cleanup_replica_cons, cleanup_case_entry.
      by apply cln_file_denied.
    + apply cleanup_replica_cons_Raise, cleanup_case_entry.
      by apply cln_file_failed.
Qed.

(** The creation of [/rep/d] is refused: a warning, and [a.txt] is
    copied all the same. *)
Lemma error_handling_witness :
  update_replica fs_example [["src"; "d"]; ["src"; "a.txt"]] world_denied
  = update_replica fs_example [["src"; "a.txt"]]
      (emit (WARNING, CouldNotCreateDirectory ["rep"; "d"] PermissionError)
            world_denied) /\
  tree (update_replica fs_example [["src"; "d"]; ["src"; "a.txt"]] world_denied).1
    !! ["rep"; "a.txt"] = Some (File (bytes "hello") 1).
Proof.
  destruct (error_handling fs_example ["src"; "d"] [["src"; "a.txt"]] world_denied)
    as (H & _).
  specialize (H world_denied PermissionError).
  split.
  - apply H.
    + vm_compute. reflexivity.
    + vm_compute. reflexivity.
    + vm_compute. reflexivity.
  - vm_compute. reflexivity.
Defined.

(** C5 fails as stated: the replica file [locked.txt] cannot be read, the
    [PermissionError] that [files_equal] raises on it is not caught, and
    the entry that follows is not processed. *)
Lemma error_handling_counterexample :
  faults world_denied (OpenRead ["rep"; "locked.txt"]) = Some PermissionError /\
  update_replica fs_example [["src"; "locked.txt"]; ["src"; "a.txt"]] world_denied
  = (world_denied, Raise PermissionError) /\
  tree world_denied !! ["rep"; "a.txt"] = None /\
  (synchronize_directories fs_example world_denied).2 = Raise PermissionError.
Proof.
  split_and!.
  - reflexivity.
  - vm_compute. reflexivity.
  - vm_compute. reflexivity.
  - vm_compute. reflexivity.
Qed.

(** [os.walk] swallows the failure of the listing: nothing is
    enumerated, and nothing is raised. *)
Lemma fetch_files_and_dirs_unlistable directory w e :
  faults w (Scandir directory) = Some e ->
  fetch_files_and_dirs directory w = (w, Return []).
Proof.
  intros Hf. unfold fetch_files_and_dirs. simpl. unfold scandir.
  destruct (tree w !! directory) as [[]|]; by rewrite ?Hf.
Qed.

(* ===================================================================== *)
(** * The pruner                                                           *)
(* ===================================================================== *)

Lemma deletable_faults w w' : faults w' = faults w -> deletable w -> deletable w'.
Proof. intros Hf Hd p. rewrite Hf. apply Hd. Qed.

(** One iteration of [cleanup_replica] when no removal is refused. *)
Lemma cleanup_entry_removes self rp w :
  wf (tree w) -> deletable w -> rp <> [] ->
  exists w', cleanup_entry self rp w = (w', Return tt) /\
    faults w' = faults w /\ wf (tree w') /\
    warnings (log w') = warnings (log w) /\
    (tree w !! source_path_of self rp = None /\ is_Some (tree w !! rp) ->
     log w' = log w ++ [(DEBUG, if is_dir (tree w !! rp)
                                then DirectoryRemoved rp else FileRemoved rp)] /\
     forall k, tree w' !! k = if decide (rp `prefix_of` k) then None
                              else tree w !! k) /\
    (~ (tree w !! source_path_of self rp = None /\ is_Some (tree w !! rp)) ->
     w' = w).
Proof.
  intros Hwf Hdel Hne.
  destruct (tree w !! source_path_of self rp) as [nd|] eqn:Hsp.
  { exists w. split_and!; try done.
    - apply cleanup_case_entry, cln_kept. left. by rewrite Hsp.
    - by intros [[=] _]. }
  destruct (tree w !! rp) as [[data mtime|]|] eqn:Hrp.
  - destruct (remove_unlinks rp w data mtime) as (w1 & Hop & Hf & Hl & Ht);
      [done..|apply Hdel|].
    exists (emit (DEBUG, FileRemoved rp) w1). split_and!.
    + apply cleanup_case_entry, cln_file_removed; [done|by rewrite Hrp|done].
    + done.
    + simpl. by apply (remove_shrinks _ _ _ _ Hwf Hop).
    + rewrite log_emit, Hl, warnings_app. simpl. apply app_nil_r.
    + intros _. by rewrite log_emit, Hl.
    + intros []. split; [done|by eexists].
  - destruct (rmtree_removes rp w) as (w1 & Hop & Hf & Hl & Ht); [done..|].
    exists (emit (DEBUG, DirectoryRemoved rp) w1). split_and!.
    + apply cleanup_case_entry, cln_dir_removed; [done|by rewrite Hrp|done].
    + done.
    + simpl. by apply (rmtree_shrinks _ _ _ _ Hwf Hop).
    + rewrite log_emit, Hl, warnings_app. simpl. apply app_nil_r.
    + intros _. by rewrite log_emit, Hl.
    + intros []. split; [done|by eexists].
  - exists w. split_and!; try done.
    + apply cleanup_case_entry, cln_kept. by right.
    + by intros [_ [? ?]].
Qed.

(** When no removal is refused, the loop of [cleanup_replica] ends well
    and logs no warning. *)
Lemma cleanup_replica_total self items :
  forall w, wf (tree w) -> deletable w -> Forall (fun p : path => p <> []) items ->
    exists w', cleanup_replica self items w = (w', Return tt) /\
               warnings (log w') = warnings (log w).
Proof.
  induction items as [|rp items IH]; intros w Hwf Hdel Hne.
  - by exists w.
  - apply Forall_cons in Hne as [Hrp Hne].
    destruct (cleanup_entry_removes self rp w Hwf Hdel Hrp)
      as (w1 & Hstep & Hf1 & Hwf1 & Hw1 & _).
    destruct (IH w1) as (w' & Hrest & Hw'); [done|by eapply deletable_faults|done|].
    exists w'. rewrite (cleanup_replica_cons _ _ _ _ _ Hstep). split; [done|congruence].
Qed.

Lemma below_ne (top p : path) : below top p -> p <> [].
Proof. intros (rel & Hrel & ->) Heq. apply app_eq_nil in Heq as [_ ?]. done. Qed.

(** C3 (as amended).  Take a well-formed tree, roots that do not contain
    one another, a log file that lies under neither root, and an
    environment that refuses nothing.

    Each iteration of [cleanup_replica], in whatever world its turn
    comes, removes its entry if and only if the corresponding path under
    the source root does not exist and the entry still exists: a
    directory goes with everything below it in one [rmtree], a file goes
    alone, the removal is logged, the rest of the replica stays, and
    otherwise the world is left as it is.

    The loop over the enumeration of the replica ends well, logs no
    warning, leaves no entry of the replica whose relative path is absent
    from the source, and leaves every entry of the replica whose relative
    path exists in the source as it was. *)
Theorem pruner_correct self w :
  wf (tree w) -> disjoint_roots self -> logfile_apart self ->
  refuses_nothing w ->
  (forall rel w1,
     rel <> [] -> wf (tree w1) -> refuses_nothing w1 ->
     exists w2,
       cleanup_entry self (replica_dir self ++ rel) w1 = (w2, Return tt) /\
       (tree w1 !! (source_dir self ++ rel) = None /\
        is_Some (tree w1 !! (replica_dir self ++ rel)) ->
        log w2 = log w1 ++
          [(DEBUG, if is_dir (tree w1 !! (replica_dir self ++ rel))
                   then DirectoryRemoved (replica_dir self ++ rel)
                   else FileRemoved (replica_dir self ++ rel))] /\
        forall k, replica_dir self `prefix_of` k ->
                  tree w2 !! k =
                  if decide (replica_dir self ++ rel `prefix_of` k) then None
                  else tree w1 !! k) /\
       (~ (tree w1 !! (source_dir self ++ rel) = None /\
           is_Some (tree w1 !! (replica_dir self ++ rel))) ->
        w2 = w1)) /\
  exists items w',
    fetch_files_and_dirs (replica_dir self) w = (w, Return items) /\
    cleanup_replica self items w = (w', Return tt) /\
    warnings (log w') = warnings (log w) /\
    (forall rel, rel <> [] -> tree w !! (source_dir self ++ rel) = None ->
                 tree w' !! (replica_dir self ++ rel) = None) /\
    (forall rel, rel <> [] -> is_Some (tree w !! (source_dir self ++ rel)) ->
                 tree w' !! (replica_dir self ++ rel)
                 = tree w !! (replica_dir self ++ rel)).
Proof.
  intros Hwf Hdisj _ Hcalm.
  pose proof (refuses_nothing_deletable w Hcalm) as Hdel. split.
  - intros rel w1 Hrel Hwf1 Hdel1%refuses_nothing_deletable.
    destruct (cleanup_entry_removes self (replica_dir self ++ rel) w1)
      as (w2 & Hstep & _ & _ & _ & Hyes & Hno); [done..|by destruct (replica_dir self)|].
    rewrite (source_path_of_join _ _ Hrel) in Hyes, Hno.
    exists w2. split_and!; [done| |done].
    intros Hc. destruct (Hyes Hc) as [Hlog Ht]. split; [done|]. intros k _. apply Ht.
  - destruct (fetch_files_and_dirs_Return (replica_dir self) w) as [items Hfetch].
    pose proof Hfetch as Hfetch'.
    apply fetch_files_and_dirs_inv in Hfetch' as (_ & its & Heq & Hsound & Hcomplete).
    injection Heq as <-.
    assert (Forall (below (replica_dir self)) items) as Hbelow.
    { apply Forall_forall. intros p Hp. by destruct (Hsound p Hp) as [? _]. }
    destruct (cleanup_replica_total self items w) as (w' & Hloop & Hwarn); [done..| |].
    { eapply Forall_impl; [done|]. intros p. apply below_ne. }
    destruct (cleanup_replica_loop self w Hdisj items w w')
      as (_ & _ & Ht & Hgone); try done.
    exists items, w'. split_and!; try done.
    + intros rel Hrel Hsp.
      destruct (tree w !! (replica_dir self ++ rel)) as [nd|] eqn:Hrp.
      * apply Hgone; [done| |done]. apply Hcomplete; [done|by exists rel|by rewrite Hrp|].
        intros q _ _ _. apply Hdel.
      * destruct (Ht (replica_dir self ++ rel)) as [?|[? _]]; congruence.
    + intros rel0 Hrel0 Hsome.
      destruct (Ht (replica_dir self ++ rel0))
        as [?|(_ & rel & Hrel & [q Hq] & Hsp)]; [done|].
      exfalso. rewrite <- app_assoc in Hq. apply app_inv_head in Hq as ->.
      assert (is_Some (tree w !! (source_dir self ++ rel))) as [? ?]; [|congruence].
      eapply wf_exists_prefix; [done|exact Hsome|].
      rewrite app_assoc. apply prefix_of_join_l.
Qed.

(** The pruner on the scenarios of the specification: [extra.txt] and
    [old/] with what it holds are gone, the rest of the replica stays. *)
Lemma pruner_correct_witness :
  exists items w',
    fetch_files_and_dirs (replica_dir fs_example) world_scenarios
    = (world_scenarios, Return items) /\
    cleanup_replica fs_example items world_scenarios = (w', Return tt) /\
    tree w' !! ["rep"; "extra.txt"] = None /\
    tree w' !! ["rep"; "old"; "n"] = None /\
    tree w' !! ["rep"; "b.txt"] = Some (File (bytes "hello") 1).
Proof.
  destruct (pruner_correct fs_example world_scenarios)
    as (_ & items & w' & Hfetch & Hloop & _ & Hgone & Hkept).
  - apply wf_check_sound. vm_compute. reflexivity.
  - apply fs_example_disjoint.
  - apply fs_example_logfile_apart.
  - apply refuses_nothing_no_faults.
  - exists items, w'. split_and!; [exact Hfetch|exact Hloop|..].
    + apply (Hgone ["extra.txt"]); [discriminate|]. vm_compute. reflexivity.
    + apply (Hgone ["old"; "n"]); [discriminate|]. vm_compute. reflexivity.
    + change (tree w' !! (replica_dir fs_example ++ ["b.txt"])
              = tree world_scenarios !! (replica_dir fs_example ++ ["b.txt"])).
      apply Hkept; [discriminate|]. vm_compute. by eexists.
Defined.

(** C3 fails as stated: [/rep/extra.txt] has no counterpart in the source
    and exists when its turn comes, and the removal is refused for want
    of permission.  [cleanup_replica] logs the warning and ends well, and
    the entry is still in the replica. *)
Lemma pruner_correct_counterexample :
  wf (tree world_unlink_denied) /\ disjoint_roots fs_example /\
  fetch_files_and_dirs (replica_dir fs_example) world_unlink_denied
  = (world_unlink_denied, Return [["rep"; "extra.txt"]]) /\
  tree world_unlink_denied !! (source_dir fs_example ++ ["extra.txt"]) = None /\
  (cleanup_replica fs_example [["rep"; "extra.txt"]] world_unlink_denied).2
  = Return tt /\
  log (cleanup_replica fs_example [["rep"; "extra.txt"]] world_unlink_denied).1
  = [(WARNING, CouldNotRemoveFile ["rep"; "extra.txt"] PermissionError)] /\
  tree (cleanup_replica fs_example [["rep"; "extra.txt"]] world_unlink_denied).1
    !! (replica_dir fs_example ++ ["extra.txt"])
  = Some (File (bytes "x") 4).
Proof.
  split_and!.
  - apply wf_check_sound. vm_compute. reflexivity.
  - apply fs_example_disjoint.
  - vm_compute. reflexivity.
  - vm_compute. reflexivity.
  - vm_compute. reflexivity.
  - vm_compute. reflexivity.
  - vm_compute. reflexivity.
Qed.

(* ===================================================================== *)
(** * The replica root                                                     *)
(* ===================================================================== *)

Lemma mkdir_creates p w :
  tree w !! p = None -> tree w !! dirname p = Some Dir ->
  faults w (Mkdir p) = None ->
  mkdir p w = (set_tree (<[p := Dir]> (tree w)) w, Return tt).
Proof. intros Hp Hd Hf. unfold mkdir. by rewrite Hp, Hd, Hf. Qed.

(** [makedirs] on a path that is not there, when no regular file stands
    on the way and no creation is refused: the path and its missing
    ancestors become directories, and nothing else changes. *)
Lemma makedirs_up_creates rp : forall w,
  wf (tree w) -> (forall q, faults w (Mkdir q) = None) ->
  tree w !! reverse rp = None ->
  (forall q, q `prefix_of` reverse rp -> is_file (tree w !! q) = false) ->
  exists w', makedirs_up rp w = (w', Return tt) /\
    faults w' = faults w /\ log w' = log w /\ wf (tree w') /\
    forall k, tree w' !! k =
      if decide (k `prefix_of` reverse rp /\ tree w !! k = None)
      then Some Dir else tree w !! k.
Proof.
  induction rp as [|x rh IH]; intros w Hwf Hfaults Hnone Hway.
  { destruct Hwf as [Hroot _]. rewrite reverse_nil in Hnone. congruence. }
  rewrite reverse_cons in Hnone, Hway. simpl.
  destruct (tree w !! reverse rh) as [nd|] eqn:Hhead.
  - (* the head is there *)
    assert (nd = Dir) as ->.
    { specialize (Hway (reverse rh) (prefix_of_join_l _ _)).
      rewrite Hhead in Hway. by destruct nd. }
    rewrite (bind_Return _ _ w w tt)
      by (by rewrite exists_true by (by rewrite Hhead)).
    rewrite reverse_cons.
    rewrite mkdir_creates; [|done|by rewrite dirname_app|done].
    eexists. split_and!; [done..| |].
    + simpl. apply wf_insert_dir; [done|by rewrite dirname_app|done].
    + intros k. simpl. destruct (decide (reverse rh ++ [x] = k)) as [<-|Hk].
      * rewrite lookup_insert_eq. by rewrite decide_True.
      * rewrite lookup_insert_ne by done. case_decide as Hd; [|done].
        destruct Hd as [Hpre Hkn]. exfalso.
        apply prefix_snoc_inv in Hpre as [->|Hpre]; [done|].
        assert (is_Some (tree w !! k)) as [? ?]; [|congruence].
        eapply wf_exists_prefix; [done|by rewrite Hhead|done].
  - (* the head is made first *)
    destruct (IH w) as (w1 & Hrec & Hf1 & Hl1 & Hwf1 & Ht1); try done.
    { intros q Hq. apply Hway. by apply prefix_app_r. }
    assert (try_except_FileExistsError (makedirs_up rh) w = (w1, Return tt)) as Htry.
    { unfold try_except_FileExistsError. by rewrite Hrec. }
    rewrite (bind_Return _ _ w w1 tt) by (by rewrite exists_false by done).
    rewrite reverse_cons.
    assert (tree w1 !! (reverse rh ++ [x]) = None) as Hp1.
    { rewrite Ht1, decide_False; [done|]. by intros [?%prefix_snoc_not _]. }
    assert (tree w1 !! reverse rh = Some Dir) as Hh1.
    { by rewrite Ht1, decide_True. }
    rewrite mkdir_creates; [|done|by rewrite dirname_app|by rewrite Hf1].
    eexists. split_and!; [done..| |].
    + simpl. apply wf_insert_dir; [done|by rewrite dirname_app|done].
    + intros k. simpl. destruct (decide (reverse rh ++ [x] = k)) as [<-|Hk].
      * rewrite lookup_insert_eq. by rewrite decide_True.
      * rewrite lookup_insert_ne by done. rewrite Ht1.
        destruct (decide (k `prefix_of` reverse rh /\ tree w !! k = None))
          as [[Hpre Hkn]|Hno].
        -- rewrite decide_True; [done|]. split; [|done]. by apply prefix_app_r.
        -- rewrite decide_False; [done|]. intros [Hpre Hkn]. apply Hno.
           apply prefix_snoc_inv in Hpre as [->|Hpre]; done.
Qed.

Lemma makedirs_creates p w :
  wf (tree w) -> (forall q, faults w (Mkdir q) = None) ->
  tree w !! p = None ->
  (forall q, q `prefix_of` p -> is_file (tree w !! q) = false) ->
  exists w', makedirs p w = (w', Return tt) /\
    faults w' = faults w /\ log w' = log w /\ wf (tree w') /\
    forall k, tree w' !! k =
      if decide (k `prefix_of` p /\ tree w !! k = None)
      then Some Dir else tree w !! k.
Proof.
  intros Hwf Hf Hp Hway. unfold makedirs.
  destruct (makedirs_up_creates (reverse p) w) as (w' & H); try done;
    rewrite ?reverse_involutive; try done.
  exists w'. by rewrite reverse_involutive in H.
Qed.

(** [open(p, "a")] when the file can be opened. *)
Lemma open_append_opens p w :
  faults w (OpenWrite p) = None ->
  is_file (tree w !! p) = true \/
  (tree w !! p = None /\ tree w !! dirname p = Some Dir) ->
  exists w', open_append p w = (w', Return tt) /\
    faults w' = faults w /\ log w' = log w /\
    (wf (tree w) -> wf (tree w')) /\
    forall k, tree w' !! k =
      if decide (k = p /\ tree w !! k = None) then Some (File [] 0)
      else tree w !! k.
Proof.
  intros Hf [Hfile|[Hnone Hd]]; unfold open_append, ask.
  - destruct (tree w !! p) as [[data mtime|]|] eqn:Hp; try done. rewrite Hf.
    exists w. split_and!; try done. intros k. rewrite decide_False; [done|].
    intros [-> ?]. congruence.
  - rewrite Hnone, Hd, Hf. eexists. split_and!; [done..| |].
    + intros Hwf. simpl. apply wf_insert_file; auto.
    + intros k. simpl. destruct (decide (p = k)) as [<-|Hk].
      * rewrite lookup_insert_eq. by rewrite decide_True.
      * rewrite lookup_insert_ne by done. rewrite decide_False; [done|].
        by intros [-> _].
Qed.

(** C10 (as amended).  Take a well-formed tree and an environment that
    refuses nothing, where the log file can be opened for appending (it
    is a regular file, or is absent from an existing directory), and
    where no regular file, and not the log file, stands at the replica
    root or at an ancestor of it.  Then [initialize] ends well, and
    afterwards the replica root and all its ancestors are directories and
    the log file is a regular file.  Apart from the log file, every entry
    that existed is as it was, and the only new entries are the missing
    directories on the way to the replica root.  When the replica root
    was missing, its creation is logged.  When the replica root already
    exists, nothing is logged and nothing changes but for the log file,
    which is created when it was not there: with the log file in place,
    the world is left exactly as it was.  The first pass that [main]
    starts runs in the world [initialize] leaves. *)
Theorem replica_root_bootstrap self w :
  wf (tree w) ->
  refuses_nothing w ->
  is_file (tree w !! logfile self) = true \/
  (tree w !! logfile self = None /\
   tree w !! dirname (logfile self) = Some Dir) ->
  (forall q, q `prefix_of` replica_dir self ->
             is_file (tree w !! q) = false /\ q <> logfile self) ->
  exists w',
    initialize self w = (w', Return tt) /\
    (forall q, q `prefix_of` replica_dir self -> tree w' !! q = Some Dir) /\
    is_file (tree w' !! logfile self) = true /\
    (forall k, k <> logfile self ->
       tree w' !! k =
       match tree w !! k with
       | Some nd => Some nd
       | None => if decide (k `prefix_of` replica_dir self) then Some Dir
                 else None
       end) /\
    (is_Some (tree w !! replica_dir self) ->
     log w' = log w /\
     (forall k, k <> logfile self -> tree w' !! k = tree w !! k) /\
     (is_Some (tree w !! logfile self) -> w' = w)) /\
    (tree w !! replica_dir self = None ->
     log w' = log w ++ [(DEBUG, ReplicaDirectoryCreated (replica_dir self))]) /\
    main_first_pass self w = synchronize_directories self w'.
Proof.
  intros Hwf Hcalm Hlog Hway.
  destruct (open_append_opens (logfile self) w (Hcalm _) Hlog)
    as (w1 & Hcreate & Hf1 & Hl1 & Hwf1 & Ht1).
  specialize (Hwf1 Hwf).
  assert (forall k, k <> logfile self -> tree w1 !! k = tree w !! k) as Hrest.
  { intros k Hk. rewrite Ht1, decide_False; [done|]. by intros [? _]. }
  assert (is_file (tree w1 !! logfile self) = true) as Hlog1.
  { rewrite Ht1. destruct Hlog as [Hfile|[Hnone _]].
    - rewrite decide_False; [done|]. intros [_ Hnone]. by rewrite Hnone in Hfile.
    - by rewrite decide_True. }
  assert (forall q, q `prefix_of` replica_dir self -> tree w1 !! q = tree w !! q)
    as Hsame.
  { intros q Hq. apply Hrest. by destruct (Hway _ Hq). }
  assert (forall (k' : M unit) w' o, k' w1 = (w', o) ->
            (create_logger (logfile self) ;;; k') w = (w', o)) as Hbind.
  { intros k' w' o Hk. unfold create_logger.
    by rewrite (bind_Return _ _ _ _ _ Hcreate). }
  destruct (tree w !! replica_dir self) as [nd|] eqn:Hrep.
  - (* the replica root is there *)
    assert (forall q, q `prefix_of` replica_dir self -> tree w !! q = Some Dir)
      as Hdirs.
    { intros q Hq. destruct (wf_exists_prefix (tree w) q (replica_dir self))
        as [ndq Hndq]; [done|by rewrite Hrep|done|].
      destruct (Hway q Hq) as [Hnf _]. rewrite Hndq in Hnf |- *. by destruct ndq. }
    assert (initialize self w = (w1, Return tt)) as Hinit.
    { unfold initialize. apply Hbind.
      rewrite exists_true; [done|]. rewrite Hsame by done. by rewrite Hrep. }
    exists w1. split_and!; [done| |done| | |done|].
    + intros q Hq. rewrite Hsame by done. by apply Hdirs.
    + intros k Hk. rewrite (Hrest k Hk). destruct (tree w !! k) as [ndk|] eqn:Hk'; [done|].
      rewrite decide_False; [done|].
      intros Hpre. specialize (Hdirs k Hpre). congruence.
    + intros _. split_and!; [done|done|].
      intros [ndl Hndl]. destruct w as [t f l], w1 as [t1 f1 l1]. simpl in *.
      f_equal; [|done..]. apply map_eq. intros k. rewrite Ht1.
      rewrite decide_False; [done|]. intros [-> ?]. congruence.
    + unfold main_first_pass. by rewrite (bind_Return _ _ _ _ _ Hinit).
  - (* the replica root is made *)
    destruct (makedirs_creates (replica_dir self) w1)
      as (w2 & Hmake & Hf2 & Hl2 & Hwf2 & Ht2); try done.
    { intros q. rewrite Hf1. apply Hcalm. }
    { rewrite Hsame by done. done. }
    { intros q Hq. rewrite Hsame by done. by destruct (Hway q Hq). }
    assert (initialize self w
            = (emit (DEBUG, ReplicaDirectoryCreated (replica_dir self)) w2, Return tt))
      as Hinit.
    { unfold initialize. apply Hbind.
      rewrite exists_false by (by rewrite Hsame by done). simpl.
      by rewrite (bind_Return _ _ _ _ _ Hmake). }
    eexists. split_and!; [done| | | | | |].
    + intros q Hq. simpl. rewrite Ht2, (Hsame q Hq).
      case_decide as Hd; [done|].
      destruct (tree w !! q) as [ndq|] eqn:Hq'; [|by destruct Hd].
      destruct (Hway q Hq) as [Hnf _]. rewrite Hq' in Hnf. by destruct ndq.
    + simpl. rewrite Ht2. rewrite decide_False; [done|].
      intros [Hpre _]. by destruct (Hway _ Hpre).
    + intros k Hk. simpl. rewrite Ht2, (Hrest k Hk).
      destruct (tree w !! k) as [ndk|] eqn:Hk'.
      * rewrite decide_False; [done|]. by intros [_ ?].
      * destruct (decide (k `prefix_of` replica_dir self)) as [Hpre|Hpre].
        -- by rewrite decide_True.
        -- rewrite decide_False; [done|]. by intros [? _].
    + by intros [? ?].
    + intros _. by rewrite log_emit, Hl2, Hl1.
    + unfold main_first_pass. by rewrite (bind_Return _ _ _ _ _ Hinit).
Qed.

(** A first start: [/backup/rep] and [/backup] are created. *)
Lemma replica_root_bootstrap_witness :
  exists w',
    initialize fs_fresh world_fresh = (w', Return tt) /\
    tree w' !! ["backup"; "rep"] = Some Dir /\
    tree w' !! ["backup"] = Some Dir /\
    tree w' !! ["src"; "a.txt"] = Some (File (bytes "hello") 1).
Proof.
  destruct (replica_root_bootstrap fs_fresh world_fresh)
    as (w' & Hinit & Hdirs & _ & Hall & _).
  - apply wf_check_sound. vm_compute. reflexivity.
  - apply refuses_nothing_no_faults.
  - right. split; vm_compute; reflexivity.
  - intros q [k Hk].
    destruct q as [|a [|b [|c q]]]; simplify_eq/=;
      (split; [vm_compute; reflexivity|discriminate]).
  - exists w'. split_and!; [exact Hinit|..].
    + apply Hdirs. reflexivity.
    + apply Hdirs. by exists ["rep"].
    + rewrite Hall; [vm_compute; reflexivity|discriminate].
Defined.

(** C10 fails as stated: with the replica root in place and no log file
    yet, [initialize] creates the log file. *)
Lemma replica_root_bootstrap_counterexample :
  tree world_scenarios !! replica_dir fs_example = Some Dir /\
  (initialize fs_example world_scenarios).2 = Return tt /\
  tree world_scenarios !! logfile fs_example = None /\
  tree (initialize fs_example world_scenarios).1 !! logfile fs_example
  = Some (File [] 0) /\
  tree (initialize fs_example world_scenarios).1 <> tree world_scenarios.
Proof.
  split_and!; try (vm_compute; reflexivity).
  intros H. apply (f_equal (fun t : gmap path node => t !! ["sync.log"])) in H.
  vm_compute in H. discriminate H.
Qed.

(* ===================================================================== *)
(** * The scheduler                                                        *)
(* ===================================================================== *)

Section scheduler.
Import Scheduler.
Local Open Scope Z_scope.
Variable period : Z.

Lemma run_snoc now evs ev :
  run period now (evs ++ [ev]) = step period (run period now evs) ev.
Proof. unfold run. by rewrite foldl_app. Qed.

(** When an iteration starts a thread, and what it does then. *)
Lemma step_Tick s curr :
  (timedelta period <= curr - prev_call_time s /\ (t s ∉ alive s) /\
   step period s (Tick curr) = start_thread curr s) \/
  (~ (timedelta period <= curr - prev_call_time s /\ (t s ∉ alive s)) /\
   step period s (Tick curr) = s).
Proof.
  unfold step, is_alive.
  destruct (Z.leb_spec (timedelta period) (curr - prev_call_time s)) as [Hle|Hlt];
    simpl; [|right; split; [lia|done]].
  case_bool_decide as Hal; simpl; [right|left].
  - split; [|done]. by intros [_ ?].
  - done.
Qed.

Lemma dispatches_spec s ev :
  dispatches period s ev = true <->
  exists curr, ev = Tick curr /\
    timedelta period <= curr - prev_call_time s /\ (t s ∉ alive s).
Proof.
  unfold dispatches. rewrite bool_decide_eq_true. destruct ev as [curr|i].
  - destruct (step_Tick s curr) as [(Hle & Hal & ->)|[Hno ->]].
    + simpl. rewrite length_app. simpl. split; [eauto|lia].
    + split; [lia|]. intros (c & [= <-] & ? & ?). by destruct Hno.
  - simpl. split; [lia|]. by intros (c & [=] & _).
Qed.

Lemma spaced_snoc l a b :
  spaced period (l ++ [a]) -> timedelta period <= b.2 - a.2 ->
  spaced period ((l ++ [a]) ++ [b]).
Proof.
  intros Hsp Hab i x y Hx Hy.
  destruct (decide (S i < length (l ++ [a]))%nat) as [Hi|Hi].
  - rewrite lookup_app_l in Hx by lia. rewrite lookup_app_l in Hy by done.
    by eapply Hsp.
  - assert (S i = length (l ++ [a])) as Hi'.
    { apply lookup_lt_Some in Hy. rewrite length_app in Hy. simpl in Hy. lia. }
    rewrite lookup_app_r in Hy by lia. rewrite Hi', Nat.sub_diag in Hy.
    injection Hy as <-.
    rewrite lookup_app_l in Hx by lia.
    rewrite length_app in Hi'. simpl in Hi'.
    rewrite lookup_app_r in Hx by lia.
    replace (i - length l)%nat with 0%nat in Hx by lia.
    by injection Hx as <-.
Qed.

Lemma invariant_startup now : invariant period (startup now).
Proof.
  split_and!; simpl.
  - done.
  - by exists [].
  - intros i a b Ha Hb. destruct i; discriminate Hb.
Qed.

Lemma invariant_step s ev : invariant period s -> invariant period (step period s ev).
Proof.
  intros Hinv. pose proof Hinv as (Hal & [l Hl] & Hsp). destruct ev as [curr|i].
  - destruct (step_Tick s curr) as [(Hle & Hdead & ->)|[_ ->]]; [|exact Hinv].
    unfold start_thread. split_and!; simpl.
    + set_solver.
    + by eexists.
    + rewrite Hl in Hsp |- *. by apply spaced_snoc.
  - split_and!; simpl; [set_solver|by eexists|done].
Qed.

Lemma invariant_run now evs : invariant period (run period now evs).
Proof.
  induction evs as [|ev evs IH] using rev_ind.
  - apply invariant_startup.
  - rewrite run_snoc. by apply invariant_step.
Qed.

(** While the thread [t] is alive, the iterations leave the state of
    the loop as it is, whatever the clock says. *)
Lemma ticks_while_alive s cs :
  t s ∈ alive s -> foldl (step period) s (Tick <$> cs) = s.
Proof.
  intros Hal. induction cs as [|c cs IH]; [done|].
  rewrite fmap_cons. cbn [foldl].
  destruct (step_Tick s c) as [(_ & Hdead & _)|[_ ->]]; [done|exact IH].
Qed.

(** With no thread alive, the iterations start one thread, at the first
    reading of the clock that is a period after the last start. *)
Lemma ticks_when_idle s cs :
  alive s = ∅ ->
  started (foldl (step period) s (Tick <$> cs))
  = started s ++
    match find (fun c => timedelta period <=? c - prev_call_time s) cs with
    | Some c => [(length (started s), c)]
    | None => []
    end.
Proof.
  intros Hidle. induction cs as [|c cs IH].
  - simpl. by rewrite app_nil_r.
  - rewrite fmap_cons. cbn [foldl find].
    destruct (step_Tick s c) as [(Hle & _ & ->)|[Hno ->]].
    + rewrite ticks_while_alive by (simpl; set_solver).
      apply Z.leb_le in Hle. by rewrite Hle.
    + assert ((timedelta period <=? c - prev_call_time s) = false) as ->; [|exact IH].
      apply Z.leb_gt. destruct (Z.le_gt_cases (timedelta period) (c - prev_call_time s))
        as [Hle|Hgt]; [|lia].
      destruct Hno. split; [done|]. rewrite Hidle. set_solver.
Qed.

End scheduler.

(** C4.  In every state the loop of [run] can reach, whatever the period
    and whenever the clock is read and the workers end: the only thread
    that may be executing [synchronize_directories] is the one [t] refers
    to, so at most one is; and when an iteration starts a thread, none was
    executing, and the new one is the only one. *)
Theorem at_most_one_pass period now evs :
  Scheduler.alive (Scheduler.run period now evs)
    ⊆ {[Scheduler.t (Scheduler.run period now evs)]} /\
  size (Scheduler.alive (Scheduler.run period now evs)) <= 1 /\
  forall ev,
    Scheduler.dispatches period (Scheduler.run period now evs) ev = true ->
    Scheduler.alive (Scheduler.run period now evs) = ∅ /\
    Scheduler.alive (Scheduler.step period (Scheduler.run period now evs) ev)
    = {[Scheduler.t (Scheduler.step period (Scheduler.run period now evs) ev)]}.
Proof.
  destruct (invariant_run period now evs) as (Hal & _ & _).
  split_and!; [done| |].
  - etrans; [by apply subseteq_size|]. by rewrite size_singleton.
  - intros ev (curr & -> & Hle & Hdead)%dispatches_spec.
    assert (Scheduler.alive (Scheduler.run period now evs) = ∅) as Hnone
      by set_solver.
    split; [done|].
    destruct (step_Tick period (Scheduler.run period now evs) curr)
      as [(_ & _ & ->)|[Hno _]]; [|by destruct Hno].
    simpl. rewrite Hnone. set_solver.
Qed.

(** Scenario 5 at ten seconds: the first pass has ended, no thread is
    executing, and the iteration starts the one thread that then is. *)
Lemma at_most_one_pass_witness :
  Scheduler.alive (Scheduler.run 5 0 (take 10 Scheduler.scenario_5)) = ∅ /\
  Scheduler.alive
    (Scheduler.step 5 (Scheduler.run 5 0 (take 10 Scheduler.scenario_5))
       (Scheduler.Tick 10000000))
  = {[Scheduler.t
        (Scheduler.step 5 (Scheduler.run 5 0 (take 10 Scheduler.scenario_5))
           (Scheduler.Tick 10000000))]}.
Proof.
  destruct (at_most_one_pass 5 0 (take 10 Scheduler.scenario_5)) as (_ & _ & Hstart).
  apply Hstart. vm_compute. reflexivity.
Defined.

(** C8.  In every state the loop of [run] can reach: an iteration starts
    a pass if and only if the time since the last start is at least the
    period and the thread [t] is not alive; it then starts exactly one,
    and records the time; otherwise it starts none and keeps nothing for
    later (the starts recorded and the time of the last start are as they
    were); and any two successive starts are at least a period apart,
    however long a pass has run.

    While the pass runs, any number of iterations, at whatever times,
    leave the state of the loop exactly as it is: the starts that fall
    due are not counted anywhere.  The end of the running pass leaves no
    thread alive and starts nothing by itself.  The iterations that
    follow it start exactly one pass, at the first reading of the clock
    that is at least a period after the last start, however many periods
    have gone by, and no pass before that reading. *)
Theorem skip_not_queue period now evs :
  (forall ev,
     Scheduler.dispatches period (Scheduler.run period now evs) ev = true <->
     exists curr, ev = Scheduler.Tick curr /\
       (Scheduler.timedelta period
        <= curr - Scheduler.prev_call_time (Scheduler.run period now evs))%Z /\
       (Scheduler.t (Scheduler.run period now evs)
          ∉ Scheduler.alive (Scheduler.run period now evs))) /\
  (forall curr,
     Scheduler.dispatches period (Scheduler.run period now evs)
       (Scheduler.Tick curr) = true ->
     Scheduler.started
       (Scheduler.step period (Scheduler.run period now evs) (Scheduler.Tick curr))
     = Scheduler.started (Scheduler.run period now evs)
       ++ [(length (Scheduler.started (Scheduler.run period now evs)), curr)] /\
     Scheduler.prev_call_time
       (Scheduler.step period (Scheduler.run period now evs) (Scheduler.Tick curr))
     = curr) /\
  (forall ev,
     Scheduler.dispatches period (Scheduler.run period now evs) ev = false ->
     Scheduler.started (Scheduler.step period (Scheduler.run period now evs) ev)
     = Scheduler.started (Scheduler.run period now evs) /\
     Scheduler.prev_call_time
       (Scheduler.step period (Scheduler.run period now evs) ev)
     = Scheduler.prev_call_time (Scheduler.run period now evs)) /\
  Scheduler.spaced period (Scheduler.started (Scheduler.run period now evs)) /\
  (forall cs,
     Scheduler.t (Scheduler.run period now evs)
       ∈ Scheduler.alive (Scheduler.run period now evs) ->
     Scheduler.run period now (evs ++ (Scheduler.Tick <$> cs))
     = Scheduler.run period now evs) /\
  (Scheduler.alive
     (Scheduler.run period now
        (evs ++ [Scheduler.Exit (Scheduler.t (Scheduler.run period now evs))]))
   = ∅ /\
   Scheduler.started
     (Scheduler.run period now
        (evs ++ [Scheduler.Exit (Scheduler.t (Scheduler.run period now evs))]))
   = Scheduler.started (Scheduler.run period now evs) /\
   Scheduler.prev_call_time
     (Scheduler.run period now
        (evs ++ [Scheduler.Exit (Scheduler.t (Scheduler.run period now evs))]))
   = Scheduler.prev_call_time (Scheduler.run period now evs)) /\
  (forall cs,
     Scheduler.started
       (Scheduler.run period now
          (evs ++ [Scheduler.Exit (Scheduler.t (Scheduler.run period now evs))]
               ++ (Scheduler.Tick <$> cs)))
     = Scheduler.started (Scheduler.run period now evs) ++
       match
         find (fun c =>
                 (Scheduler.timedelta period
                  <=? c - Scheduler.prev_call_time (Scheduler.run period now evs))%Z)
              cs
       with
       | Some c => [(length (Scheduler.started (Scheduler.run period now evs)), c)]
       | None => []
       end).
Proof.
  assert (Scheduler.alive
            (Scheduler.run period now
               (evs ++ [Scheduler.Exit (Scheduler.t (Scheduler.run period now evs))]))
          = ∅) as Hidle.
  { rewrite run_snoc. simpl.
    destruct (invariant_run period now evs) as (Hal & _ & _). set_solver. }
  split_and!.
  - intros ev. apply dispatches_spec.
  - intros curr (c & [= <-] & Hle & Hdead)%dispatches_spec.
    destruct (step_Tick period (Scheduler.run period now evs) curr)
      as [(_ & _ & ->)|[Hno _]]; [done|by destruct Hno].
  - intros ev Hno. destruct ev as [curr|i]; [|done].
    destruct (step_Tick period (Scheduler.run period now evs) curr)
      as [(Hle & Hdead & _)|[_ ->]]; [|done].
    assert (Scheduler.dispatches period (Scheduler.run period now evs)
              (Scheduler.Tick curr) = true) by (apply dispatches_spec; eauto).
    congruence.
  - by destruct (invariant_run period now evs) as (_ & _ & Hsp).
  - intros cs Hal. unfold Scheduler.run at 1. rewrite foldl_app.
    by apply ticks_while_alive.
  - exact Hidle.
  - by rewrite run_snoc.
  - by rewrite run_snoc.
  - intros cs. unfold Scheduler.run at 1. rewrite app_assoc, foldl_app.
    fold (Scheduler.run period now
            (evs ++ [Scheduler.Exit (Scheduler.t (Scheduler.run period now evs))])).
    rewrite (ticks_when_idle period _ cs Hidle). by rewrite !run_snoc.
Qed.

(** Scenario 5 at five seconds: the period has elapsed, the first pass
    is still running, and the iteration leaves the starts and the time of
    the last start as they were; the iterations up to nine seconds leave
    the state of the loop as it is. *)
Lemma skip_not_queue_witness :
  (Scheduler.started
     (Scheduler.step 5 (Scheduler.run 5 0 (take 4 Scheduler.scenario_5))
        (Scheduler.Tick 5000000))
   = Scheduler.started (Scheduler.run 5 0 (take 4 Scheduler.scenario_5)) /\
   Scheduler.prev_call_time
     (Scheduler.step 5 (Scheduler.run 5 0 (take 4 Scheduler.scenario_5))
        (Scheduler.Tick 5000000))
   = Scheduler.prev_call_time (Scheduler.run 5 0 (take 4 Scheduler.scenario_5))) /\
  Scheduler.run 5 0
    (take 4 Scheduler.scenario_5
     ++ (Scheduler.Tick <$> [5000000; 6000000; 7000000; 8000000; 9000000])%Z)
  = Scheduler.run 5 0 (take 4 Scheduler.scenario_5).
Proof.
  destruct (skip_not_queue 5 0 (take 4 Scheduler.scenario_5))
    as (_ & _ & Hskip & _ & Hover & _).
  split.
  - apply Hskip. vm_compute. reflexivity.
  - apply Hover. vm_compute. set_solver.
Defined.

(** Scenario 5 of the specification: the start that fell due at 5
    seconds is skipped; one pass starts at 10 seconds, when the first has
    ended, and none at 11 and 12 seconds. *)
Example skip_not_queue_scenario_5 :
  Scheduler.started (Scheduler.run 5 0 Scheduler.scenario_5)
  = [(0%nat, 0%Z); (1%nat, 10000000%Z)].
Proof. vm_compute. reflexivity. Qed.

(* ===================================================================== *)
(** * The enumeration of [fetch_files_and_dirs]                            *)
(* ===================================================================== *)

Lemma fetch_files_and_dirs_items directory w :
  fetch_files_and_dirs directory w
  = (w, Return (flat_map walk_items (os_walk (S (depth w)) w directory))).
Proof. done. Qed.

Lemma flat_map_flat_map {A B C} (f : A -> list B) (g : B -> list C) l :
  flat_map g (flat_map f l) = flat_map (fun x => flat_map g (f x)) l.
Proof.
  induction l as [|x l IH]; [done|]. simpl. by rewrite flat_map_app, IH.
Qed.

(** The enumeration of a directory that can be listed: its directories,
    its files, then what the walk finds in each directory in turn. *)
Lemma walk_items_step fuel w top :
  tree w !! top = Some Dir -> faults w (Scandir top) = None ->
  flat_map walk_items (os_walk (S fuel) w top)
  = ((fun d => top ++ [d]) <$>
       (filter (fun ent : string * node => ent.2 = Dir) (listdir w top)).*1) ++
    ((fun f => top ++ [f]) <$>
       (filter (fun ent : string * node => ent.2 <> Dir) (listdir w top)).*1) ++
    flat_map (fun d => flat_map walk_items (os_walk fuel w (top ++ [d])))
      (filter (fun ent : string * node => ent.2 = Dir) (listdir w top)).*1.
Proof.
  intros Htop Hf. simpl. rewrite (scandir_dir _ _ Htop Hf). simpl.
  unfold walk_items at 1. simpl. unfold join.
  by rewrite <- app_assoc, flat_map_flat_map.
Qed.

Lemma walk_items_skip fuel w top :
  tree w !! top <> Some Dir \/ faults w (Scandir top) <> None ->
  flat_map walk_items (os_walk (S fuel) w top) = [].
Proof.
  intros H. simpl. destruct (scandir top w) as [w1 [ents|e]] eqn:Hscan; [|done].
  apply scandir_inv in Hscan as [_ Hscan].
  destruct (Hscan _ eq_refl) as (? & ? & _). by destruct H.
Qed.

Lemma walk_items_below fuel w top p :
  p ∈ flat_map walk_items (os_walk fuel w top) ->
  exists rel name, p = top ++ rel ++ [name].
Proof.
  intros Hin. apply list_elem_of_In, in_flat_map in Hin as ([[root dirs] files] & Hw & Hin).
  apply list_elem_of_In, os_walk_sound in Hw as ([rel ->] & _). simpl in Hin.
  apply list_elem_of_In in Hin. unfold walk_items in Hin. simpl in Hin.
  apply elem_of_app in Hin as [Hin|Hin];
    apply list_elem_of_fmap in Hin as (name & -> & _);
    exists rel, name; unfold join; by rewrite <- app_assoc.
Qed.

Lemma NoDup_flat_map {A B} (f : A -> list B) (l : list A) :
  NoDup l -> (forall x, x ∈ l -> NoDup (f x)) ->
  (forall x y z, x ∈ l -> y ∈ l -> z ∈ f x -> z ∈ f y -> x = y) ->
  NoDup (flat_map f l).
Proof.
  induction 1 as [|x l Hx Hl IH]; intros Hf Hdisj; simpl; [constructor|].
  apply NoDup_app. split_and!.
  - apply Hf. by left.
  - intros z Hz Hz'. apply list_elem_of_In, in_flat_map in Hz' as (y & Hy & Hz').
    apply list_elem_of_In in Hy, Hz'.
    assert (x = y) as <- by (apply (Hdisj x y z); [by left|by right|done..]).
    done.
  - apply IH.
    + intros y Hy. apply Hf. by right.
    + intros y1 y2 z ? ?. apply Hdisj; by right.
Qed.

Lemma NoDup_filter_split {A B} (P : A * B -> Prop) `{!forall x, Decision (P x)}
    (l : list (A * B)) :
  NoDup l.*1 ->
  NoDup ((filter P l).*1 ++ (filter (fun x => ~ P x) l).*1).
Proof.
  induction l as [|x l IH]; intros Hnd; [constructor|].
  apply NoDup_cons in Hnd as [Hx Hnd]. specialize (IH Hnd).
  assert (forall (Q : A * B -> Prop) `{!forall x, Decision (Q x)},
            x.1 ∉ (filter Q l).*1) as Hout.
  { intros Q ? Hin. apply Hx. apply list_elem_of_fmap in Hin as (y & -> & Hin).
    apply list_elem_of_filter in Hin as [_ Hin]. apply list_elem_of_fmap. eauto. }
  rewrite !filter_cons. destruct (decide (P x)) as [HP|HP].
  - rewrite decide_False by tauto. simpl. apply NoDup_cons. split; [|done].
    intros [?|?]%elem_of_app; by eapply Hout.
  - rewrite decide_True by done. simpl.
    apply (NoDup_Permutation_proper _ _ (Permutation_middle _ _ _)).
    apply NoDup_cons. split; [|done].
    intros [?|?]%elem_of_app; by eapply Hout.
Qed.

Lemma walk_items_NoDup w : forall fuel top,
  NoDup (flat_map walk_items (os_walk fuel w top)).
Proof.
  induction fuel as [|fuel IH]; intros top; [constructor|].
  destruct (decide (tree w !! top = Some Dir)) as [Htop|Htop];
    [|rewrite walk_items_skip by auto; constructor].
  destruct (faults w (Scandir top)) as [e|] eqn:Hf;
    [rewrite walk_items_skip by (right; by rewrite Hf); constructor|].
  rewrite (walk_items_step _ _ _ Htop Hf). rewrite app_assoc.
  apply NoDup_app. split_and!.
  - rewrite <- fmap_app. apply NoDup_fmap_2; [intros a b Hab; by simplify_list_eq|].
    apply NoDup_filter_split, NoDup_listdir.
  - intros p Hp Hp'. rewrite <- fmap_app in Hp.
    apply list_elem_of_fmap in Hp as (name & -> & _).
    apply list_elem_of_In, in_flat_map in Hp' as (d & _ & Hp').
    apply list_elem_of_In, walk_items_below in Hp' as (rel & name' & Heq).
    rewrite <- app_assoc in Heq. apply app_inv_head in Heq.
    apply (f_equal length) in Heq. simpl in Heq. rewrite length_app in Heq.
    simpl in Heq. lia.
  - apply NoDup_flat_map.
    + pose proof (NoDup_filter_split (fun ent : string * node => ent.2 = Dir) _
                    (NoDup_listdir w top)) as Hnd.
      by apply NoDup_app in Hnd as [? _].
    + intros d _. apply IH.
    + intros d d' p _ _ (rel & name & ->)%walk_items_below
        (rel' & name' & Heq)%walk_items_below.
      rewrite <- !app_assoc in Heq. apply app_inv_head in Heq. by simplify_list_eq.
Qed.

(** X1.  [fetch_files_and_dirs] never raises and leaves the world as it
    is; its list holds no path twice, and every path of it is an existing
    entry strictly below the directory: the directory itself is never
    listed. *)
Theorem fetch_files_and_dirs_NoDup directory w :
  exists items,
    fetch_files_and_dirs directory w = (w, Return items) /\
    NoDup items /\
    (directory ∉ items) /\
    forall p, p ∈ items -> below directory p /\ is_Some (tree w !! p).
Proof.
  destruct (fetch_files_and_dirs_inv directory w w _ (fetch_files_and_dirs_items _ _))
    as (_ & items & [= <-] & Hsound & _).
  eexists. split_and!; [done|apply walk_items_NoDup| |].
  - intros (rel & name & Heq)%walk_items_below.
    rewrite <- (app_nil_r directory) in Heq at 1. apply app_inv_head in Heq.
    by destruct rel.
  - intros p Hp. by destruct (Hsound p Hp) as (? & ? & _).
Qed.

Lemma flat_map_split {A B} (f : A -> list B) (l : list A) : forall l1 y l2,
  flat_map f l = l1 ++ y :: l2 ->
  exists ds1 d ds2 m1 m2,
    l = ds1 ++ d :: ds2 /\ f d = m1 ++ y :: m2 /\ l1 = flat_map f ds1 ++ m1.
Proof.
  induction l as [|d ds IH]; intros l1 y l2 Heq; simpl in Heq.
  - by destruct l1.
  - apply app_eq_inv in Heq as [(k & Hfd & Hk)|(k & Hl1 & Hk)].
    + destruct k as [|y' k].
      * simpl in Hk. rewrite app_nil_r in Hfd. subst l1.
        destruct (IH [] y l2) as (ds1 & d' & ds2 & m1 & m2 & -> & Hd' & Hnil); [done|].
        exists (d :: ds1), d', ds2, m1, m2. split_and!; [done..|].
        simpl. by rewrite <- app_assoc, <- Hnil, app_nil_r.
      * injection Hk as <- _. exists [], d, ds, l1, k. by split_and!.
    + destruct (IH k y l2) as (ds1 & d' & ds2 & m1 & m2 & -> & Hd' & ->); [done|].
      exists (d :: ds1), d', ds2, m1, m2. split_and!; [done..|].
      simpl. by rewrite <- app_assoc.
Qed.

Lemma walk_items_parents_first w : forall fuel top,
  parents_first top (flat_map walk_items (os_walk fuel w top)).
Proof.
  induction fuel as [|fuel IH]; intros top l1 p l2 Heq; [by destruct l1|].
  destruct (decide (tree w !! top = Some Dir)) as [Htop|Htop];
    [|rewrite walk_items_skip in Heq by auto; by destruct l1].
  destruct (faults w (Scandir top)) as [e|] eqn:Hf;
    [rewrite walk_items_skip in Heq by (right; by rewrite Hf); by destruct l1|].
  rewrite (walk_items_step _ _ _ Htop Hf), app_assoc, <- fmap_app in Heq.
  set (dirs := (filter (fun ent : string * node => ent.2 = Dir) (listdir w top)).*1) in *.
  set (children := (fun d => top ++ [d]) <$> dirs ++ _) in *.
  assert (forall k, (exists k', flat_map (fun d => flat_map walk_items
                                 (os_walk fuel w (top ++ [d]))) dirs
                     = k ++ p :: k') ->
            dirname p = top \/ dirname p ∈ children ++ k) as Hsub.
  { intros k [k' Hk].
    apply flat_map_split in Hk as (ds1 & d & ds2 & m1 & m2 & Hd & Hfd & ->).
    right. destruct (IH (top ++ [d]) m1 p m2 Hfd) as [->|Hin].
    - apply elem_of_app. left. apply list_elem_of_fmap. exists d. split; [done|].
      apply elem_of_app. left. rewrite Hd. apply elem_of_app. right. by left.
    - rewrite !elem_of_app. auto. }
  apply app_eq_inv in Heq as [(k & Hc & Hk)|(k & -> & Hk)].
  - destruct k as [|p' k].
    + simpl in Hk. rewrite app_nil_r in Hc. subst l1.
      rewrite <- (app_nil_r children). apply Hsub. exists l2. by rewrite <- Hk.
    + injection Hk as <- _. left.
      assert (p ∈ children) as Hin by (rewrite Hc, elem_of_app; right; by left).
      apply list_elem_of_fmap in Hin as (name & -> & _). apply dirname_app.
  - apply Hsub. by exists l2.
Qed.

(** X2.  [fetch_files_and_dirs] lists top-down: wherever an entry stands
    in the list, the directory that holds it is the directory walked or
    stands earlier in the list.  ([update_replica], which runs through the
    list in order, so meets a directory before the entries in it.) *)
Theorem fetch_files_and_dirs_parents_first directory w :
  exists items,
    fetch_files_and_dirs directory w = (w, Return items) /\
    parents_first directory items.
Proof.
  eexists. split; [apply fetch_files_and_dirs_items|apply walk_items_parents_first].
Qed.

(** X3.  [fetch_files_and_dirs] returns the empty list, and raises
    nothing, exactly when the path is not a directory (it is missing or a
    regular file), or the directory cannot be listed, or it is empty: the
    caller cannot tell these cases apart. *)
Theorem fetch_files_and_dirs_empty directory w :
  fetch_files_and_dirs directory w = (w, Return []) <->
  tree w !! directory <> Some Dir \/
  faults w (Scandir directory) <> None \/
  forall name, tree w !! (directory ++ [name]) = None.
Proof.
  rewrite fetch_files_and_dirs_items.
  destruct (decide (tree w !! directory = Some Dir)) as [Htop|Htop];
    [|rewrite walk_items_skip by auto; split; auto].
  destruct (faults w (Scandir directory)) as [e|] eqn:Hf;
    [rewrite walk_items_skip by (right; by rewrite Hf); split; auto|].
  rewrite (walk_items_step _ _ _ Htop Hf). split.
  - intros [= Heq]. right. right. apply listdir_nil.
    apply app_eq_nil in Heq as [Hd [Hn _]%app_eq_nil].
    apply fmap_nil_inv, fmap_nil_inv in Hd. apply fmap_nil_inv, fmap_nil_inv in Hn.
    destruct (listdir w directory) as [|ent l]; [done|].
    rewrite !filter_cons in Hd, Hn.
    destruct (decide (ent.2 = Dir)); [done|]. by rewrite decide_True in Hn.
  - intros [?|[?|Hnil]]; [done..|]. apply listdir_nil in Hnil. by rewrite Hnil.
Qed.

(* ===================================================================== *)
(** * Digests                                                              *)
(* ===================================================================== *)

(** The test suite of RFC 1321, appendix A.5. *)
Example md5_test_suite :
  MD5.md5 (bytes "") = "d41d8cd98f00b204e9800998ecf8427e" /\
  MD5.md5 (bytes "a") = "0cc175b9c0f1b6a831c399e269772661" /\
  MD5.md5 (bytes "abc") = "900150983cd24fb0d6963f7d28e17f72" /\
  MD5.md5 (bytes "message digest") = "f96b697d7cb7938d525a2f31aaf161d0" /\
  MD5.md5 (bytes "abcdefghijklmnopqrstuvwxyz") = "c3fcd3d76192e4007dfb496cca67e13b" /\
  MD5.md5 (bytes "ABCDEFGHIJKLMNOPQRSTUVWXYZabcdefghijklmnopqrstuvwxyz0123456789")
  = "d174ab98d277d9f5a5611c2c9f419d9f" /\
  MD5.md5 (bytes ("1234567890123456789012345678901234567890" +:+
                  "1234567890123456789012345678901234567890"))
  = "57edf4a22be3c955ac49da2e2107b67a".
Proof. vm_compute. by split_and!. Qed.

Lemma le_bytes_length n : forall x, length (MD5.le_bytes n x) = n.
Proof. induction n as [|n IH]; intros x; simpl; [done|by rewrite IH]. Qed.

Lemma le_bytes_range n : forall x,
  Forall (fun b => 0 <= b < 256)%Z (MD5.le_bytes n x).
Proof.
  induction n as [|n IH]; intros x; simpl; constructor; [|apply IH].
  apply Z.mod_pos_bound. lia.
Qed.

Lemma hex_digit_hex x :
  (0 <= x < 16)%Z ->
  MD5.hex_digit x ∈ String.list_ascii_of_string "0123456789abcdef".
Proof.
  intros Hx. unfold MD5.hex_digit. apply list_elem_of_In, nth_In. simpl. lia.
Qed.

Lemma string_of_list_ascii_length l :
  String.length (String.string_of_list_ascii l) = length l.
Proof. induction l as [|c l IH]; simpl; [done|by rewrite IH]. Qed.

(** A digest is 32 hexadecimal digits in lower case. *)
Lemma md5_format data :
  String.length (MD5.md5 data) = 32 /\
  Forall (fun c => c ∈ String.list_ascii_of_string "0123456789abcdef")
         (String.list_ascii_of_string (MD5.md5 data)).
Proof.
  with_strategy transparent [MD5.md5] (unfold MD5.md5).
  unfold MD5.hex, MD5.digest_bytes.
  set (r := foldl MD5.compress _ _). clearbody r.
  set (bs := MD5.le_bytes 4 _ ++ _).
  assert (length bs = 16) as Hlen by (unfold bs; by rewrite !length_app, !le_bytes_length).
  assert (Forall (fun b => 0 <= b < 256)%Z bs) as Hrange
    by (unfold bs; rewrite !Forall_app; split_and!; apply le_bytes_range).
  clearbody bs. split.
  - rewrite string_of_list_ascii_length.
    clear Hrange. do 17 (destruct bs as [|? bs]; try done).
  - rewrite String.list_ascii_of_string_of_list_ascii.
    clear Hlen. induction Hrange as [|b bs Hb _ IH]; simpl; [constructor|].
    constructor; [|constructor; [|done]]; apply hex_digit_hex.
    + split; [apply Z.div_pos; lia|apply Z.div_lt_upper_bound; lia].
    + apply Z.mod_pos_bound. lia.
Qed.

(** X4.  Whatever the chunk size, the string that [generate_md5] returns
    is 32 hexadecimal digits in lower case, and the call changes nothing. *)
Theorem generate_md5_hexdigest p chunk_size w w' s :
  generate_md5 p chunk_size w = (w', Return s) ->
  w' = w /\ String.length s = 32 /\
  Forall (fun c => c ∈ String.list_ascii_of_string "0123456789abcdef")
         (String.list_ascii_of_string s).
Proof.
  unfold generate_md5. intros H.
  apply bind_inv in H as [(w1 & f & Hop & Hret)|(e & _ & [=])].
  apply open_read_inv in Hop as [-> _]. injection Hret as <- <-.
  split; [done|]. unfold hexdigest. apply md5_format.
Qed.

Lemma generate_md5_hexdigest_witness :
  String.length "5d41402abc4b2a76b9719d911017c592" = 32 /\
  generate_md5 ["src"; "a.txt"] 4096 world_scenarios
  = (world_scenarios, Return "5d41402abc4b2a76b9719d911017c592").
Proof.
  assert (generate_md5 ["src"; "a.txt"] 4096 world_scenarios
          = (world_scenarios, Return "5d41402abc4b2a76b9719d911017c592")) as H
    by (vm_compute; reflexivity).
  split; [|exact H].
  exact (proj1 (proj2 (generate_md5_hexdigest _ _ _ _ _ H))).
Defined.

(** X5.  The digest that [generate_md5] returns for a readable file does
    not depend on the chunk size, as long as it is positive: reading by
    chunks gives the digest of the whole content.  With a chunk size of
    zero the first read is empty, the loop is not entered, and the result
    is the digest of the empty string whatever the file holds. *)
Theorem generate_md5_chunk_size p w data mtime :
  tree w !! p = Some (File data mtime) ->
  faults w (OpenRead p) = None ->
  (forall chunk_size, 0 < chunk_size ->
     generate_md5 p chunk_size w = (w, Return (MD5.md5 data))) /\
  generate_md5 p 0 w = (w, Return (MD5.md5 [])).
Proof.
  intros Hp Hf. split.
  - intros chunk_size Hpos. by apply (generate_md5_file _ _ _ data mtime).
  - unfold generate_md5, bind, open_read. by rewrite Hp, Hf.
Qed.

Lemma generate_md5_chunk_size_witness :
  generate_md5 ["src"; "a.txt"] 1 world_scenarios
  = (world_scenarios, Return (MD5.md5 (bytes "hello"))) /\
  generate_md5 ["src"; "a.txt"] 0 world_scenarios
  = (world_scenarios, Return (MD5.md5 [])).
Proof.
  destruct (generate_md5_chunk_size ["src"; "a.txt"] world_scenarios
              (bytes "hello") 1) as [Hpos Hzero];
    [vm_compute; reflexivity..|].
  split; [apply Hpos; lia|exact Hzero].
Defined.

(* ===================================================================== *)
(** * The comparison                                                       *)
(* ===================================================================== *)

(** X6.  [files_equal] changes nothing, whatever it returns or raises;
    and on the files it can read it is an equivalence: a file equals
    itself, the order of the two arguments does not matter, and two files
    equal to a third are equal. *)
Theorem files_equal_equivalence w :
  (forall l r w' o, files_equal l r w = (w', o) -> w' = w) /\
  (forall l b, files_equal l l w = (w, Return b) -> b = true) /\
  (forall l r b, files_equal l r w = (w, Return b) ->
                 files_equal r l w = (w, Return b)) /\
  (forall l m r,
     files_equal l m w = (w, Return true) ->
     files_equal m r w = (w, Return true) ->
     files_equal l r w = (w, Return true)).
Proof.
  split_and!.
  - intros l r w' o H. by apply files_equal_inv in H as [-> _].
  - intros l b H. apply files_equal_inv in H as [_ H].
    destruct (H b eq_refl) as (dl & ml & dr & mr & Hl & Hr & _ & _ & ->).
    apply bool_decide_eq_true. congruence.
  - intros l r b H. apply files_equal_inv in H as [_ H].
    destruct (H b eq_refl) as (dl & ml & dr & mr & Hl & Hr & Fl & Fr & ->).
    rewrite (files_equal_files _ _ _ _ _ _ _ Hr Hl Fr Fl). do 2 f_equal.
    apply bool_decide_ext. split; congruence.
  - intros l m r H1 H2. apply files_equal_inv in H1 as [_ H1], H2 as [_ H2].
    destruct (H1 true eq_refl) as (dl & ml & dm & mm & Hl & Hm & Fl & Fm & E1).
    destruct (H2 true eq_refl) as (dm' & mm' & dr & mr & Hm' & Hr & _ & Fr & E2).
    rewrite (files_equal_files _ _ _ _ _ _ _ Hl Hr Fl Fr). do 2 f_equal.
    symmetry in E1, E2. apply bool_decide_eq_true in E1, E2.
    apply bool_decide_eq_true. congruence.
Qed.

(* ===================================================================== *)
(** * What the loops leave alone, however they end                         *)
(* ===================================================================== *)

Lemma kind_of_Some o : is_Some (kind_of o) <-> is_Some o.
Proof. destruct o as [[]|]; simpl; split; intros [? ?]; eauto; done. Qed.

Lemma update_effect_kind sp rp w w' o :
  update_effect sp rp w w' o ->
  forall k, is_Some (tree w !! k) -> kind_of (tree w' !! k) = kind_of (tree w !! k).
Proof.
  intros (_ & _ & Ht & _) k Hk.
  destruct (Ht k) as [->|[(Hnone & _)|(-> & Hd & Hf & [Hnew _] & _)]]; [done| |].
  - rewrite Hnone in Hk. by destruct Hk.
  - destruct (tree w' !! rp) as [[]|]; try done.
    by destruct (tree w !! rp) as [[]|]; try done; destruct Hk.
Qed.

Lemma update_replica_kind self items w w' o :
  update_replica self items w = (w', o) ->
  forall k, is_Some (tree w !! k) ->
            kind_of (tree w' !! k) = kind_of (tree w !! k).
Proof.
  apply (for_preserves (fun w w' => forall k, is_Some (tree w !! k) ->
           kind_of (tree w' !! k) = kind_of (tree w !! k))).
  - done.
  - intros w1 w2 w3 H12 H23 k Hk. rewrite <- (H12 k Hk). apply H23.
    apply kind_of_Some. rewrite (H12 k Hk). by apply kind_of_Some.
  - intros sp w1 w2 o2 _ Heff%update_entry_effect. by eapply update_effect_kind.
Qed.

(** X7.  [update_replica] removes nothing and changes the kind of
    nothing, whatever list it is given, whatever the environment refuses
    and however the loop ends: an entry that was there is still there, a
    directory still a directory, a file still a file; and the log is only
    appended to. *)
Theorem update_replica_never_removes self items w w' o :
  update_replica self items w = (w', o) ->
  faults w' = faults w /\
  (exists l, log w' = log w ++ l) /\
  forall k, is_Some (tree w !! k) ->
            kind_of (tree w' !! k) = kind_of (tree w !! k).
Proof.
  intros H. destruct (update_replica_log _ _ _ _ _ H) as [Hf Hl].
  split_and!; [done..|]. by eapply update_replica_kind.
Qed.

Lemma update_replica_never_removes_witness :
  kind_of (tree (update_replica fs_example [["src"; "b.txt"]] world_scenarios).1
             !! ["rep"; "b.txt"])
  = kind_of (tree world_scenarios !! ["rep"; "b.txt"]).
Proof.
  apply (update_replica_never_removes fs_example [["src"; "b.txt"]] world_scenarios
           _ (update_replica fs_example [["src"; "b.txt"]] world_scenarios).2).
  - apply surjective_pairing.
  - vm_compute. by eexists.
Defined.

(** The loop of [cleanup_replica], however it ends: the source is as it
    was, nothing is added or changed, and what is removed lies at or below
    an item that is not in the source. *)
Lemma cleanup_replica_frame self w0 items w1 w2 o :
  disjoint_roots self ->
  Forall (below (replica_dir self)) items ->
  source_kept self w0 w1 -> wf (tree w1) ->
  cleanup_replica self items w1 = (w2, o) ->
  source_kept self w0 w2 /\ wf (tree w2) /\
  forall k, tree w2 !! k = tree w1 !! k \/
    (tree w2 !! k = None /\
     exists rel, rel <> [] /\ replica_dir self ++ rel `prefix_of` k /\
                 tree w0 !! (source_dir self ++ rel) = None).
Proof.
  intros Hdisj Hbelow Hkept Hwf H. revert Hkept Hwf.
  apply (for_preserves (fun w1 w2 =>
           source_kept self w0 w1 -> wf (tree w1) ->
           source_kept self w0 w2 /\ wf (tree w2) /\
           forall k, tree w2 !! k = tree w1 !! k \/
             (tree w2 !! k = None /\
              exists rel, rel <> [] /\ replica_dir self ++ rel `prefix_of` k /\
                          tree w0 !! (source_dir self ++ rel) = None)))
    with (l := items) (body := cleanup_entry self) (o := o); [| | |done].
  - intros w ??. split_and!; [done..|]. by left.
  - intros wa wb wc Hab Hbc Hka Hwa.
    destruct (Hab Hka Hwa) as (Hkb & Hwb & Htb).
    destruct (Hbc Hkb Hwb) as (Hkc & Hwc & Htc). split_and!; [done..|].
    intros k. destruct (Htc k) as [->|?]; [apply Htb|by right].
  - intros rp wa wb ob Hin Hstep Hka Hwa.
    rewrite Forall_forall in Hbelow. destruct (Hbelow rp Hin) as (rel & Hrel & ->).
    apply cleanup_entry_effect in Hstep; [|done].
    rewrite (source_path_of_join _ _ Hrel) in Hstep.
    pose proof Hstep as (_ & Hwfb & Ht & _). split_and!.
    + by eapply cleanup_effect_source_kept.
    + auto.
    + intros k. destruct (Ht k) as [?|(Hnone & Hpre & Hsp)]; [by left|right].
      split; [done|]. exists rel. split_and!; [done..|].
      by rewrite <- (Hka (source_dir self ++ rel)) by apply prefix_of_join_l.
Qed.

(** X8.  [cleanup_replica] over entries of the replica, on a well-formed
    tree with roots that do not contain one another, whatever the
    environment refuses and however the loop ends: it creates and changes
    nothing, what it removes lies below the replica root, and the source
    is untouched.  In an environment that refuses nothing, no entry whose
    relative path exists in the source is removed. *)
Theorem cleanup_replica_spares self items w w' o :
  wf (tree w) -> disjoint_roots self ->
  Forall (below (replica_dir self)) items ->
  cleanup_replica self items w = (w', o) ->
  (forall k, tree w' !! k = tree w !! k \/
             (tree w' !! k = None /\ below (replica_dir self) k)) /\
  source_kept self w w' /\
  (refuses_nothing w ->
   forall rel, is_Some (tree w !! (source_dir self ++ rel)) ->
     tree w' !! (replica_dir self ++ rel) = tree w !! (replica_dir self ++ rel)).
Proof.
  intros Hwf Hdisj Hbelow H.
  destruct (cleanup_replica_frame self w items w w' o) as (Hkept & _ & Ht);
    [done..|by intros ?|done|done|].
  split_and!; [|done|].
  - intros k. destruct (Ht k) as [?|(Hnone & rel & Hrel & [q ->] & _)]; [by left|right].
    split; [done|]. exists (rel ++ q). split; [by destruct rel|by rewrite app_assoc].
  - intros _ rel Hsome.
    destruct (Ht (replica_dir self ++ rel)) as [?|(_ & rel' & _ & Hpre & Hnone)]; [done|].
    exfalso. apply prefix_app_inv in Hpre.
    assert (is_Some (tree w !! (source_dir self ++ rel'))) as [? ?]; [|congruence].
    eapply wf_exists_prefix; [done..|]. by apply prefix_app.
Qed.

Lemma cleanup_replica_spares_witness :
  tree (cleanup_replica fs_example
          [["rep"; "b.txt"]; ["rep"; "extra.txt"]] world_scenarios).1
    !! (replica_dir fs_example ++ ["b.txt"])
  = tree world_scenarios !! (replica_dir fs_example ++ ["b.txt"]).
Proof.
  destruct (cleanup_replica_spares fs_example
              [["rep"; "b.txt"]; ["rep"; "extra.txt"]] world_scenarios
              (cleanup_replica fs_example
                 [["rep"; "b.txt"]; ["rep"; "extra.txt"]] world_scenarios).1
              (cleanup_replica fs_example
                 [["rep"; "b.txt"]; ["rep"; "extra.txt"]] world_scenarios).2)
    as (_ & _ & Hspared).
  - apply wf_check_sound. vm_compute. reflexivity.
  - apply fs_example_disjoint.
  - repeat constructor; [by exists ["b.txt"]|by exists ["extra.txt"]].
  - apply surjective_pairing.
  - apply Hspared; [apply refuses_nothing_no_faults|]. vm_compute. by eexists.
Defined.

Lemma outside_kept_refl rep w : outside_kept rep w w.
Proof. by intros ??. Qed.

Lemma below_root_not (rep : path) : ~ below rep rep.
Proof.
  intros (rel & Hrel & Heq). rewrite <- (app_nil_r rep) in Heq at 1.
  apply app_inv_head in Heq. by subst.
Qed.

Lemma outside_kept_trans rep w1 w2 w3 :
  outside_kept rep w1 w2 -> outside_kept rep w2 w3 -> outside_kept rep w1 w3.
Proof.
  intros H12 H23 Hwf Hrep. destruct (H12 Hwf Hrep) as [Hwf2 Ht2].
  destruct H23 as [Hwf3 Ht3]; [done|by rewrite Ht2 by apply below_root_not|].
  split; [done|]. intros k Hk. by rewrite Ht3, Ht2.
Qed.

Lemma update_replica_outside_kept self items w w' o :
  Forall (below (source_dir self)) items ->
  update_replica self items w = (w', o) ->
  outside_kept (replica_dir self) w w'.
Proof.
  intros Hbelow.
  apply (for_preserves (outside_kept (replica_dir self)));
    [apply outside_kept_refl|apply outside_kept_trans|].
  intros sp w1 w2 o2 Hin Hstep Hwf Hrep.
  rewrite Forall_forall in Hbelow. destruct (Hbelow sp Hin) as (rel & Hrel & ->).
  apply update_entry_effect in Hstep as (_ & Hwf2 & Ht & _).
  rewrite (replica_path_of_join _ _ Hrel) in Ht.
  split; [auto|]. intros k Hk.
  destruct (Ht k) as [?|[(Hnone & _ & Hpre)|(-> & _)]]; [done|exfalso..].
  - apply Hk.
    destruct (prefix_weak_total _ _ _ Hpre (prefix_of_join_l (replica_dir self) rel))
      as [Hkr|[q ->]].
    + destruct (wf_exists_prefix _ _ _ Hwf Hrep Hkr) as [? ?]. congruence.
    + exists q. split; [|done]. intros ->. rewrite app_nil_r in Hnone.
      destruct Hrep. congruence.
  - apply Hk. by exists rel.
Qed.

Lemma cleanup_replica_outside_kept self items w w' o :
  Forall (below (replica_dir self)) items ->
  cleanup_replica self items w = (w', o) ->
  outside_kept (replica_dir self) w w'.
Proof.
  intros Hbelow.
  apply (for_preserves (outside_kept (replica_dir self)));
    [apply outside_kept_refl|apply outside_kept_trans|].
  intros rp w1 w2 o2 Hin Hstep Hwf Hrep.
  rewrite Forall_forall in Hbelow. destruct (Hbelow rp Hin) as (rel & Hrel & ->).
  apply cleanup_entry_effect in Hstep as (_ & Hwf2 & Ht & _); [|done].
  split; [auto|]. intros k Hk.
  destruct (Ht k) as [?|(_ & [q ->] & _)]; [done|exfalso].
  apply Hk. exists (rel ++ q). split; [by destruct rel|by rewrite app_assoc].
Qed.

Lemma fetch_files_and_dirs_below directory w items :
  fetch_files_and_dirs directory w = (w, Return items) ->
  Forall (below directory) items.
Proof.
  intros H. apply fetch_files_and_dirs_inv in H as (_ & its & [= <-] & Hsound & _).
  apply Forall_forall. intros p Hp. by destruct (Hsound p Hp) as [? _].
Qed.

(** X9.  A pass of [synchronize_directories] on a replica root that
    exists acts below that root only, whatever the environment refuses
    and however the pass ends: every entry that is not below the replica
    root, the root itself included, is as it was; in particular the source
    is, when the roots do not contain one another.  The log is only
    appended to. *)
Theorem synchronize_directories_stays_in_replica self w w' o :
  wf (tree w) -> is_Some (tree w !! replica_dir self) ->
  synchronize_directories self w = (w', o) ->
  faults w' = faults w /\
  (exists l, log w' = log w ++ l) /\
  wf (tree w') /\
  (forall k, ~ below (replica_dir self) k -> tree w' !! k = tree w !! k) /\
  (disjoint_roots self -> source_kept self w w').
Proof.
  intros Hwf Hrep H.
  assert (log_grows w w' /\ outside_kept (replica_dir self) w w') as [[Hf Hl] Hout].
  { apply synchronize_directories_inv in H
      as (items_s & w1 & o1 & Hfs & Hu & [(e & -> & -> & ->)|(-> & items_r & Hfr & Hc)]).
    - split; [by eapply update_replica_log|].
      eapply update_replica_outside_kept; [|done].
      by eapply fetch_files_and_dirs_below.
    - pose proof (update_replica_log _ _ _ _ _ Hu) as Hl1.
      pose proof (update_replica_wf _ _ _ _ _ Hu Hwf) as Hwf1.
      destruct (cleanup_replica_log _ _ _ _ _ Hwf1 Hc) as [_ Hl2].
      split; [by eapply log_grows_trans|].
      eapply outside_kept_trans.
      + eapply update_replica_outside_kept; [|done]. by eapply fetch_files_and_dirs_below.
      + eapply cleanup_replica_outside_kept; [|done]. by eapply fetch_files_and_dirs_below. }
  destruct (Hout Hwf Hrep) as [Hwf' Ht]. split_and!; [done..|].
  intros Hdisj k Hk. apply Ht. intros (rel & _ & ->).
  eapply disjoint_roots_both; [done..|apply prefix_of_join_l].
Qed.

Lemma synchronize_directories_stays_in_replica_witness :
  tree (synchronize_directories fs_example world_denied).1 !! ["src"; "a.txt"]
  = tree world_denied !! ["src"; "a.txt"].
Proof.
  destruct (synchronize_directories_stays_in_replica fs_example world_denied
              (synchronize_directories fs_example world_denied).1
              (synchronize_directories fs_example world_denied).2)
    as (_ & _ & _ & Hout & _).
  - apply wf_check_sound. vm_compute. reflexivity.
  - vm_compute. by eexists.
  - apply surjective_pairing.
  - apply Hout. intros (rel & _ & [=]).
Defined.

(* ===================================================================== *)
(** * What the log records say                                             *)
(* ===================================================================== *)

(** When [makedirs p] raises, [p] is as it was. *)
Lemma makedirs_Raise p w w' e :
  makedirs p w = (w', Raise e) -> tree w' !! p = tree w !! p.
Proof.
  unfold makedirs. rewrite <- (reverse_involutive p) at 2 3.
  destruct (reverse p) as [|x rp]; simpl.
  - by intros [[-> _]|[[=] _]]%mkdir_inv.
  - intros H.
    assert (forall w1 o1,
      (e0 <- exists_ (reverse rp) ;;
       if negb e0 then try_except_FileExistsError (makedirs_up rp) else ret tt) w
      = (w1, o1) ->
      tree w1 !! reverse (x :: rp) = tree w !! reverse (x :: rp)) as Hhead.
    { intros w1 o1 H1.
      apply bind_inv in H1 as [(w0 & b & H0 & H1)|(e' & H0 & ?)]; [|done].
      unfold exists_ in H0. injection H0 as <- <-.
      destruct (negb _); [|unfold ret in H1; by injection H1 as <-].
      unfold try_except_FileExistsError in H1.
      destruct (makedirs_up rp w) as [w2 o2] eqn:Hrec.
      apply makedirs_up_grows in Hrec as (_ & _ & _ & Ht).
      assert (w1 = w2) as -> by (repeat case_match; by simplify_eq).
      destruct (Ht (reverse (x :: rp))) as [?|(_ & _ & Hpre)]; [done|].
      apply prefix_length in Hpre. rewrite reverse_cons, length_app in Hpre.
      simpl in Hpre. lia. }
    apply bind_inv in H as [(w1 & [] & H1 & H2)|(e' & H1 & _)]; [|by eapply Hhead].
    apply mkdir_inv in H2 as [[-> _]|[[=] _]]. by eapply Hhead.
Qed.

(** When [rmtree top] raises, [top] is as it was. *)
Lemma rmtree_Raise top w w' e :
  wf (tree w) -> rmtree top w = (w', Raise e) -> tree w' !! top = tree w !! top.
Proof.
  intros Hwf. unfold rmtree. simpl. intros H.
  apply bind_inv in H as [(w1 & ents & H1 & H)|(e' & H1 & _)];
    apply scandir_inv in H1 as [-> _]; [|done].
  assert (forall w2 o2,
    for_ ents (fun ent : string * node =>
      match ent.2 with
      | Dir => rmtree_rec (depth w) (join top [ent.1])
      | File _ _ => remove (join top [ent.1])
      end) w = (w2, o2) -> tree w2 !! top = tree w !! top) as Hloop.
  { intros w2 o2 Hl.
    enough (wf (tree w) -> wf (tree w2) /\ tree w2 !! top = tree w !! top) as Hen
      by (by destruct (Hen Hwf)).
    revert Hl. apply (for_preserves (fun w w2 => wf (tree w) ->
             wf (tree w2) /\ tree w2 !! top = tree w !! top)).
    - done.
    - intros wa wb wc Hab Hbc Hwa. destruct (Hab Hwa) as [Hwb Hb].
      destruct (Hbc Hwb) as [Hwc Hc]. split; [done|congruence].
    - intros [name nd] wa wb ob _ Hbody Hwa. simpl in Hbody.
      assert (shrinks (join top [name]) wa wb) as (_ & _ & Hwb & Ht)
        by (destruct nd; [by eapply remove_shrinks|by eapply rmtree_rec_shrinks]).
      split; [auto|]. destruct (Ht top) as [?|[_ Hpre]]; [done|].
      apply prefix_length in Hpre. unfold join in Hpre. rewrite length_app in Hpre.
      simpl in Hpre. lia. }
  apply bind_inv in H as [(w2 & [] & H2 & H)|(e' & H2 & _)]; [|by eapply Hloop].
  apply rmdir_inv in H as [[-> _]|[[=] _]]. by eapply Hloop.
Qed.

(** X10.  What an iteration of [update_replica] logs is true of the world
    it leaves.  It logs at most one record.  After [Directory created]
    the replica path, which was not there, is a directory; after
    [File copied] it holds what the source file holds, bytes and
    modification time; after a warning the replica path is as it was, or
    (the copy was refused once the bytes were written) it is a file with
    the bytes of the source file; and an iteration that ends well and
    logs nothing has changed nothing. *)
Theorem update_entry_log_truthful self sp w w' o :
  update_entry self sp w = (w', o) ->
  (log w' = log w /\ (o = Return tt -> w' = w)) \/
  (log w' = log w ++ [(DEBUG, DirectoryCreated (replica_path_of self sp))] /\
   o = Return tt /\ is_dir (tree w !! sp) = true /\
   tree w !! replica_path_of self sp = None /\
   tree w' !! replica_path_of self sp = Some Dir) \/
  (log w' = log w ++ [(DEBUG, FileCopied (replica_path_of self sp) sp)] /\
   o = Return tt /\ is_file (tree w !! sp) = true /\
   tree w' !! replica_path_of self sp = tree w !! sp) \/
  (exists m, log w' = log w ++ [(WARNING, m)] /\ o = Return tt /\
     (tree w' !! replica_path_of self sp = tree w !! replica_path_of self sp \/
      exists data mtime mtime',
        tree w !! sp = Some (File data mtime) /\
        tree w' !! replica_path_of self sp = Some (File data mtime'))).
Proof.
  intros H%update_entry_case.
  assert (forall w0,
    (tree w !! replica_path_of self sp = None /\ w0 = w) \/
    (is_Some (tree w !! replica_path_of self sp) /\
     files_equal sp (replica_path_of self sp) w = (w0, Return false)) ->
    w0 = w /\ is_dir (tree w !! replica_path_of self sp) = false) as Hpre.
  { intros w0 [[Hnone ->]|[_ Heq]]; [by rewrite Hnone|].
    apply files_equal_inv in Heq as [-> Heq]. split; [done|].
    destruct (Heq _ eq_refl) as (? & ? & ? & ? & _ & Hr & _). by rewrite Hr. }
  destruct H as [Hd Hr|w1 Hd Hr Hop|w1 Hd Hr Hop|w1 e Hd Hr Hop He|w1 e Hd Hr Hop
                |w1 Hd Hr Hop|w0 w1 Hd Hc Hop|w0 w1 Hd Hc Hop|w0 w1 e Hd Hc Hop He].
  - by left.
  - right. left. pose proof (makedirs_grows _ _ _ _ Hop) as (_ & Hl & _).
    rewrite log_emit, Hl. split_and!; [done..|]. by apply makedirs_Return in Hop.
  - do 3 right. pose proof (makedirs_grows _ _ _ _ Hop) as (_ & Hl & _).
    eexists. rewrite log_emit, Hl. split_and!; [done..|]. left.
    by apply makedirs_Raise in Hop.
  - left. pose proof (makedirs_grows _ _ _ _ Hop) as (_ & Hl & _). by split.
  - left. apply files_equal_inv in Hop as [-> _]. by split.
  - left. apply files_equal_inv in Hop as [-> _]. by split.
  - right. right. left. destruct (Hpre _ Hc) as [-> Hnd].
    apply copy2_inv in Hop
      as [[_ [? [=]]]|[(_ & Hne & data & mtime & Hsp & _ & _ & _ & ->)
                      |(? & [=] & _)]]; [|done].
    rewrite log_emit. simpl. split_and!; [done..|by rewrite Hsp|].
    by rewrite lookup_insert_eq.
  - do 3 right. destruct (Hpre _ Hc) as [-> Hnd].
    apply copy2_inv in Hop
      as [[-> _]|[[[=] _]
                 |(e0 & _ & _ & data & mtime & Hsp & _ & _ & _ & _ & ->)]]; [| |done].
    + eexists. rewrite log_emit. split_and!; [done..|]. by left.
    + eexists. rewrite log_emit. split_and!; [done..|]. right.
      exists data, mtime, 0%Z. split; [done|]. simpl. by rewrite lookup_insert_eq.
  - left. destruct (Hpre _ Hc) as [-> Hnd].
    apply copy2_inv in Hop
      as [[-> _]|[[[=] _]
                 |(e0 & _ & _ & data & mtime & Hsp & _ & _ & _ & _ & ->)]];
      [| |done]; by split.
Qed.

Lemma update_entry_log_truthful_witness :
  tree (update_entry fs_example ["src"; "b.txt"] world_scenarios).1
    !! replica_path_of fs_example ["src"; "b.txt"]
  = tree world_scenarios !! ["src"; "b.txt"].
Proof.
  destruct (update_entry_log_truthful fs_example ["src"; "b.txt"] world_scenarios
              _ _ (surjective_pairing _))
    as [[H _]|[(H & _)|[(_ & _ & _ & H)|(m & H & _)]]].
  - vm_compute in H. discriminate H.
  - vm_compute in H. discriminate H.
  - exact H.
  - vm_compute in H. discriminate H.
Defined.

(** X11.  What an iteration of [cleanup_replica] logs is true of the
    world it leaves.  It logs at most one record.  After
    [Directory removed] nothing is left at or below the path, which was a
    directory; after [File removed] the path, which was a file, is gone;
    after a warning the entry is still there as it was; and an iteration
    that ends well and logs nothing has changed nothing. *)
Theorem cleanup_entry_log_truthful self rp w w' o :
  wf (tree w) ->
  cleanup_entry self rp w = (w', o) ->
  (log w' = log w /\ (o = Return tt -> w' = w)) \/
  (log w' = log w ++ [(DEBUG, DirectoryRemoved rp)] /\ o = Return tt /\
   is_dir (tree w !! rp) = true /\
   forall k, rp `prefix_of` k -> tree w' !! k = None) \/
  (log w' = log w ++ [(DEBUG, FileRemoved rp)] /\ o = Return tt /\
   is_file (tree w !! rp) = true /\
   tree w' !! rp = None) \/
  (exists m, log w' = log w ++ [(WARNING, m)] /\ o = Return tt /\
     tree w' !! rp = tree w !! rp).
Proof.
  intros Hwf H%cleanup_entry_case.
  destruct H as [_|w1 Hs Hd Hop|w1 Hs Hd Hop|w1 e Hs Hd Hop He
                |w1 Hs Hd Hop|w1 Hs Hd Hop|w1 e Hs Hd Hop He].
  - by left.
  - right. left. pose proof (rmtree_shrinks _ _ _ _ Hwf Hop) as (_ & Hl & Hwf1 & _).
    rewrite log_emit, Hl. split_and!; [done..|]. intros k Hk. simpl.
    apply rmtree_Return in Hop.
    destruct (tree w1 !! k) eqn:Hk1; [|done].
    destruct (wf_exists_prefix _ _ _ (Hwf1 Hwf) (mk_is_Some _ _ Hk1) Hk). congruence.
  - do 3 right. pose proof (rmtree_shrinks _ _ _ _ Hwf Hop) as (_ & Hl & _).
    eexists. rewrite log_emit, Hl. split_and!; [done..|]. simpl.
    exact (rmtree_Raise _ _ _ _ Hwf Hop).
  - left. pose proof (rmtree_shrinks _ _ _ _ Hwf Hop) as (_ & Hl & _). by split.
  - right. right. left.
    apply remove_inv in Hop as [[_ [? [=]]]|(_ & _ & _ & ->)].
    rewrite log_emit. simpl. split_and!; [done..|]. by rewrite lookup_delete_eq.
  - do 3 right. apply remove_inv in Hop as [[-> _]|[[=] _]].
    eexists. by rewrite log_emit.
  - left. apply remove_inv in Hop as [[-> _]|[[=] _]]. by split.
Qed.

Lemma cleanup_entry_log_truthful_witness :
  tree (cleanup_entry fs_example ["rep"; "old"] world_scenarios).1
    !! ["rep"; "old"; "n"] = None.
Proof.
  destruct (cleanup_entry_log_truthful fs_example ["rep"; "old"] world_scenarios
              (cleanup_entry fs_example ["rep"; "old"] world_scenarios).1
              (cleanup_entry fs_example ["rep"; "old"] world_scenarios).2)
    as [[H _]|[(_ & _ & _ & H)|[(H & _)|(m & H & _)]]].
  - apply wf_check_sound. vm_compute. reflexivity.
  - apply surjective_pairing.
  - vm_compute in H. discriminate H.
  - apply H. by exists ["n"].
  - vm_compute in H. discriminate H.
  - vm_compute in H. discriminate H.
Defined.

(* ===================================================================== *)
(** * The two path computations                                            *)
(* ===================================================================== *)

(** X12.  The path computations of the two loops undo one another: for an
    entry below the source root, [update_replica] computes the path with
    the same relative part below the replica root, and from that path
    [cleanup_replica] computes the entry again; and the other way round. *)
Theorem replica_path_round_trip self rel :
  rel <> [] ->
  replica_path_of self (source_dir self ++ rel) = replica_dir self ++ rel /\
  source_path_of self (replica_path_of self (source_dir self ++ rel))
  = source_dir self ++ rel /\
  replica_path_of self (source_path_of self (replica_dir self ++ rel))
  = replica_dir self ++ rel.
Proof.
  intros Hrel.
  by rewrite (replica_path_of_join _ _ Hrel), !(source_path_of_join _ _ Hrel),
    (replica_path_of_join _ _ Hrel).
Qed.

Lemma replica_path_round_trip_witness :
  replica_path_of fs_example (source_dir fs_example ++ ["d"; "e"])
  = replica_dir fs_example ++ ["d"; "e"] /\
  source_path_of fs_example
    (replica_path_of fs_example (source_dir fs_example ++ ["d"; "e"]))
  = source_dir fs_example ++ ["d"; "e"] /\
  replica_path_of fs_example
    (source_path_of fs_example (replica_dir fs_example ++ ["d"; "e"]))
  = replica_dir fs_example ++ ["d"; "e"].
Proof. apply replica_path_round_trip. discriminate. Defined.

(* ===================================================================== *)
(** * A source root that is not a directory                                *)
(* ===================================================================== *)

Lemma deletable_no_faults t l : deletable (World t no_faults l).
Proof. by intros p. Qed.

(** X13.  Take a well-formed tree, roots that do not contain one another,
    and an environment that refuses nothing.  When the source root is not
    a directory at the time of a pass (it is missing, or a regular file),
    the pass ends well, logs no warning, and removes every entry below
    the replica root; apart from the log file, every entry that is not
    below the replica root is as it was. *)
Theorem source_not_a_directory_empties_replica self w :
  wf (tree w) -> disjoint_roots self -> refuses_nothing w ->
  tree w !! source_dir self <> Some Dir ->
  exists w',
    synchronize_directories self w = (w', Return tt) /\
    warnings (log w') = warnings (log w) /\
    (forall k, below (replica_dir self) k -> tree w' !! k = None) /\
    (forall k, ~ below (replica_dir self) k -> k <> logfile self ->
               tree w' !! k = tree w !! k).
Proof.
  intros Hwf Hdisj Hdel%refuses_nothing_deletable Hsrc.
  assert (forall rel, rel <> [] -> tree w !! (source_dir self ++ rel) = None) as Hnone.
  { intros rel Hrel. destruct (tree w !! (source_dir self ++ rel)) eqn:Hk; [|done].
    destruct Hsrc. by apply (wf_ancestor _ _ rel Hwf). }
  destruct (fetch_files_and_dirs_Return (replica_dir self) w) as [items Hfetch].
  pose proof Hfetch as Hfetch'.
  apply fetch_files_and_dirs_inv in Hfetch' as (_ & its & Heq & Hsound & Hcomplete).
  injection Heq as <-.
  pose proof (fetch_files_and_dirs_below _ _ _ Hfetch) as Hbelow.
  destruct (cleanup_replica_total self items w) as (w' & Hloop & Hwarn); [done..| |].
  { eapply Forall_impl; [done|]. intros p. apply below_ne. }
  destruct (cleanup_replica_loop self w Hdisj items w w')
    as (_ & _ & Ht & Hgone); try done.
  exists w'. split_and!; [|done| |].
  - unfold synchronize_directories.
    rewrite (bind_Return _ _ w w []);
      [|rewrite fetch_files_and_dirs_items, walk_items_skip by auto; done].
    unfold update_replica. simpl. unfold bind at 1, ret at 1.
    by rewrite (bind_Return _ _ _ _ _ Hfetch).
  - intros k (rel & Hrel & ->).
    destruct (tree w !! (replica_dir self ++ rel)) as [nd|] eqn:Hrp.
    + apply Hgone; [done| |by apply Hnone].
      apply Hcomplete; [done|by exists rel|by rewrite Hrp|].
      intros q _ _ _. apply Hdel.
    + destruct (Ht (replica_dir self ++ rel)) as [?|[? _]]; congruence.
  - intros k Hk _. destruct (Ht k) as [?|(_ & rel & Hrel & [q ->] & _)]; [done|].
    destruct Hk. exists (rel ++ q). split; [by destruct rel|by rewrite app_assoc].
Qed.

Lemma source_not_a_directory_empties_replica_witness :
  exists w',
    synchronize_directories fs_example world_source_gone = (w', Return tt) /\
    tree w' !! ["rep"; "a.txt"] = None /\
    tree w' !! ["rep"; "d"; "f"] = None /\
    tree w' !! ["rep"] = Some Dir.
Proof.
  destruct (source_not_a_directory_empties_replica fs_example world_source_gone)
    as (w' & Hpass & _ & Hgone & Hkept).
  - apply wf_check_sound. vm_compute. reflexivity.
  - apply fs_example_disjoint.
  - apply refuses_nothing_no_faults.
  - vm_compute. discriminate.
  - exists w'. split_and!; [exact Hpass|..].
    + apply Hgone. exists ["a.txt"]. split; [intros [=]|reflexivity].
    + apply Hgone. exists ["d"; "f"]. split; [intros [=]|reflexivity].
    + rewrite Hkept; [vm_compute; reflexivity|apply below_root_not|discriminate].
Defined.

(* ===================================================================== *)
(** * A directory that could not be created                                *)
(* ===================================================================== *)

Lemma missing_cases w p :
  missing w p = FileNotFoundError \/ missing w p = NotADirectoryError.
Proof. unfold missing. destruct (existsb _ _); auto. Qed.

(** Copying to a path whose directory is not there. *)
Lemma copy2_missing_directory src dst w data mtime :
  tree w !! src = Some (File data mtime) ->
  faults w (OpenRead src) = None -> faults w (OpenWrite dst) = None ->
  tree w !! dst = None -> tree w !! dirname dst = None ->
  copy2 src dst w = (w, Raise (missing w dst)).
Proof.
  intros Hsrc Hf Hfw Hdst Hdir. unfold copy2, bind at 1, isdir. rewrite Hdst. simpl.
  unfold bind at 1, samefile.
  rewrite bool_decide_false by (intros [-> _]; congruence).
  unfold bind, open_read, open_write. by rewrite Hsrc, Hf, Hfw, Hdst, Hdir.
Qed.

(** X14.  Take a well-formed tree, a directory of the source that the
    replica does not have, and a file in it that can be read.  When the
    creation of the directory in the replica is refused for want of
    permission, [update_replica] logs the warning and goes on; when the
    opening of the file in the replica for writing is not refused as
    well, the copy of the file then fails for the missing directory, with
    an error that is not a [PermissionError] and is caught nowhere: the
    loop ends there, the remaining entries are not dealt with. *)
Theorem denied_directory_aborts_update self rel name rest w w1 data mtime :
  wf (tree w) -> rel <> [] ->
  tree w !! (source_dir self ++ rel) = Some Dir ->
  tree w !! (source_dir self ++ rel ++ [name]) = Some (File data mtime) ->
  faults w (OpenRead (source_dir self ++ rel ++ [name])) = None ->
  faults w (OpenWrite (replica_dir self ++ rel ++ [name])) = None ->
  tree w !! (replica_dir self ++ rel) = None ->
  makedirs (replica_dir self ++ rel) w = (w1, Raise PermissionError) ->
  exists e,
    (e = FileNotFoundError \/ e = NotADirectoryError) /\
    update_replica self
      ((source_dir self ++ rel) :: (source_dir self ++ rel ++ [name]) :: rest) w
    = (emit (WARNING, CouldNotCreateDirectory (replica_dir self ++ rel)
                        PermissionError) w1,
       Raise e).
Proof.
  intros Hwf Hrel Hd Hfile Hread Hwrite Hrp Hmk.
  set (w2 := emit (WARNING, CouldNotCreateDirectory (replica_dir self ++ rel)
                              PermissionError) w1).
  pose proof (makedirs_grows _ _ _ _ Hmk) as (Hf1 & _ & Hwf1 & Ht1).
  assert (tree w2 !! (source_dir self ++ rel ++ [name]) = Some (File data mtime))
    as Hfile2.
  { simpl. destruct (Ht1 (source_dir self ++ rel ++ [name])) as [->|[? _]];
      [done|congruence]. }
  assert (tree w2 !! (replica_dir self ++ rel) = None) as Hrp2.
  { simpl. by rewrite (makedirs_Raise _ _ _ _ Hmk). }
  assert (tree w2 !! (replica_dir self ++ rel ++ [name]) = None) as Hrpf2.
  { simpl. destruct (tree w1 !! (replica_dir self ++ rel ++ [name])) eqn:Hk; [|done].
    rewrite app_assoc in Hk.
    destruct Hwf1 as [_ Hwf1]; [done|]. simpl in Hrp2.
    rewrite (Hwf1 (replica_dir self ++ rel) name) in Hrp2 by (by rewrite Hk). done. }
  assert (rel ++ [name] <> []) as Hrel' by (by destruct rel).
  exists (missing w2 (replica_dir self ++ rel ++ [name])).
  split; [apply missing_cases|].
  rewrite (update_replica_cons self _ _ w w2).
  - apply update_replica_cons_Raise, update_case_entry.
    rewrite <- (replica_path_of_join self _ Hrel') in Hrpf2 |- *.
    apply (upd_file_failed _ _ _ w2).
    + by rewrite Hfile2.
    + by left.
    + apply (copy2_missing_directory _ _ _ data mtime); [done| | |done|].
      * simpl. by rewrite Hf1.
      * simpl. by rewrite Hf1, (replica_path_of_join self _ Hrel').
      * rewrite (replica_path_of_join self _ Hrel'), app_assoc, dirname_app. done.
    + by destruct (missing_cases w2 (replica_path_of self
                     (source_dir self ++ rel ++ [name]))) as [->| ->].
  - apply update_case_entry. subst w2.
    rewrite <- (replica_path_of_join self _ Hrel) in *.
    apply upd_dir_denied; [by rewrite Hd|done..].
Qed.

Lemma denied_directory_aborts_update_witness :
  exists e,
    (e = FileNotFoundError \/ e = NotADirectoryError) /\
    update_replica fs_example
      ((source_dir fs_example ++ ["d"]) :: (source_dir fs_example ++ ["d"] ++ ["f"])
         :: [])
      world_denied_nested
    = (emit (WARNING, CouldNotCreateDirectory (replica_dir fs_example ++ ["d"])
                        PermissionError) world_denied_nested,
       Raise e).
Proof.
  apply (denied_directory_aborts_update fs_example ["d"] "f" [] world_denied_nested
           world_denied_nested (bytes "x") 1).
  - apply wf_check_sound. vm_compute. reflexivity.
  - discriminate.
  - vm_compute. reflexivity.
  - vm_compute. reflexivity.
  - vm_compute. reflexivity.
  - vm_compute. reflexivity.
  - vm_compute. reflexivity.
  - vm_compute. reflexivity.
Defined.

(* ===================================================================== *)
(** * [initialize], however it ends                                        *)
(* ===================================================================== *)

Lemma open_append_inv p w w' o :
  open_append p w = (w', o) ->
  (w' = w /\ (o = Return tt -> is_file (tree w !! p) = true)) \/
  (o = Return tt /\ tree w !! p = None /\ tree w !! dirname p = Some Dir /\
   faults w (OpenWrite p) = None /\
   w' = set_tree (<[p := File [] 0]> (tree w)) w).
Proof.
  unfold open_append, ask.
  destruct (tree w !! p) as [[data mtime|]|] eqn:Hp.
  - destruct (faults w (OpenWrite p)); intros [= <- <-]; left; by split.
  - intros [= <- <-]. left. by split.
  - destruct (tree w !! dirname p) as [[]|] eqn:Hd;
      try (intros [= <- <-]; left; by split).
    destruct (faults w (OpenWrite p)) eqn:Hf; intros [= <- <-]; [left; by split|].
    right. by split_and!.
Qed.

(** What [initialize] may do to the world: create the log file, empty,
    and directories on the way to the replica root; it logs no warning. *)
Lemma initialize_effect self w w' o :
  initialize self w = (w', o) ->
  faults w' = faults w /\
  (exists l, log w' = log w ++ l /\ warnings l = []) /\
  (wf (tree w) -> wf (tree w')) /\
  (o = Return tt -> is_file (tree w' !! logfile self) = true) /\
  forall k, tree w' !! k = tree w !! k \/
    (tree w !! k = None /\
     ((k = logfile self /\ tree w' !! k = Some (File [] 0)) \/
      (k `prefix_of` replica_dir self /\ tree w' !! k = Some Dir))).
Proof.
  unfold initialize, create_logger. intros H.
  apply bind_inv in H as [(w1 & [] & Hlog & H)|(e & Hlog & ->)].
  2:{ apply open_append_inv in Hlog as [[-> _]|[[=] _]].
      split_and!; [done|by exists []; rewrite app_nil_r|done|done|by left]. }
  assert (faults w1 = faults w /\ log w1 = log w /\
          (wf (tree w) -> wf (tree w1)) /\
          is_file (tree w1 !! logfile self) = true /\
          forall k, tree w1 !! k = tree w !! k \/
            (tree w !! k = None /\ k = logfile self /\
             tree w1 !! k = Some (File [] 0))) as (Hf1 & Hl1 & Hwf1 & Hfile1 & Ht1).
  { apply open_append_inv in Hlog as [[-> Hfile]|(_ & Hnone & Hdir & _ & ->)].
    - split_and!; [done..|by apply Hfile|by left].
    - split_and!; [done..| | |].
      + intros Hwf. simpl. apply wf_insert_file; auto.
      + simpl. by rewrite lookup_insert_eq.
      + intros k. simpl. destruct (decide (k = logfile self)) as [->|Hne].
        * right. by rewrite lookup_insert_eq.
        * left. by rewrite lookup_insert_ne. }
  apply bind_inv in H as [(w0 & b & Hex & H)|(e & Hex & ?)]; [|done].
  unfold exists_ in Hex. injection Hex as <- <-.
  destruct (negb _).
  2:{ unfold ret in H. injection H as <- <-.
      split_and!; [done|exists []; by rewrite app_nil_r|done|done|].
      intros k. destruct (Ht1 k) as [?|(? & ? & ?)]; [by left|right; auto]. }
  assert (forall w2 o2, makedirs (replica_dir self) w1 = (w2, o2) ->
            faults w2 = faults w /\ log w2 = log w /\
            (wf (tree w) -> wf (tree w2)) /\
            is_file (tree w2 !! logfile self) = true /\
            forall k, tree w2 !! k = tree w !! k \/
              (tree w !! k = None /\
               ((k = logfile self /\ tree w2 !! k = Some (File [] 0)) \/
                (k `prefix_of` replica_dir self /\ tree w2 !! k = Some Dir))))
    as Hmk.
  { intros w2 o2 (Hf2 & Hl2 & Hwf2 & Ht2)%makedirs_grows.
    split_and!; [congruence|congruence|auto| |].
    - destruct (Ht2 (logfile self)) as [->|[Hn _]]; [done|]. by rewrite Hn in Hfile1.
    - intros k. destruct (Ht2 k) as [->|(Hn & Hd & Hpre)].
      + destruct (Ht1 k) as [?|(? & ? & ?)]; [by left|right; auto].
      + destruct (Ht1 k) as [Heq|(_ & _ & ?)]; [|congruence].
        right. split; [congruence|]. by right. }
  apply bind_inv in H as [(w2 & [] & Hop & H)|(e & Hop & ->)].
  - destruct (Hmk _ _ Hop) as (Hf2 & Hl2 & Hwf2 & Hfile2 & Ht2).
    unfold debug in H. injection H as <- <-.
    split_and!; [done| |done|done|done].
    eexists. rewrite log_emit, Hl2. done.
  - destruct (Hmk _ _ Hop) as (Hf2 & Hl2 & Hwf2 & Hfile2 & Ht2).
    split_and!; [done|exists []; by rewrite app_nil_r|done|done|done].
Qed.

(** X15.  Nothing in [initialize] catches an error.  An error of
    [create_logger] leaves it with the world as it was, the replica root
    not created; that is the case when the directory of the log file is
    not there, be it the replica directory that [initialize] would have
    created next.  An error of [os.makedirs], a [PermissionError]
    included, leaves it too, and nothing is logged.  And a regular file at
    the path of the replica root is taken for the root: [initialize] ends
    well and creates no directory. *)
Theorem initialize_errors_escape self w :
  (forall w1 e,
     create_logger (logfile self) w = (w1, Raise e) ->
     initialize self w = (w, Raise e)) /\
  (tree w !! logfile self = None ->
   tree w !! dirname (logfile self) = None ->
   initialize self w = (w, Raise (missing w (logfile self)))) /\
  (forall w1 w2 e,
     create_logger (logfile self) w = (w1, Return tt) ->
     tree w1 !! replica_dir self = None ->
     makedirs (replica_dir self) w1 = (w2, Raise e) ->
     initialize self w = (w2, Raise e) /\ log w2 = log w /\
     tree w2 !! replica_dir self = None) /\
  (forall w1 data mtime,
     create_logger (logfile self) w = (w1, Return tt) ->
     tree w1 !! replica_dir self = Some (File data mtime) ->
     initialize self w = (w1, Return tt) /\ log w1 = log w /\
     forall k, k <> logfile self -> tree w1 !! k = tree w !! k).
Proof.
  split_and!.
  - intros w1 e Hlog. unfold initialize.
    rewrite (bind_Raise _ _ _ _ _ Hlog). unfold create_logger in Hlog.
    by apply open_append_inv in Hlog as [[-> _]|[[=] _]].
  - intros Hnone Hdir. unfold initialize.
    apply bind_Raise. unfold create_logger, open_append. by rewrite Hnone, Hdir.
  - intros w1 w2 e Hlog Hrep Hmk. unfold initialize.
    rewrite (bind_Return _ _ _ _ _ Hlog), (exists_false _ _ _ Hrep). simpl.
    rewrite (bind_Raise _ _ _ _ _ Hmk).
    pose proof (makedirs_grows _ _ _ _ Hmk) as (_ & Hl & _).
    split_and!; [done| |by rewrite (makedirs_Raise _ _ _ _ Hmk)].
    unfold create_logger in Hlog.
    apply open_append_inv in Hlog as [[-> _]|(_ & _ & _ & _ & ->)]; by rewrite Hl.
  - intros w1 data mtime Hlog Hrep. unfold initialize.
    rewrite (bind_Return _ _ _ _ _ Hlog), exists_true by (by rewrite Hrep).
    split; [done|]. unfold create_logger in Hlog.
    apply open_append_inv in Hlog as [[-> _]|(_ & _ & _ & _ & ->)]; [done|].
    split; [done|]. intros k Hk. simpl. by rewrite lookup_insert_ne.
Qed.

Lemma initialize_errors_escape_witness :
  initialize fs_log_in_replica world_fresh
  = (world_fresh, Raise (missing world_fresh (logfile fs_log_in_replica))) /\
  missing world_fresh (logfile fs_log_in_replica) = FileNotFoundError.
Proof.
  split; [|vm_compute; reflexivity].
  destruct (initialize_errors_escape fs_log_in_replica world_fresh)
    as (_ & Hdir & _).
  apply Hdir; vm_compute; reflexivity.
Defined.

(* ===================================================================== *)
(** * A log file in the replica directory                                  *)
(* ===================================================================== *)

(** X16.  Take a well-formed tree, roots that do not contain one another,
    and an environment that refuses nothing.  When the log file lies
    below the replica root and the source holds nothing at that relative
    path, the first pass removes the log file that [initialize] has
    opened: the start-up followed by a pass that ends well and logs no
    warning leaves no file at the path of the log file. *)
Theorem logfile_in_replica_is_removed self rel w w' :
  wf (tree w) -> disjoint_roots self -> refuses_nothing w ->
  rel <> [] -> logfile self = replica_dir self ++ rel ->
  tree w !! (source_dir self ++ rel) = None ->
  main_first_pass self w = (w', Return tt) ->
  warnings (log w') = warnings (log w) ->
  exists w1,
    initialize self w = (w1, Return tt) /\
    is_file (tree w1 !! logfile self) = true /\
    synchronize_directories self w1 = (w', Return tt) /\
    tree w' !! logfile self = None.
Proof.
  intros Hwf Hdisj Hlist%refuses_nothing_listable Hrel Hlog Hsrc H Hwarn.
  unfold main_first_pass in H.
  apply bind_inv in H as [(w1 & [] & Hinit & Hpass)|(e & _ & ?)]; [|done].
  exists w1. pose proof (initialize_effect _ _ _ _ Hinit)
    as (Hf1 & (l1 & Hl1 & Hw1) & Hwf1 & Hfile1 & Ht1).
  split_and!; [done|auto|done|].
  assert (log_grows w1 w') as [_ [l2 Hl2]].
  { apply synchronize_directories_inv in Hpass
      as (items_s & wa & oa & _ & Hu & [(e & -> & _ & ?)|(-> & items_r & _ & Hc)]);
      [done|].
    eapply log_grows_trans; [by eapply update_replica_log|].
    eapply cleanup_replica_log; [|done]. eapply update_replica_wf; [done|auto]. }
  assert (warnings (log w') = warnings (log w1)) as Hwarn1.
  { rewrite Hl2, Hl1, !warnings_app, Hw1, app_nil_r in Hwarn |- *.
    rewrite <- (app_nil_r (warnings (log w))) in Hwarn at 2.
    apply app_inv_head in Hwarn. by rewrite Hwarn, app_nil_r. }
  destruct (pass_summary self w1 w') as (_ & _ & _ & _ & Hgone & _); [auto|done..|].
  rewrite Hlog. apply Hgone; [done| |].
  - destruct (Ht1 (source_dir self ++ rel)) as [->|(_ & [[Heq _]|[Hpre _]])];
      [done|exfalso..].
    + rewrite Hlog in Heq.
      apply (disjoint_roots_both self (source_dir self ++ rel) Hdisj);
        [apply prefix_of_join_l|rewrite Heq; apply prefix_of_join_l].
    + destruct Hdisj as [Hdisj _]. apply Hdisj. etrans; [|done]. apply prefix_of_join_l.
  - intros q _ _ _. rewrite Hf1. apply Hlist.
Qed.

Lemma logfile_in_replica_is_removed_witness :
  exists w1,
    initialize fs_log_in_replica world_scenarios = (w1, Return tt) /\
    is_file (tree w1 !! logfile fs_log_in_replica) = true /\
    synchronize_directories fs_log_in_replica w1
    = ((main_first_pass fs_log_in_replica world_scenarios).1, Return tt) /\
    tree (main_first_pass fs_log_in_replica world_scenarios).1
      !! logfile fs_log_in_replica = None.
Proof.
  apply (logfile_in_replica_is_removed fs_log_in_replica ["sync.log"] world_scenarios).
  - apply wf_check_sound. vm_compute. reflexivity.
  - split; intros [k Hk]; discriminate Hk.
  - apply refuses_nothing_no_faults.
  - discriminate.
  - reflexivity.
  - vm_compute. reflexivity.
  - vm_compute. reflexivity.
  - vm_compute. reflexivity.
Defined.

(* ===================================================================== *)
(** * The command line                                                     *)
(* ===================================================================== *)

Lemma validate_args_rejects is_valid_filepath args w :
  (Main.validate_args is_valid_filepath args w).2 = false ->
  exists l, (Main.validate_args is_valid_filepath args w).1 = [l].
Proof.
  unfold Main.validate_args. repeat case_match; simpl; try done; eauto.
Qed.

(** X17.  [validate_args] returns [True] exactly when the three paths are
    valid as texts and the source path exists; it does not ask that the
    source be a directory, nor that the replica or the directory of the
    log file exist, and it does not look at the period.  When it returns
    [True] it prints nothing; when it returns [False] it prints one line,
    that of the first test that failed. *)
Theorem validate_args_checks is_valid_filepath args w :
  ((Main.validate_args is_valid_filepath args w).2 = true <->
   is_valid_filepath (Main.source args) = true /\
   is_Some (tree w !! Main.source args) /\
   is_valid_filepath (Main.replica args) = true /\
   is_valid_filepath (Main.logfile args) = true) /\
  ((Main.validate_args is_valid_filepath args w).2 = true ->
   (Main.validate_args is_valid_filepath args w).1 = []) /\
  ((Main.validate_args is_valid_filepath args w).2 = false ->
   (Main.validate_args is_valid_filepath args w).1 =
   [if negb (is_valid_filepath (Main.source args))
    then Main.SourcePathInvalid (Main.source args)
    else if negb (bool_decide (is_Some (tree w !! Main.source args)))
    then Main.SourceDoesNotExist (Main.source args)
    else if negb (is_valid_filepath (Main.replica args))
    then Main.ReplicaPathInvalid (Main.replica args)
    else Main.LogfilePathInvalid (Main.logfile args)]).
Proof.
  unfold Main.validate_args.
  destruct (is_valid_filepath (Main.source args)); simpl;
    [|split_and!; [split; [done|by intros [? _]]|done..]].
  case_bool_decide as Hsrc; simpl;
    [|split_and!; [split; [done|by intros (_ & ? & _)]|done..]].
  destruct (is_valid_filepath (Main.replica args)); simpl;
    [|split_and!; [split; [done|by intros (_ & _ & ? & _)]|done..]].
  destruct (is_valid_filepath (Main.logfile args)); simpl;
    [|split_and!; [split; [done|by intros (_ & _ & _ & ?)]|done..]].
  by split_and!.
Qed.

(** X18.  How the program starts.  When a test of [validate_args] fails,
    the program exits after the one line printed, before any file is
    touched: no log file is opened and no replica root created.  When the
    tests pass, [initialize] runs on the paths as given, then the first
    pass; as the tests do not look at the directory of the log file, a log
    file in a directory that is not there is accepted, and the program
    then ends in [initialize] with the error of the missing directory, the
    replica root not created. *)
Theorem main_startup is_valid_filepath args w :
  ((Main.validate_args is_valid_filepath args w).2 = false ->
   exists l, Main.main is_valid_filepath args w = Main.Exited [l]) /\
  ((Main.validate_args is_valid_filepath args w).2 = true ->
   Main.main is_valid_filepath args w
   = Main.Ran
       (main_first_pass
          {| source_dir := Main.source args; replica_dir := Main.replica args;
             logfile := Main.logfile args; period := Main.period args |} w) /\
   (tree w !! Main.logfile args = None ->
    tree w !! dirname (Main.logfile args) = None ->
    Main.main is_valid_filepath args w
    = Main.Ran (w, Raise (missing w (Main.logfile args))))).
Proof.
  split.
  - intros Hr. unfold Main.main. rewrite Hr. simpl.
    destruct (validate_args_rejects _ _ _ Hr) as [l ->]. by exists l.
  - intros Hr. unfold Main.main. rewrite Hr. simpl. split; [done|].
    intros Hnone Hdir. f_equal. unfold main_first_pass, initialize.
    apply bind_Raise, bind_Raise. unfold create_logger, open_append. simpl.
    by rewrite Hnone, Hdir.
Qed.

(* ===================================================================== *)
(** * The scheduler loop, over a whole run                                 *)
(* ===================================================================== *)

Lemma exits_snoc evs ev :
  exits (evs ++ [ev])
  = exits evs + match ev with Scheduler.Exit _ => 1 | Scheduler.Tick _ => 0 end.
Proof.
  unfold exits. rewrite List.filter_app, length_app. by destruct ev.
Qed.

Lemma ticks_snoc evs ev :
  ticks (evs ++ [ev])
  = ticks evs + match ev with Scheduler.Tick _ => 1 | Scheduler.Exit _ => 0 end.
Proof.
  unfold ticks. rewrite List.filter_app, length_app. by destruct ev.
Qed.

(** The starts recorded are never forgotten: the first is the one made
    before the loop. *)
Lemma started_first period now evs :
  exists l, Scheduler.started (Scheduler.run period now evs) = (0, now) :: l.
Proof.
  induction evs as [|ev evs IH] using rev_ind; [by exists []|].
  rewrite run_snoc. destruct IH as [l Hl]. destruct ev as [curr|i]; [|by exists l].
  destruct (step_Tick period (Scheduler.run period now evs) curr)
    as [(_ & _ & ->)|[_ ->]]; [|by exists l].
  simpl. rewrite Hl. by eexists.
Qed.

(** A start needs the end of the worker started before. *)
Lemma starts_exits period now evs :
  if decide (Scheduler.t (Scheduler.run period now evs)
               ∈ Scheduler.alive (Scheduler.run period now evs))
  then length (Scheduler.started (Scheduler.run period now evs)) <= 1 + exits evs
  else length (Scheduler.started (Scheduler.run period now evs)) <= exits evs.
Proof.
  induction evs as [|ev evs IH] using rev_ind.
  - simpl. rewrite decide_True by set_solver. simpl. lia.
  - rewrite run_snoc, exits_snoc. set (s := Scheduler.run period now evs) in *.
    destruct ev as [curr|i].
    + destruct (step_Tick period s curr) as [(_ & Hdead & ->)|[_ ->]].
      * rewrite decide_False in IH by done. simpl.
        rewrite decide_True by set_solver. rewrite length_app. simpl. lia.
      * rewrite Nat.add_0_r. done.
    + simpl. destruct (decide (Scheduler.t s ∈ Scheduler.alive s)) as [Hin|Hout].
      * case_decide; lia.
      * rewrite decide_False by set_solver. lia.
Qed.

Lemma starts_ticks period now evs :
  length (Scheduler.started (Scheduler.run period now evs)) <= 1 + ticks evs.
Proof.
  induction evs as [|ev evs IH] using rev_ind; [simpl; lia|].
  rewrite run_snoc, ticks_snoc. destruct ev as [curr|i]; [|simpl; lia].
  destruct (step_Tick period (Scheduler.run period now evs) curr)
    as [(_ & _ & ->)|[_ ->]]; [|lia].
  simpl. rewrite length_app. simpl. lia.
Qed.

(** X19.  Over a whole run of the loop, the passes started, the one made
    before the loop included, are at most one more than the workers that
    have ended, and at most one more than the iterations.  So a worker
    that never ends stops the schedule: if no worker ends, the pass
    started before the loop is the only one ever started, however many
    iterations follow and whatever the period. *)
Theorem starts_bounded period now evs :
  length (Scheduler.started (Scheduler.run period now evs)) <= 1 + exits evs /\
  length (Scheduler.started (Scheduler.run period now evs)) <= 1 + ticks evs /\
  (exits evs = 0 ->
   Scheduler.started (Scheduler.run period now evs) = [(0, now)]).
Proof.
  pose proof (starts_exits period now evs) as He.
  pose proof (starts_ticks period now evs) as Ht.
  assert (length (Scheduler.started (Scheduler.run period now evs))
          <= 1 + exits evs) as Hle by (case_decide; lia).
  split_and!; [done..|]. intros H0.
  destruct (started_first period now evs) as [l Hl]. rewrite Hl in Hle |- *.
  destruct l; [done|]. simpl in Hle. lia.
Qed.

Lemma starts_bounded_witness :
  Scheduler.started
    (Scheduler.run 5 0
       [Scheduler.Tick 5000000; Scheduler.Tick 10000000; Scheduler.Tick 900000000])
  = [(0, 0%Z)].
Proof.
  apply (starts_bounded 5 0
           [Scheduler.Tick 5000000; Scheduler.Tick 10000000; Scheduler.Tick 900000000]).
  reflexivity.
Defined.

(** The time of the last start is a reading of the clock: that made
    before the loop, or that of an iteration. *)
Lemma prev_call_time_reading period now evs :
  Scheduler.prev_call_time (Scheduler.run period now evs) = now \/
  Scheduler.Tick (Scheduler.prev_call_time (Scheduler.run period now evs)) ∈ evs.
Proof.
  induction evs as [|ev evs IH] using rev_ind; [by left|].
  rewrite run_snoc. setoid_rewrite elem_of_app.
  destruct ev as [curr|i]; [|simpl; tauto].
  destruct (step_Tick period (Scheduler.run period now evs) curr)
    as [(_ & _ & ->)|[_ ->]]; [|tauto].
  simpl. right. right. by left.
Qed.

(** X20.  The period is not checked anywhere; with a period of zero or
    less, and a clock that does not go back, the test on the time elapsed
    always passes: an iteration starts a pass exactly when the worker is
    not alive, so the passes follow one another with no pause but that of
    the loop. *)
Theorem nonpositive_period period now evs curr :
  (period <= 0)%Z ->
  (now <= curr)%Z ->
  (forall c, Scheduler.Tick c ∈ evs -> (c <= curr)%Z) ->
  Scheduler.dispatches period (Scheduler.run period now evs) (Scheduler.Tick curr)
  = true <->
  (Scheduler.t (Scheduler.run period now evs)
     ∉ Scheduler.alive (Scheduler.run period now evs)).
Proof.
  intros Hp Hnow Hmono. rewrite dispatches_spec. split.
  - by intros (c & _ & _ & ?).
  - intros Hdead. exists curr. split_and!; [done| |done].
    assert (Scheduler.prev_call_time (Scheduler.run period now evs) <= curr)%Z.
    { destruct (prev_call_time_reading period now evs) as [Heq|Hin].
      - by rewrite Heq.
      - by apply Hmono. }
    unfold Scheduler.timedelta. lia.
Qed.

Lemma nonpositive_period_witness :
  Scheduler.dispatches 0 (Scheduler.run 0 0 [Scheduler.Tick 1000000; Scheduler.Exit 0])
    (Scheduler.Tick 2000000) = true <->
  (Scheduler.t (Scheduler.run 0 0 [Scheduler.Tick 1000000; Scheduler.Exit 0])
     ∉ Scheduler.alive (Scheduler.run 0 0 [Scheduler.Tick 1000000; Scheduler.Exit 0])).
Proof.
  apply (nonpositive_period 0 0 [Scheduler.Tick 1000000; Scheduler.Exit 0] 2000000).
  - lia.
  - lia.
  - intros c [[= ->]|[[=]|[]%elem_of_nil]%elem_of_cons]%elem_of_cons. lia.
Defined.

(* ===================================================================== *)
(** * Entries that come and go during a pass                               *)
(* ===================================================================== *)

(** X21.  In a well-formed tree, [fetch_files_and_dirs] lists exactly the
    entries that exist strictly below the directory and can be reached
    from it through directories that can be listed; what lies in a
    directory that cannot be listed is left out without an error. *)
Theorem fetch_files_and_dirs_exact directory w :
  wf (tree w) ->
  exists items,
    fetch_files_and_dirs directory w = (w, Return items) /\
    forall p, p ∈ items <->
      below directory p /\ is_Some (tree w !! p) /\ listable_to w directory p.
Proof.
  intros Hwf.
  destruct (fetch_files_and_dirs_inv directory w w _ (fetch_files_and_dirs_items _ _))
    as (_ & items & [= <-] & Hsound & Hcomplete).
  eexists. split; [apply fetch_files_and_dirs_items|].
  intros p. split; [apply Hsound|]. intros (? & ? & ?). by apply Hcomplete.
Qed.

Lemma fetch_files_and_dirs_exact_witness :
  exists items,
    fetch_files_and_dirs ["src"] world_scenarios = (world_scenarios, Return items) /\
    ["src"; "d"; "e"; "f"] ∈ items.
Proof.
  destruct (fetch_files_and_dirs_exact ["src"] world_scenarios)
    as (items & Hfetch & Hexact).
  - apply wf_check_sound. vm_compute. reflexivity.
  - exists items. split; [exact Hfetch|]. apply Hexact. split_and!.
    + exists ["d"; "e"; "f"]. split; [intros [=]|reflexivity].
    + vm_compute. by eexists.
    + intros q _ _ _. reflexivity.
Defined.



(** X23.  [cleanup_replica] removes a directory that is not in the source
    with all it holds in one go, and the entries of that directory that
    come later in the list are then found missing and passed over: no
    error is raised and one record is logged for the whole directory. *)
Theorem cleanup_skips_removed_entries self rp rest w :
  wf (tree w) -> deletable w -> rp <> [] ->
  tree w !! rp = Some Dir ->
  tree w !! source_path_of self rp = None ->
  Forall (fun p : path => rp `prefix_of` p) rest ->
  exists w1,
    rmtree rp w = (w1, Return tt) /\
    cleanup_replica self (rp :: rest) w
    = (emit (DEBUG, DirectoryRemoved rp) w1, Return tt).
Proof.
  intros Hwf Hdel Hne Hrp Hsp Hrest.
  destruct (rmtree_removes rp w) as (w1 & Hop & _ & _ & Ht); [done..|].
  exists w1. split; [done|].
  rewrite (cleanup_replica_cons self rp rest w (emit (DEBUG, DirectoryRemoved rp) w1)).
  - destruct (for_fixed rest (cleanup_entry self)
                (emit (DEBUG, DirectoryRemoved rp) w1) True) as (o & Hloop & Ho).
    + intros p Hp. exists (Return tt). split; [|done].
      apply cleanup_case_entry, cln_kept. right. simpl. rewrite Ht.
      rewrite Forall_forall in Hrest. by rewrite decide_True by auto.
    + unfold cleanup_replica. by rewrite Hloop, Ho.
  - apply cleanup_case_entry, cln_dir_removed; [done|by rewrite Hrp|done].
Qed.

Lemma cleanup_skips_removed_entries_witness :
  exists w1,
    rmtree ["rep"; "old"] world_scenarios = (w1, Return tt) /\
    cleanup_replica fs_example
      [["rep"; "old"]; ["rep"; "old"; "n"]; ["rep"; "old"; "m"]] world_scenarios
    = (emit (DEBUG, DirectoryRemoved ["rep"; "old"]) w1, Return tt).
Proof.
  apply (cleanup_skips_removed_entries fs_example ["rep"; "old"]
           [["rep"; "old"; "n"]; ["rep"; "old"; "m"]] world_scenarios).
  - apply wf_check_sound. vm_compute. reflexivity.
  - apply deletable_no_faults.
  - discriminate.
  - vm_compute. reflexivity.
  - vm_compute. reflexivity.
  - repeat constructor; [by exists ["n"]|by exists ["m"]].
Defined.

(* ===================================================================== *)
(** * Roots that lie in one another                                        *)
(* ===================================================================== *)

Lemma for_split {A} (l1 : list A) (x : A) (l2 : list A) (body : A -> M unit) w w' :
  for_ (l1 ++ x :: l2) body w = (w', Return tt) ->
  exists wa wb,
    for_ l1 body w = (wa, Return tt) /\ body x wa = (wb, Return tt) /\
    for_ l2 body wb = (w', Return tt).
Proof.
  rewrite for_app. intros H.
  apply bind_inv in H as [(wa & [] & H1 & H2)|(e & _ & ?)]; [|done].
  simpl in H2. apply bind_inv in H2 as [(wb & [] & Hx & H3)|(e & _ & ?)]; [|done].
  eauto 6.
Qed.

Lemma warnings_three (l0 la lb lc : list (level * message)) :
  warnings (l0 ++ la ++ lb ++ lc) = warnings l0 ->
  warnings la = [] /\ warnings lb = [] /\ warnings lc = [].
Proof.
  intros [Ha Hbc]%warnings_split. rewrite warnings_app in Hbc.
  by apply app_eq_nil in Hbc as [? ?].
Qed.

(** In a loop of [update_replica] that ends well and logs no warning,
    every item that exists has its counterpart in the replica at the
    end. *)
Lemma update_replica_entry_done self items w w' sp :
  update_replica self items w = (w', Return tt) ->
  warnings (log w') = warnings (log w) ->
  sp ∈ items -> is_Some (tree w !! sp) ->
  is_Some (tree w' !! replica_path_of self sp).
Proof.
  intros H Hwarn Hin Hsp.
  apply list_elem_of_split in Hin as (l1 & l2 & ->).
  apply for_split in H as (wa & wb & H1 & Hx & H2).
  pose proof (update_replica_log _ _ _ _ _ H1) as [_ [la Hla]].
  pose proof (update_entry_effect _ _ _ _ _ Hx) as (_ & _ & _ & l & Hl & _ & Hpost).
  pose proof (update_replica_log _ _ _ _ _ H2) as [_ [lc Hlc]].
  destruct (warnings_three (log w) la l lc) as (_ & Hwl & _).
  { by rewrite !app_assoc, <- Hla, <- Hl, <- Hlc. }
  assert (is_Some (tree wa !! sp)) as Hspa.
  { apply kind_of_Some. rewrite (update_replica_kind _ _ _ _ _ H1) by done.
    by apply kind_of_Some. }
  assert (is_Some (tree wb !! replica_path_of self sp)) as Hrpb.
  { destruct (Hpost eq_refl Hwl) as [Hd Hf].
    destruct (is_dir (tree wa !! sp)) eqn:E; [by apply Hd|].
    destruct (Hf eq_refl) as (_ & Hfile & _). by apply is_file_Some. }
  apply kind_of_Some. rewrite (update_replica_kind _ _ _ _ _ H2) by done.
  by apply kind_of_Some.
Qed.

Lemma cleanup_replica_never_creates self items w w' o :
  wf (tree w) -> cleanup_replica self items w = (w', o) ->
  wf (tree w') /\ forall k, tree w' !! k = tree w !! k \/ tree w' !! k = None.
Proof.
  intros Hwf H. revert Hwf.
  apply (for_preserves (fun w w' => wf (tree w) ->
           wf (tree w') /\ forall k, tree w' !! k = tree w !! k \/ tree w' !! k = None))
    with (l := items) (body := cleanup_entry self) (o := o); [| | |done].
  - intros w1 ?. split; [done|]. by left.
  - intros w1 w2 w3 H12 H23 Hwf1. destruct (H12 Hwf1) as [Hwf2 Ht2].
    destruct (H23 Hwf2) as [Hwf3 Ht3]. split; [done|].
    intros k. destruct (Ht3 k) as [->|?]; [apply Ht2|by right].
  - intros rp w1 w2 o2 _ Hstep Hwf1.
    apply cleanup_entry_effect in Hstep as (_ & Hwf2 & Ht & _); [|done].
    split; [auto|]. intros k. destruct (Ht k) as [?|[? _]]; auto.
Qed.

(** In a loop of [cleanup_replica] that ends well and logs no warning,
    every item whose source path is missing is gone at the end. *)
Lemma cleanup_replica_entry_done self items w w' rp :
  wf (tree w) ->
  cleanup_replica self items w = (w', Return tt) ->
  warnings (log w') = warnings (log w) ->
  rp ∈ items -> tree w !! source_path_of self rp = None ->
  tree w' !! rp = None.
Proof.
  intros Hwf H Hwarn Hin Hsp.
  apply list_elem_of_split in Hin as (l1 & l2 & ->).
  apply for_split in H as (wa & wb & H1 & Hx & H2).
  destruct (cleanup_replica_never_creates _ _ _ _ _ Hwf H1) as [Hwfa Hta].
  pose proof (cleanup_replica_log _ _ _ _ _ Hwf H1) as [_ [_ [la Hla]]].
  pose proof (cleanup_entry_effect _ _ _ _ _ Hwfa Hx) as (_ & Hwfb & _ & l & Hl & Hpost).
  specialize (Hwfb Hwfa).
  destruct (cleanup_replica_never_creates _ _ _ _ _ Hwfb H2) as [_ Htb].
  pose proof (cleanup_replica_log _ _ _ _ _ Hwfb H2) as [_ [_ [lc Hlc]]].
  destruct (warnings_three (log w) la l lc) as (_ & Hwl & _).
  { by rewrite !app_assoc, <- Hla, <- Hl, <- Hlc. }
  assert (tree wb !! rp = None) as Hrpb.
  { apply Hpost; [done..|]. destruct (Hta (source_path_of self rp)); congruence. }
  destruct (Htb rp); congruence.
Qed.

Lemma nested_snoc (r : path) n : nested r (S n) = nested r n ++ r.
Proof.
  induction n as [|n IH]; simpl in *; [by rewrite app_nil_r|].
  rewrite IH at 1. by rewrite app_assoc.
Qed.

Lemma nested_ne (r : path) n : r <> [] -> nested r (S n) <> [].
Proof. intros Hr. simpl. by destruct r. Qed.

(** A pass that ends well and logs no warning: the two loops did. *)
Lemma clean_pass_inv self w w' :
  wf (tree w) ->
  synchronize_directories self w = (w', Return tt) ->
  warnings (log w') = warnings (log w) ->
  exists items_s w1 items_r,
    fetch_files_and_dirs (source_dir self) w = (w, Return items_s) /\
    update_replica self items_s w = (w1, Return tt) /\
    warnings (log w1) = warnings (log w) /\
    wf (tree w1) /\ faults w1 = faults w /\
    fetch_files_and_dirs (replica_dir self) w1 = (w1, Return items_r) /\
    cleanup_replica self items_r w1 = (w', Return tt) /\
    warnings (log w') = warnings (log w1).
Proof.
  intros Hwf H Hwarn.
  apply synchronize_directories_inv in H
    as (items_s & w1 & o1 & Hfs & Hu & [(e & -> & _ & ?)|(-> & items_r & Hfr & Hc)]);
    [done|].
  pose proof (update_replica_log _ _ _ _ _ Hu) as [Hf1 [la Hla]].
  pose proof (update_replica_wf _ _ _ _ _ Hu Hwf) as Hwf1.
  pose proof (cleanup_replica_log _ _ _ _ _ Hwf1 Hc) as [_ [_ [lb Hlb]]].
  destruct (warnings_split (log w) la lb) as [Hwa Hwb].
  { by rewrite app_assoc, <- Hla, <- Hlb. }
  exists items_s, w1, items_r. split_and!; [done..| |done|done|done|done|].
  - by rewrite Hla, warnings_app, Hwa, app_nil_r.
  - by rewrite Hlb, warnings_app, Hwb, app_nil_r.
Qed.

(** X24.  Take a well-formed tree and an environment that refuses
    nothing.  When the replica root lies in the source, a pass copies the
    replica into itself: with the replica root at the relative path [r]
    of the source, when the replica holds an entry at [r] repeated [n]
    times (for [n = 0], the replica root itself), then after a pass that
    ends well and logs no warning it holds an entry at [r] repeated
    [n + 1] times; each pass adds a level, so the passes never come to
    rest. *)
Theorem replica_in_source_nests self r n w w' :
  wf (tree w) -> refuses_nothing w -> r <> [] ->
  replica_dir self = source_dir self ++ r ->
  is_Some (tree w !! (replica_dir self ++ nested r n)) ->
  synchronize_directories self w = (w', Return tt) ->
  warnings (log w') = warnings (log w) ->
  is_Some (tree w' !! (replica_dir self ++ nested r (S n))).
Proof.
  intros Hwf Hlist%refuses_nothing_listable Hr Hrep Hn Hpass Hwarn.
  destruct (clean_pass_inv self w w')
    as (items_s & w1 & items_r & Hfs & Hu & Hw1 & Hwf1 & Hf1 & Hfr & Hc & Hw'); [done..|].
  apply fetch_files_and_dirs_inv in Hfs as (_ & its & [= <-] & _ & Hcomplete).
  pose proof (fetch_files_and_dirs_below _ _ _ Hfr) as Hbelow.
  assert (replica_dir self ++ nested r n = source_dir self ++ nested r (S n)) as Heq
    by (rewrite Hrep; simpl; by rewrite app_assoc).
  assert (is_Some (tree w1 !! (replica_dir self ++ nested r (S n)))) as H1.
  { rewrite <- (replica_path_of_join self _ (nested_ne r n Hr)).
    apply (update_replica_entry_done _ _ _ _ _ Hu Hw1); [|by rewrite <- Heq].
    apply Hcomplete; [done| |by rewrite <- Heq|by apply listable_listable_to].
    exists (nested r (S n)). split; [by apply nested_ne|done]. }
  enough (wf (tree w') /\
          forall q, q `prefix_of` replica_dir self ++ nested r (S n) ->
                    is_Some (tree w' !! q)) as [_ Hen] by (by apply Hen).
  assert (forall q, q `prefix_of` replica_dir self ++ nested r (S n) ->
                    is_Some (tree w1 !! q)) as Hall
    by (intros q Hq; by eapply wf_exists_prefix).
  revert Hwf1 Hall.
  apply (for_preserves (fun wa wb =>
           wf (tree wa) ->
           (forall q, q `prefix_of` replica_dir self ++ nested r (S n) ->
                      is_Some (tree wa !! q)) ->
           wf (tree wb) /\
           forall q, q `prefix_of` replica_dir self ++ nested r (S n) ->
                     is_Some (tree wb !! q)))
    with (l := items_r) (body := cleanup_entry self) (o := Return tt); [| | |done].
  - done.
  - intros wa wb wc Hab Hbc Hwa Ha. destruct (Hab Hwa Ha) as [Hwb Hb]. by apply Hbc.
  - intros rp wa wb ob Hin Hstep Hwa Ha.
    rewrite Forall_forall in Hbelow. destruct (Hbelow rp Hin) as (rel & Hrel & ->).
    apply cleanup_entry_effect in Hstep as (_ & Hwb & Ht & _); [|done].
    rewrite (source_path_of_join _ _ Hrel) in Ht.
    split; [auto|]. intros q Hq.
    destruct (Ht q) as [->|(_ & Hpre & Hnone)]; [by apply Ha|exfalso].
    assert (is_Some (tree wa !! (source_dir self ++ rel))) as [? ?]; [|congruence].
    apply Ha. assert (rel `prefix_of` nested r (S n)) as [q' Hq'].
    { eapply prefix_app_inv. by etrans. }
    rewrite nested_snoc, app_assoc, Heq, Hq', <- !app_assoc.
    apply prefix_app, prefix_of_join_l.
Qed.

Lemma replica_in_source_nests_witness :
  is_Some (tree (synchronize_directories fs_replica_in_source
                   world_replica_in_source).1
             !! (replica_dir fs_replica_in_source ++ nested ["backup"] 1)).
Proof.
  apply (replica_in_source_nests fs_replica_in_source ["backup"] 0
           world_replica_in_source).
  - apply wf_check_sound. vm_compute. reflexivity.
  - apply refuses_nothing_no_faults.
  - discriminate.
  - reflexivity.
  - vm_compute. by eexists.
  - vm_compute. reflexivity.
  - vm_compute. reflexivity.
Defined.

(** X25.  Take a well-formed tree and an environment that refuses
    nothing.  When the source root lies in the replica, a pass removes
    the source: with the source root at the relative path [r] of the
    replica and nothing at [r] in the source itself, the source root is
    an entry of the replica with no counterpart in the source, and after
    a pass that ends well and logs no warning it is gone. *)
Theorem source_in_replica_is_removed self r w w' :
  wf (tree w) -> refuses_nothing w -> r <> [] ->
  source_dir self = replica_dir self ++ r ->
  tree w !! (source_dir self ++ r) = None ->
  synchronize_directories self w = (w', Return tt) ->
  warnings (log w') = warnings (log w) ->
  tree w' !! source_dir self = None.
Proof.
  intros Hwf Hlist%refuses_nothing_listable Hr Hsrc Hnone Hpass Hwarn.
  destruct (clean_pass_inv self w w')
    as (items_s & w1 & items_r & Hfs & Hu & Hw1 & Hwf1 & Hf1 & Hfr & Hc & Hw'); [done..|].
  apply fetch_files_and_dirs_inv in Hfs as (_ & its & [= <-] & Hsound & _).
  apply fetch_files_and_dirs_inv in Hfr as (_ & its & [= <-] & _ & Hcomplete).
  assert (tree w1 !! (source_dir self ++ r) = None) as Hnone1.
  { generalize Hnone.
    apply (for_preserves (fun wa wb =>
             tree wa !! (source_dir self ++ r) = None ->
             tree wb !! (source_dir self ++ r) = None))
      with (l := items_s) (body := update_entry self) (o := Return tt); [auto|auto| |done].
    intros sp wa wb ob Hin Hstep Ha.
    destruct (Hsound sp Hin) as ((rel & Hrel & ->) & Hsome & _).
    apply update_entry_effect in Hstep as (_ & _ & Ht & _).
    rewrite (replica_path_of_join _ _ Hrel) in Ht.
    assert (source_dir self ++ r `prefix_of` replica_dir self ++ rel -> False) as Hno.
    { rewrite Hsrc at 1. rewrite <- app_assoc. intros [q Hq]%prefix_app_inv.
      assert (is_Some (tree w !! (source_dir self ++ r))) as [? ?]; [|congruence].
      eapply wf_exists_prefix; [done..|]. rewrite Hq, <- app_assoc.
      apply prefix_app, prefix_of_join_l. }
    destruct (Ht (source_dir self ++ r)) as [->|[(_ & _ & Hpre)|(Heq & _)]];
      [done|by destruct Hno|]. destruct Hno. by rewrite Heq. }
  destruct (tree w1 !! source_dir self) as [nd|] eqn:Hs1.
  - apply (cleanup_replica_entry_done _ _ _ _ _ Hwf1 Hc Hw').
    + apply Hcomplete; [done| |by rewrite Hs1|].
      * exists r. by split.
      * intros q _ _ _. rewrite Hf1. apply Hlist.
    + rewrite Hsrc at 1. rewrite (source_path_of_join _ _ Hr). done.
  - destruct (cleanup_replica_never_creates _ _ _ _ _ Hwf1 Hc) as [_ Ht].
    destruct (Ht (source_dir self)); congruence.
Qed.

Lemma source_in_replica_is_removed_witness :
  tree (synchronize_directories fs_source_in_replica world_source_in_replica).1
    !! source_dir fs_source_in_replica = None.
Proof.
  apply (source_in_replica_is_removed fs_source_in_replica ["data"]
           world_source_in_replica).
  - apply wf_check_sound. vm_compute. reflexivity.
  - apply refuses_nothing_no_faults.
  - discriminate.
  - reflexivity.
  - vm_compute. reflexivity.
  - vm_compute. reflexivity.
  - vm_compute. reflexivity.
Defined.


